(** * nengo_spinnaker: filter regions, partitioning and cluster assignment

    A shallow embedding of [nengo_spinnaker/regions/filters.py] together with
    the partitioner and the cluster assigner exercised by
    [tests/test_partition_and_cluster.py], and the properties established
    about them.

    Layout of the development:
    - [Py]        the fragment of the Python runtime the code relies on
                  (exceptions, [bytearray], [struct.pack_into], slice
                  assignment);
    - [Numeric], [BitField]   the external numeric and routing-key libraries,
                  as interfaces;
    - [Filters]   [regions/filters.py];
    - [Partition], [Cluster]  [partition_and_cluster.py];
    - the theorems. *)

From stdpp Require Import base option list gmap strings numbers.
From Stdlib Require Import ZArith QArith Qround Lia.

#[local] Open Scope Z_scope.

(* ===================================================================== *)
(** * The Python runtime fragment                                         *)
(* ===================================================================== *)

Module Py.

(** The exceptions the modelled code can raise. *)
Inductive exn : Type :=
| StructError          (* struct.error *)
| AssertionError
| IndexError
| ValueError
| ZeroDivisionError
| KeyError
| UnavailableFieldError.

(** A computation either raises or returns. *)
Definition result (A : Type) : Type := (exn + A)%type.

Definition raise {A : Type} (e : exn) : result A := inl e.
Definition ok {A : Type} (a : A) : result A := inr a.

Definition bind {A B : Type} (m : result A) (k : A -> result B) : result B :=
  match m with
  | inl e => inl e
  | inr a => k a
  end.

(** [for x in xs: acc = body(acc, x)], stopping at the first exception. *)
Fixpoint for_each {A S : Type} (body : S -> A -> result S) (xs : list A) (s : S)
  : result S :=
  match xs with
  | [] => ok s
  | x :: xs' => bind (body s x) (for_each body xs')
  end.

(** [enumerate(xs, start)]. *)
Fixpoint enumerate {A : Type} (start : Z) (xs : list A) : list (Z * A) :=
  match xs with
  | [] => []
  | x :: xs' => (start, x) :: enumerate (start + 1) xs'
  end.

(** ** Byte buffers

    A [bytearray] is a list of bytes, each a [Z] in [0, 256). *)
Definition bytearray : Type := list Z.

Definition len {A : Type} (l : list A) : Z := Z.of_nat (length l).

(** [bytearray(n)]: [n] zero bytes; a negative count is a [ValueError]. *)
Definition bytearray_new (n : Z) : result bytearray :=
  if n <? 0 then raise ValueError else ok (replicate (Z.to_nat n) 0).

(** The four bytes of the low 32 bits of [v], least significant first. *)
Definition le32 (v : Z) : bytearray :=
  [ Z.land v 255;
    Z.land (Z.shiftr v 8) 255;
    Z.land (Z.shiftr v 16) 255;
    Z.land (Z.shiftr v 24) 255 ].

(** The format character [I]: an unsigned 32-bit integer. *)
Definition is_uint32 (v : Z) : bool := (0 <=? v) && (v <? 2 ^ 32).

(** [words vs]: the words [vs] laid out one after the other. *)
Definition words (vs : list Z) : bytearray := concat (map le32 vs).

(** [struct.pack_into("<kI", buffer, offset, *vs)] with [k = len(vs)].
    A negative offset counts from the end of the buffer.  No room at the
    offset, or a value outside the range of [I], is a [struct.error]; the
    buffer keeps its length. *)
Definition pack_into (buffer : bytearray) (offset : Z) (vs : list Z)
  : result bytearray :=
  let size := 4 * len vs in
  if (offset <? 0) && (0 <? offset + size) then raise StructError else
  let off := if offset <? 0 then offset + len buffer else offset in
  if off <? 0 then raise StructError else
  if len buffer - off <? size then raise StructError else
  if forallb is_uint32 vs then
    ok (take (Z.to_nat off) buffer ++ words vs
          ++ drop (Z.to_nat (off + size)) buffer)
  else raise StructError.

(** Index clamping of [buffer[i:j]] (CPython's [PySlice_AdjustIndices]). *)
Definition adjust_index (n i : Z) : Z :=
  if i <? 0 then Z.max 0 (i + n) else Z.min i n.

(** [buffer[i:j] = data]: the bytes [lo..hi) are replaced by [data], whatever
    its length; when the stop lies before the start the slice is the empty
    one at the start, and [data] is inserted there. *)
Definition setslice (buffer : bytearray) (i j : Z) (data : bytearray)
  : bytearray :=
  let lo := adjust_index (len buffer) i in
  let hi := Z.max lo (adjust_index (len buffer) j) in
  take (Z.to_nat lo) buffer ++ data ++ drop (Z.to_nat hi) buffer.

(** Reading back: the [n] bytes at byte offset [off], and the unsigned
    little-endian word stored there. *)
Definition bytes_at (buffer : bytearray) (off : Z) (n : Z) : bytearray :=
  take (Z.to_nat n) (drop (Z.to_nat off) buffer).

Definition decode_le (bs : bytearray) : Z :=
  foldr (fun b acc => b + 256 * acc) 0 bs.

Definition word_at (buffer : bytearray) (off : Z) : Z :=
  decode_le (bytes_at buffer off 4).

End Py.

Import Py.

#[global] Instance result_ret : MRet Py.result := @Py.ok.
#[global] Instance result_bind : MBind Py.result := fun A B k m => Py.bind m k.


(* ===================================================================== *)
(** * External libraries, as interfaces                                   *)
(* ===================================================================== *)

(** Floating-point numbers and the numeric routines [filters.py] imports:
    Python and numpy arithmetic on floats, [nengo]'s [cont2discrete], and the
    fixed-point conversion of [nengo_spinnaker.utils.type_casts].  None of
    them is part of the sources; the code is modelled over any
    implementation of them. *)
Class Numeric : Type := {
  float : Type;
  float_eqb : float -> float -> bool;        (* x == y *)
  float_zero : float;                        (* 0.0 *)
  float_one : float;                         (* 1.0 *)
  float_neg : float -> float;                (* -x *)
  float_sub : float -> float -> float;       (* x - y *)
  float_div : float -> float -> float;       (* x / y, for y != 0 *)
  float_exp : float -> float;                (* np.exp(x) *)
  (** [cont2discrete((num, den), dt)]: the discrete numerator, flattened,
      and the discrete denominator. *)
  cont2discrete : list float -> list float -> float -> list float * list float;
  (** [tp.value_to_fix]. *)
  value_to_fix : float -> Z;
}.

(** Routing keys ([rig.bitfield.BitField]): the three queries the routing
    region makes.  Each of them may raise. *)
Class BitField : Type := {
  keyspace : Type;
  get_value : keyspace -> string -> result Z;       (* ks.get_value(tag=t) *)
  get_mask_tag : keyspace -> string -> result Z;    (* ks.get_mask(tag=t) *)
  get_mask_field : keyspace -> string -> result Z;  (* ks.get_mask(field=f) *)
}.

(* ===================================================================== *)
(** * regions/filters.py                                                  *)
(* ===================================================================== *)

Module Filters.
Section Filters.
Context `{Numeric} `{BitField}.

(** The synapse a connection carries: [None], [nengo.synapses.Lowpass] or
    [nengo.synapses.LinearFilter]; these are the keys of
    [FilterRegion.supported_filter_types]. *)
Inductive synapse : Type :=
| SynNone
| SynLowpass (tau : float)
| SynLinearFilter (num den : list float).

Record Signal : Type := {
  signal_keyspace : keyspace;
  signal_latching : bool;
}.

Record ReceptionParams : Type := {
  rp_filter : synapse;
  rp_width : Z;
}.

(** The classes [NoneFilter], [LowpassFilter] and [LinearFilter], with the
    attributes their constructors store. *)
Inductive Filter : Type :=
| NoneFilter (width : Z) (latching : bool)
| LowpassFilter (width : Z) (latching : bool) (time_constant : float)
| LinearFilter (width : Z) (latching : bool) (num den : list float).

Definition width (f : Filter) : Z :=
  match f with
  | NoneFilter w _ | LowpassFilter w _ _ | LinearFilter w _ _ _ => w
  end.

Definition latching (f : Filter) : bool :=
  match f with
  | NoneFilter _ l | LowpassFilter _ l _ | LinearFilter _ l _ _ => l
  end.

(** [self.order = len(den) - 1]. *)
Definition order (den : list float) : Z := len den - 1.

(** [type(self) is type(other)]. *)
Definition same_type (f g : Filter) : bool :=
  match f, g with
  | NoneFilter _ _, NoneFilter _ _
  | LowpassFilter _ _ _, LowpassFilter _ _ _
  | LinearFilter _ _ _ _, LinearFilter _ _ _ _ => true
  | _, _ => false
  end.

(** [Filter.__eq__]. *)
Definition base_eq (f g : Filter) : bool :=
  same_type f g && (width f =? width g) && eqb (latching f) (latching g).

(** [np.all(xs == ys)] for two arrays of one size. *)
Definition np_all_eq (xs ys : list float) : bool :=
  forallb (fun xy => float_eqb xy.1 xy.2) (zip xs ys).

(** [f == g]: the [__eq__] of the class of [f]. *)
Definition Filter_eq (f g : Filter) : bool :=
  match f with
  | NoneFilter _ _ => base_eq f g
  | LowpassFilter _ _ tau =>
      base_eq f g &&
      match g with
      | LowpassFilter _ _ tau' => float_eqb tau tau'
      | _ => false
      end
  | LinearFilter _ _ num den =>
      base_eq f g &&
      match g with
      | LinearFilter _ _ num' den' =>
          (len num =? len num') && (len den =? len den') &&
          np_all_eq num num' && np_all_eq den den'
      | _ => false
      end
  end.

(** [cls.from_parameters(signal, reception_params, width=width)] of the class
    registered for the type of [reception_params.filter]. *)
Definition from_parameters (signal : Signal) (rp : ReceptionParams)
    (width : option Z) : Filter :=
  let w := match width with None => rp_width rp | Some w => w end in
  match rp_filter rp with
  | SynNone => NoneFilter w (signal_latching signal)
  | SynLowpass tau => LowpassFilter w (signal_latching signal) tau
  | SynLinearFilter num den => LinearFilter w (signal_latching signal) num den
  end.

Definition method_index (f : Filter) : Z :=
  match f with
  | NoneFilter _ _ => 0
  | LowpassFilter _ _ _ => 1
  | LinearFilter _ _ _ _ => 2
  end.

Definition size_words (f : Filter) : Z :=
  match f with
  | NoneFilter _ _ => 0
  | LowpassFilter _ _ _ => 2
  | LinearFilter _ _ _ den => 1 + order den * 2
  end.

(** Modelled from the spec: [type_casts.np_to_fix] is not part of the
    sources; arrays convert elementwise with the convention of
    [value_to_fix]. *)
Definition np_to_fix (xs : list float) : list Z := map value_to_fix xs.

(** [array.tostring()] of an array of 32-bit integers: four bytes per
    element, least significant first, in two's complement. *)
Definition tostring (vs : list Z) : bytearray := words vs.

(** [np.vstack((xs, ys)).T.flatten()]: the two rows interleaved; rows of
    different lengths do not stack. *)
Definition vstack_T_flatten (xs ys : list float) : result (list float) :=
  if len xs =? len ys
  then ok (concat (zip_with (fun x y => [x; y]) xs ys))
  else raise ValueError.

(** The coefficients the two encoders compute before packing. *)
Definition lowpass_a (dt tau : float) : float :=
  float_exp (float_div (float_neg dt) tau).

Definition lowpass_b (dt tau : float) : float :=
  float_sub float_one (lowpass_a dt tau).

(** [self.pack_data(dt, buffer, offset)]. *)
Definition pack_data (f : Filter) (dt : float) (buffer : bytearray)
    (offset : Z) : result bytearray :=
  match f with
  | NoneFilter _ _ => ok buffer
  | LowpassFilter _ _ tau =>
      if float_eqb tau float_zero then raise ZeroDivisionError else
      pack_into buffer offset
        [value_to_fix (lowpass_a dt tau); value_to_fix (lowpass_b dt tau)]
  | LinearFilter _ _ num den =>
      let '(b, a) := cont2discrete num den dt in
      b0 ← match b with [] => raise IndexError | b0 :: _ => ok b0 end;
      if negb (float_eqb b0 float_zero) then raise AssertionError else
      ab ← vstack_T_flatten (map float_neg (drop 1 a)) (drop 1 b);
      buffer ← pack_into buffer offset [order den];
      ok (setslice buffer (offset + 4) (4 + order den * 8)
            (tostring (np_to_fix ab)))
  end.

(** [Filter.pack_into(self, dt, buffer, offset)]: the header, then the
    data. *)
Definition Filter_pack_into (f : Filter) (dt : float) (buffer : bytearray)
    (offset : Z) : result bytearray :=
  buffer ← pack_into buffer offset
             [size_words f; method_index f; width f;
              if latching f then 1 else 0];
  pack_data f dt buffer (offset + 16).

Record FilterRegion : Type := {
  filters : list Filter;
  dt : float;
}.

Definition FilterRegion_sizeof (r : FilterRegion) : Z :=
  (1 + 4 * len (filters r) + foldr Z.add 0 (map size_words (filters r))) * 4.

(** [FilterRegion.write_subregion_to_file]; the result is the block handed
    to [fp.write]. *)
Definition FilterRegion_write_subregion_to_file (r : FilterRegion)
  : result bytearray :=
  data ← bytearray_new (FilterRegion_sizeof r);
  data ← pack_into data 0 [len (filters r)];
  st ← for_each
         (fun (st : bytearray * Z) f =>
            data ← Filter_pack_into f (dt r) st.1 (st.2 * 4);
            ok (data, st.2 + (size_words f + 4)))
         (filters r) (data, 1);
  ok st.1.

Record FilterRoutingRegion : Type := {
  keyspace_routes : list (keyspace * Z);
  filter_routing_tag : string;
  index_field : string;
}.

Definition FilterRoutingRegion_sizeof (r : FilterRoutingRegion) : Z :=
  4 * (1 + 4 * len (keyspace_routes r)).

(** [FilterRoutingRegion.write_subregion_to_file]. *)
Definition FilterRoutingRegion_write_subregion_to_file
    (r : FilterRoutingRegion) : result bytearray :=
  data ← bytearray_new (FilterRoutingRegion_sizeof r);
  data ← pack_into data 0 [len (keyspace_routes r)];
  for_each
    (fun data (entry : Z * (keyspace * Z)) =>
       let '(i, (ks, index)) := entry in
       v ← get_value ks (filter_routing_tag r);
       m ← get_mask_tag ks (filter_routing_tag r);
       mi ← get_mask_field ks (index_field r);
       pack_into data (4 + 16 * i) [v; m; mi; index])
    (enumerate 0 (keyspace_routes r)) data.

(** The search of [make_filter_regions]:
    [for index, g in enumerate(filters): if f == g and minimise: break]. *)
Fixpoint find_equal (f : Filter) (minimise : bool) (index : Z)
    (filters : list Filter) : option Z :=
  match filters with
  | [] => None
  | g :: rest =>
      if Filter_eq f g && minimise then Some index
      else find_equal f minimise (index + 1) rest
  end.

(** One iteration of the loop of [make_filter_regions] over [specs]. *)
Definition add_spec (minimise : bool) (width : option Z)
    (st : list Filter * list (keyspace * Z))
    (spec : Signal * ReceptionParams)
  : list Filter * list (keyspace * Z) :=
  let '(filters, keyspace_routes) := st in
  let '(signal, reception_params) := spec in
  let f := from_parameters signal reception_params width in
  match find_equal f minimise 0 filters with
  | Some index =>
      (filters, keyspace_routes ++ [(signal_keyspace signal, index)])
  | None =>
      (filters ++ [f],
       keyspace_routes ++ [(signal_keyspace signal, len filters)])
  end.

Definition make_filter_regions (specs : list (Signal * ReceptionParams))
    (dt : float) (minimise : bool) (filter_routing_tag index_field : string)
    (width : option Z) : FilterRegion * FilterRoutingRegion :=
  let '(filters, keyspace_routes) :=
    fold_left (add_spec minimise width) specs ([], []) in
  ({| filters := filters; dt := dt |},
   {| keyspace_routes := keyspace_routes;
      filter_routing_tag := filter_routing_tag;
      index_field := index_field |}).

End Filters.
End Filters.

(* ===================================================================== *)
(** * partition_and_cluster.py: the partitioner                           *)
(* ===================================================================== *)

Module Partition.

(** Modelled from the spec: [Constraint(maximum, target=1.0)], with
    [max_usage = maximum * target] as [test_constraint] checks it. *)
Record Constraint : Type := {
  maximum : Q;
  target : Q;
}.

Definition max_usage (c : Constraint) : Q := (maximum c * target c)%Q.

(** The range [[start, stop)]: a Python [slice] whose start is given. *)
Record slice : Type := {
  start : Z;
  stop : Z;
}.

(** The mapping from constraint to usage estimator, in iteration order. *)
Definition constraints : Type := list (Constraint * (slice -> Q)).

Inductive UnpartitionableError : Type :=
| Unpartitionable (c : Constraint) (cursor : Z).

(** Modelled from the spec: the chunk of length [L] at [cursor] is within
    the budget of the constraint: [f(range(cursor, cursor + L)) <= constraint.max_usage]. *)
Definition within (cf : Constraint * (slice -> Q)) (cursor L : Z) : bool :=
  Qle_bool (cf.2 {| start := cursor; stop := cursor + L |}) (max_usage cf.1).

(** Modelled from the spec: [partition_and_cluster.py] is not part of the
    sources.  Binary search for the largest [L] in [[lo, hi]] that passes
    [test]; [lo] itself is not tested. *)
Fixpoint bsearch (fuel : nat) (test : Z -> bool) (lo hi : Z) : Z :=
  match fuel with
  | O => lo
  | S fuel' =>
      if hi <=? lo then lo else
      let mid := (lo + hi + 1) / 2 in
      if test mid then bsearch fuel' test mid hi
      else bsearch fuel' test lo (mid - 1)
  end.

(** Modelled from the spec: the largest chunk length in
    [[0, stop - cursor]] one constraint allows at [cursor]. *)
Definition largest_length (cursor stop : Z) (cf : Constraint * (slice -> Q))
  : Z :=
  bsearch (Z.to_nat (stop - cursor)) (within cf cursor) 0 (stop - cursor).

(** Modelled from the spec: [L*], the minimum over all constraints of the
    per-constraint maximal length. *)
Definition chunk_length (cs : constraints) (cursor stop : Z) : Z :=
  foldr Z.min (stop - cursor) (map (largest_length cursor stop) cs).

(** Modelled from the spec: the partitioner of section 4.2.  The result is
    what the lazily produced sequence gives when it is consumed: the chunks
    emitted, and the error that ends it, if any.  [L* = 0] exactly when some
    constraint allows no positive length; the error carries the first such
    constraint and the cursor.  [None] stands for running out of [fuel]. *)
Fixpoint partition_from (fuel : nat) (cs : constraints) (cursor stop : Z)
  : option (list slice * option UnpartitionableError) :=
  if stop <=? cursor then Some ([], None) else
  match fuel with
  | O => None
  | S fuel' =>
      match List.find (fun cf => largest_length cursor stop cf <=? 0) cs with
      | Some cf => Some ([], Some (Unpartitionable cf.1 cursor))
      | None =>
          let L := chunk_length cs cursor stop in
          match partition_from fuel' cs (cursor + L) stop with
          | Some (chunks, err) =>
              Some ({| start := cursor; stop := cursor + L |} :: chunks, err)
          | None => None
          end
      end
  end.

(** Modelled from the spec: [partition(initial_slice, constraints)], with
    one unit of fuel per index of the range. *)
Definition partition (initial_slice : slice) (cs : constraints)
  : option (list slice * option UnpartitionableError) :=
  partition_from (Z.to_nat (stop initial_slice - start initial_slice)) cs
    (start initial_slice) (stop initial_slice).

(** The cursor positions the partitioner searches from: the start of the
    range and the end of every chunk emitted, as long as they lie before the
    end of the range. *)
Definition cursors (initial_slice : slice) (chunks : list slice) : list Z :=
  filter (fun k => k < stop initial_slice)
    (start initial_slice :: map stop chunks).

(** The caller contract on usage estimators: non-decreasing in the length of
    the range. *)
Definition monotone (cs : constraints) : Prop :=
  forall cf cursor L1 L2, cf ∈ cs -> 0 <= L1 <= L2 ->
    (cf.2 {| start := cursor; stop := cursor + L1 |}
       <= cf.2 {| start := cursor; stop := cursor + L2 |})%Q.

(** A sequence of chunks that runs from [lo] to [hi] without gap or
    overlap, each chunk of positive length. *)
Fixpoint chain (lo hi : Z) (chunks : list slice) : Prop :=
  match chunks with
  | [] => lo = hi
  | c :: rest => start c = lo /\ lo < stop c /\ chain (stop c) hi rest
  end.

End Partition.

(* ===================================================================== *)
(** * partition_and_cluster.py: cluster assignment                        *)
(* ===================================================================== *)

Module Cluster.

(** Vertices and vertex-slices are objects; they are named by their
    identity. *)
Definition vertex : Type := nat.

(** Modelled from the spec: the routing-key library is not part of the
    sources.  A routing key: the fields its format declares, with their
    values; a fresh key holds the default [0] in every declared field. *)
Record RoutingKey : Type := {
  fields : gmap string nat;
}.

(** Modelled from the spec: [key.<name>]; reading a field the format does
    not declare raises the unavailable-field error. *)
Definition get_field (k : RoutingKey) (name : string) : result nat :=
  match fields k !! name with
  | Some v => ok v
  | None => raise UnavailableFieldError
  end.

(** Modelled from the spec: whether the format of the key declares the
    field. *)
Definition declares (k : RoutingKey) (name : string) : bool :=
  bool_decide (is_Some (fields k !! name)).

(** Modelled from the spec: [key.<name> = v], for a declared field. *)
Definition set_field (k : RoutingKey) (name : string) (v : nat) : RoutingKey :=
  {| fields := <[name := v]> (fields k) |}.

(** Modelled from the spec: a net, with the routing key it owns. *)
Record Net : Type := {
  source : vertex;
  sinks : list vertex;
  weight : Z;
  net_keyspace : RoutingKey;
}.

Section Cluster.
Context {location : Type} `{Countable location}.

(** Modelled from the spec: the [cluster] attribute of every vertex-slice;
    one that was never written reads its default, [0]. *)
Definition cluster (clusters : gmap vertex nat) (v : vertex) : nat :=
  default 0%nat (clusters !! v).

(** Modelled from the spec: [partition_and_cluster.py] is not part of the
    sources.  One member of a group: look its location up in the placement
    map, give the location the next sequential id when it is seen for the
    first time, and assign the id of the location to the slice. *)
Definition assign_slice (placements : gmap vertex location)
    (st : gmap location nat * gmap vertex nat) (v : vertex)
  : result (gmap location nat * gmap vertex nat) :=
  match placements !! v with
  | None => raise KeyError
  | Some loc =>
      match st.1 !! loc with
      | Some c => ok (st.1, <[v := c]> st.2)
      | None =>
          let c := size st.1 in
          ok (<[loc := c]> st.1, <[v := c]> st.2)
      end
  end.

(** Modelled from the spec: one group, labelled independently of the
    others; its members are enumerated in a stable order. *)
Definition assign_group (placements : gmap vertex location)
    (clusters : gmap vertex nat) (group : list vertex)
  : result (gmap vertex nat) :=
  st ← for_each (assign_slice placements) group (∅, clusters);
  ok st.2.

(** Modelled from the spec: the slice belongs to some group. *)
Definition in_some_group (groups : list (list vertex)) (v : vertex) : bool :=
  existsb (fun g => bool_decide (v ∈ g)) groups.

(** Modelled from the spec: the write of the source's cluster id into the
    key of a net, only for a source that belongs to a group and a key whose
    format declares [cluster]. *)
Definition write_back (groups : list (list vertex))
    (clusters : gmap vertex nat) (net : Net) : Net :=
  if in_some_group groups (source net)
     && declares (net_keyspace net) "cluster"
  then {| source := source net; sinks := sinks net; weight := weight net;
          net_keyspace :=
            set_field (net_keyspace net) "cluster"
              (cluster clusters (source net)) |}
  else net.

(** Modelled from the spec: [identify_clusters(placements, nets, groups)],
    on the [cluster] attributes [clusters] the slices come in with; it
    returns the attributes and the nets as it leaves them. *)
Definition identify_clusters (placements : gmap vertex location)
    (nets : list Net) (groups : list (list vertex))
    (clusters : gmap vertex nat) : result (gmap vertex nat * list Net) :=
  clusters' ← for_each (assign_group placements) groups clusters;
  ok (clusters', map (write_back groups clusters') nets).

(** The locations the members of a group are placed at. *)
Definition locations (placements : gmap vertex location)
    (group : list vertex) : gset location :=
  list_to_set (omap (fun v => placements !! v) group).

(** Every member of every group has a place. *)
Definition all_placed (placements : gmap vertex location)
    (groups : list (list vertex)) : Prop :=
  forall g v, g ∈ groups -> v ∈ g -> is_Some (placements !! v).

(** No slice belongs to two groups. *)
Definition disjoint_groups (groups : list (list vertex)) : Prop :=
  forall (i j : nat) (g1 g2 : list vertex) (v : vertex),
    groups !! i = Some g1 -> groups !! j = Some g2 -> i <> j ->
    v ∈ g1 -> v ∉ g2.

(** The state of the labelling of one group after the members [seen]: the
    ids given so far are those of the locations of [seen], they are the
    numbers below their count, distinct locations have distinct ids, a
    location first met at position [i] has as its id the number of
    locations met before, every member seen carries the id of its
    location, and no other slice was written. *)
Definition group_inv (placements : gmap vertex location)
    (clusters0 : gmap vertex nat) (seen : list vertex)
    (st : gmap location nat * gmap vertex nat) : Prop :=
  dom st.1 = locations placements seen /\
  (forall loc c, st.1 !! loc = Some c -> (c < size st.1)%nat) /\
  (forall c, (c < size st.1)%nat -> exists loc, st.1 !! loc = Some c) /\
  (forall l1 l2 c, st.1 !! l1 = Some c -> st.1 !! l2 = Some c -> l1 = l2) /\
  (forall (i : nat) v loc,
     seen !! i = Some v -> placements !! v = Some loc ->
     loc ∉ locations placements (take i seen) ->
     st.1 !! loc = Some (size (locations placements (take i seen)))) /\
  (forall v, v ∈ seen ->
     exists loc c, placements !! v = Some loc /\ st.1 !! loc = Some c /\
                   st.2 !! v = Some c) /\
  (forall v, v ∉ seen -> st.2 !! v = clusters0 !! v).

(** What cluster assignment promises for one group: two members share an
    id exactly when they share a location; a member at a location met for
    the first time has as its id the number of locations met before it; and
    the ids in use are the numbers below the number of locations. *)
Definition labelled (placements : gmap vertex location)
    (clusters : gmap vertex nat) (g : list vertex) : Prop :=
  (forall v1 v2, v1 ∈ g -> v2 ∈ g ->
     cluster clusters v1 = cluster clusters v2 <->
     placements !! v1 = placements !! v2) /\
  (forall (i : nat) v loc,
     g !! i = Some v -> placements !! v = Some loc ->
     loc ∉ locations placements (take i g) ->
     cluster clusters v = size (locations placements (take i g))) /\
  (forall c, (exists v, v ∈ g /\ cluster clusters v = c) <->
             (c < size (locations placements g))%nat).

End Cluster.
End Cluster.

(* ===================================================================== *)
(** * The binary layouts, as the specification words them                 *)
(* ===================================================================== *)

Module Layout.
Section Layout.
Context `{Numeric} `{BitField}.
Import Filters.

(** The [n] pairs (negated denominator, numerator) of the discrete
    coefficients [a] and [b], without the leading ones, interleaved. *)
Definition coefficient_pairs (a b : list float) (n : nat) : list float :=
  concat (map (fun k => [float_neg (nth k a float_zero); nth k b float_zero])
              (seq 1 n)).

(** The fixed header: words-following, method index, width, flags (bit 0 is
    the latching flag). *)
Definition header (f : Filter) : bytearray :=
  words [size_words f; method_index f; width f; if latching f then 1 else 0].

(** The variant-specific payload: nothing; the two fixed-point low-pass
    coefficients; the order and the fixed-point coefficient pairs. *)
Definition payload (dt : float) (f : Filter) : bytearray :=
  match f with
  | NoneFilter _ _ => []
  | LowpassFilter _ _ tau =>
      words [value_to_fix (lowpass_a dt tau); value_to_fix (lowpass_b dt tau)]
  | LinearFilter _ _ num den =>
      let '(b, a) := cont2discrete num den dt in
      le32 (order den)
        ++ words (map value_to_fix
                    (coefficient_pairs a b (Z.to_nat (order den))))
  end.

(** The filter region: the count, then header and payload of every filter
    in table order. *)
Definition filter_region_layout (fs : list Filter) (dt : float) : bytearray :=
  le32 (len fs) ++ concat (map (fun f => header f ++ payload dt f) fs).

(** What encoding a filter takes for granted: a width and a size that fit a
    word; for a low-pass filter a time constant other than zero and
    coefficients that fit a word; for a linear filter, discrete numerator
    and denominator of as many coefficients as the continuous denominator,
    and a leading numerator coefficient equal to zero. *)
Definition encodable (dt : float) (f : Filter) : bool :=
  is_uint32 (width f) && is_uint32 (size_words f) &&
  match f with
  | NoneFilter _ _ => true
  | LowpassFilter _ _ tau =>
      negb (float_eqb tau float_zero)
      && is_uint32 (value_to_fix (lowpass_a dt tau))
      && is_uint32 (value_to_fix (lowpass_b dt tau))
  | LinearFilter _ _ num den =>
      let '(b, a) := cont2discrete num den dt in
      (len a =? len den) && (len b =? len den)
      && match b with
         | b0 :: _ => float_eqb b0 float_zero
         | [] => false
         end
  end.

(** The bytes of the zeroed remainder of the buffer that packing one filter
    uses up, when [p] bytes precede the filter and [r] bytes remain: the
    header and data of a None or Lowpass filter; for a LinearFilter the
    header, the order word, and of the bytes that follow only those before
    byte [4 + order * 8] of the buffer, which is where the slice that
    receives the coefficients ends. *)
Definition consumed (f : Filter) (p r : Z) : Z :=
  16 + match f with
       | NoneFilter _ _ => 0
       | LowpassFilter _ _ _ => 8
       | LinearFilter _ _ _ den =>
           4 + Z.max 0 (Z.min (4 + order den * 8) (p + r) - (p + 20))
       end.

(** The zero bytes left after the last filter, from [r] bytes after a
    prefix of [p] bytes. *)
Fixpoint remaining (fs : list Filter) (p r : Z) : Z :=
  match fs with
  | [] => r
  | f :: fs' =>
      remaining fs' (p + 16 + 4 * size_words f) (r - consumed f p r)
  end.

(** The zero bytes that follow the layout in the block written for the
    filters [fs]. *)
Definition padding (fs : list Filter) : Z :=
  remaining fs 4
    (FilterRegion_sizeof {| filters := fs; dt := float_zero |} - 4).

(** The four words of a routing entry: the key value and the key mask for
    the filter-routing tag, the key mask for the index field, the index. *)
Definition route_words (tag field : string) (route : keyspace * Z)
  : result (list Z) :=
  v ← get_value route.1 tag;
  m ← get_mask_tag route.1 tag;
  mi ← get_mask_field route.1 field;
  ok [v; m; mi; route.2].

(** A route whose key answers the three queries with values that fit a
    word, and whose index fits one. *)
Definition routable (tag field : string) (route : keyspace * Z) : bool :=
  match route_words tag field route with
  | inr ws => forallb is_uint32 ws
  | inl _ => false
  end.

(** The block of a route: its four words, when its key answers. *)
Definition route_block (tag field : string) (route : keyspace * Z) : bytearray :=
  match route_words tag field route with
  | inr ws => words ws
  | inl _ => []
  end.

(** Exact equality of two filters: the same variant, width and latching
    flag, and parameters that compare equal one by one, with no
    tolerance. *)
Definition exactly_equal (f g : Filter) : Prop :=
  width f = width g /\ latching f = latching g /\
  match f, g with
  | NoneFilter _ _, NoneFilter _ _ => True
  | LowpassFilter _ _ tau, LowpassFilter _ _ tau' =>
      float_eqb tau tau' = true
  | LinearFilter _ _ num den, LinearFilter _ _ num' den' =>
      Forall2 (fun x y => float_eqb x y = true) num num' /\
      Forall2 (fun x y => float_eqb x y = true) den den'
  | _, _ => False
  end.

(** What the specification says of the route recorded for one input pair,
    with respect to the filter table [table]: it carries the routing key
    of the signal and an index into the table; the entry at the index is
    the filter built for the pair, or, with deduplication enabled, one that
    compares equal to it; and no entry before the index compares equal to
    it with deduplication enabled. *)
Definition route_chosen (minimise : bool) (width : option Z)
    (table : list Filter) (spec : Signal * ReceptionParams)
    (route : keyspace * Z) : Prop :=
  let f := from_parameters spec.1 spec.2 width in
  route.1 = signal_keyspace spec.1 /\ 0 <= route.2 /\
  (exists g, table !! Z.to_nat route.2 = Some g /\
             (g = f \/ (minimise = true /\ Filter_eq f g = true))) /\
  (forall (j : nat) (g' : Filter),
     (j < Z.to_nat route.2)%nat -> table !! j = Some g' ->
     Filter_eq f g' && minimise = false).

End Layout.
End Layout.

(* ===================================================================== *)
(** * Concrete instances of the interfaces                                *)
(* ===================================================================== *)

Module Examples.

(** Rational arithmetic in place of floating point: a second-order
    truncation of the exponential; a discretisation that scales the
    numerator, padded with leading zeros to the length of the denominator,
    by the time step, so that only a transfer function that is not strictly
    proper has a leading numerator coefficient other than zero; and fixed
    point with 15 fractional bits. *)
Definition rational_c2d (num den : list Q) (dt : Q) : list Q * list Q :=
  (map (fun x => (x * dt)%Q)
       (replicate (length den - length num) 0%Q ++ num),
   den).

#[export] Instance rational : Numeric := {|
  float := Q;
  float_eqb := Qeq_bool;
  float_zero := 0%Q;
  float_one := 1%Q;
  float_neg := Qopp;
  float_sub := Qminus;
  float_div := Qdiv;
  float_exp := fun x => (1 + x + x * x / 2)%Q;
  cont2discrete := rational_c2d;
  value_to_fix := fun x => Qfloor (x * 32768);
|}.

(** Routing keys given by the answers to the three queries; a key with a
    negative value stands for one whose tag fields are not all set. *)
Record simple_key : Type := {
  key_value : Z;
  tag_mask : Z;
  field_mask : Z;
}.

#[export] Instance simple_keys : BitField := {|
  keyspace := simple_key;
  get_value := fun ks _ =>
    if key_value ks <? 0 then raise ValueError else ok (key_value ks);
  get_mask_tag := fun ks _ => ok (tag_mask ks);
  get_mask_field := fun ks _ => ok (field_mask ks);
|}.

(** A first-order linear filter, strictly proper, and one with direct
    feed-through. *)
Definition first_order : Filters.Filter :=
  Filters.LinearFilter 1 false [1%Q] [1%Q; 1%Q].

Definition feed_through : Filters.Filter :=
  Filters.LinearFilter 1 false [1%Q; 1%Q] [1%Q; 1%Q].

Definition millisecond : Q := 1 # 1000.

Definition key (v : Z) : simple_key :=
  {| key_value := v; tag_mask := 255; field_mask := 3 |}.

Definition two_routes : Filters.FilterRoutingRegion :=
  {| Filters.keyspace_routes := [(key 5, 0); (key 6, 1)];
     Filters.filter_routing_tag := "filter_routing";
     Filters.index_field := "index" |}.

(** Four receptions: two without filter and two low-pass ones with the same
    time constant. *)
Definition four_specs : list (Filters.Signal * Filters.ReceptionParams) :=
  [ ({| Filters.signal_keyspace := key 1; Filters.signal_latching := false |},
     {| Filters.rp_filter := Filters.SynNone; Filters.rp_width := 4 |});
    ({| Filters.signal_keyspace := key 2; Filters.signal_latching := false |},
     {| Filters.rp_filter := Filters.SynLowpass (1 # 100); Filters.rp_width := 4 |});
    ({| Filters.signal_keyspace := key 3; Filters.signal_latching := false |},
     {| Filters.rp_filter := Filters.SynNone; Filters.rp_width := 4 |});
    ({| Filters.signal_keyspace := key 4; Filters.signal_latching := false |},
     {| Filters.rp_filter := Filters.SynLowpass (1 # 100); Filters.rp_width := 4 |}) ].

(** The constraints of [test_single_partition_step]. *)
Definition length_plus (k : Z) (s : Partition.slice) : Q :=
  inject_Z (Partition.stop s - Partition.start s + k).

Definition two_constraints : Partition.constraints :=
  [ ({| Partition.maximum := 100; Partition.target := 7 # 10 |}, length_plus 10);
    ({| Partition.maximum := 50; Partition.target := 1 |}, length_plus 0) ].

Definition hundred : Partition.slice :=
  {| Partition.start := 0; Partition.stop := 100 |}.

(** The constraints of [test_no_partitioning], [test_just_partitionable]
    and [test_unpartitionable]. *)
Definition one_constraint (maximum target : Q) (k : Z) : Partition.constraints :=
  [ ({| Partition.maximum := maximum; Partition.target := target |},
     length_plus k) ].

(** The data of [test_identify_clusters]: the five slices of [v1] are 0 to
    4, the six slices of [v2] are 10 to 15, and [v3] is 20. *)
Definition v1s : list Cluster.vertex := [0; 1; 2; 3; 4]%nat.
Definition v2s : list Cluster.vertex := [10; 11; 12; 13; 14; 15]%nat.
Definition v3 : Cluster.vertex := 20%nat.

Definition two_groups : list (list Cluster.vertex) := [v1s; v2s].

Definition chips : gmap Cluster.vertex (Z * Z) :=
  list_to_map
    [ (0%nat, (0, 0)); (1%nat, (0, 0)); (10%nat, (0, 0));
      (2%nat, (0, 1)); (3%nat, (0, 1));
      (11%nat, (1, 0)); (12%nat, (1, 0)); (13%nat, (1, 0));
      (14%nat, (1, 0)); (15%nat, (1, 0));
      (4%nat, (1, 1)); (20%nat, (1, 1)) ].

(** A fresh key of the default format, which declares [cluster], and one of
    the other format, which does not. *)
Definition with_cluster : Cluster.RoutingKey :=
  {| Cluster.fields := {[ "cluster" := 0%nat ]} |}.

Definition without_cluster : Cluster.RoutingKey :=
  {| Cluster.fields := ∅ |}.

Definition net (a : Cluster.vertex) (to : list Cluster.vertex)
    (k : Cluster.RoutingKey) : Cluster.Net :=
  {| Cluster.source := a; Cluster.sinks := to; Cluster.weight := 0;
     Cluster.net_keyspace := k |}.

Definition v12_nets : list Cluster.Net :=
  map (fun a => net a v2s with_cluster) v1s.

Definition v21_nets : list Cluster.Net :=
  map (fun a => net a v1s without_cluster) v2s.

Definition v31_net : Cluster.Net := net v3 v1s with_cluster.

Definition test_nets : list Cluster.Net :=
  v12_nets ++ v21_nets ++ [v31_net].

End Examples.

(* ===================================================================== *)
(** * Quantities of the filter region loop                                *)
(* ===================================================================== *)

Module Extent.
Section Extent.
Context `{Numeric}.
Import Filters.

(** The value of [offset] in [FilterRegion.write_subregion_to_file] when
    the loop reaches the filter of index [i]: it starts at 1 and every
    filter before adds [f.size_words() + 4]. *)
Definition loop_offset (fs : list Filter) (i : nat) : Z :=
  fold_left (fun offset f => offset + (size_words f + 4)) (take i fs) 1.

(** The bytes [sizeof] counts for the filters, without the count word. *)
Definition filters_bytes (fs : list Filter) : Z :=
  4 * (4 * len fs + foldr Z.add 0 (map size_words fs)).

(** A filter whose [pack_data] writes nothing through a slice assignment:
    every filter but a LinearFilter of order 1 or more. *)
Definition packs_in_place (f : Filter) : bool :=
  match f with
  | LinearFilter _ _ _ den => order den <=? 0
  | _ => true
  end.

End Extent.
End Extent.

(* ===================================================================== *)
(** * utils/profiling.py                                                  *)
(* ===================================================================== *)

(** The numpy routines [utils/profiling.py] calls, beside the arithmetic of
    [Numeric].  [np.digitize] returns one bin index per sample, and
    [np.bincount] the number of occurrences of every index up to the
    largest, or raises. *)
Class Numpy `{Numeric} : Type := {
  float_add : float -> float -> float;                  (* x + y *)
  float_mul : float -> float -> float;                  (* x * y *)
  float_of_int : Z -> float;                            (* float(n) *)
  np_average : list float -> float;                     (* np.average(xs) *)
  np_arange : float -> list float;                      (* np.arange(x) *)
  np_digitize : list float -> list float -> list nat;   (* np.digitize(xs, bins) *)
  np_bincount : list nat -> result (list Z);            (* np.bincount(ns) *)
}.

Module Profiling.
Section Profiling.
Context `{Numpy}.

(** What is printed or written to a CSV cell: a string, an integer or a
    float. *)
Inductive pyvalue : Type :=
| PyStr (s : string)
| PyInt (n : Z)
| PyFloat (x : float).

(** One call of [print]: the format string and the value it is applied
    to. *)
Definition line : Type := (string * pyvalue)%type.

(** The profiling data: for every tag, in the iteration order of the
    dictionary, the entry times [times[0]] and the durations [times[1]] of
    its samples. *)
Definition profiling_data : Type := list (string * (list float * list float)).

(** [np.amax(ns)]: the largest element; an empty array is a
    [ValueError]. *)
Definition np_amax (ns : list nat) : result nat :=
  match ns with
  | [] => raise ValueError
  | _ => ok (max_list ns)
  end.

(** [total[index] += sample_duration] on an array: an index past the end
    is an [IndexError]. *)
Definition add_at (total : list float) (sample : float * nat)
  : result (list float) :=
  match total !! sample.2 with
  | Some t => ok (<[sample.2 := float_add t sample.1]> total)
  | None => raise IndexError
  end.

(** The tab of ["\t"]. *)
Definition tab : string := String (Ascii.ascii_of_nat 9) EmptyString.

(** The body of the loop of [print_summary] for one tag: the lines printed,
    and the exception that ended it, if any. *)
Definition tag_summary (ms_time_bins : list float) (tag_name : string)
    (times : list float * list float) : list line * option exn :=
  let l1 := ("Tag:%s"%string, PyStr tag_name) in
  let l2 := ((tab +:+ "Mean time:%fms")%string, PyFloat (np_average times.2)) in
  let sample_timestep_indices := np_digitize times.1 ms_time_bins in
  if negb (length sample_timestep_indices =? length times.2)%nat
  then ([l1; l2], Some AssertionError) else
  match np_bincount sample_timestep_indices with
  | inl e => ([l1; l2], Some e)
  | inr counts =>
      let l3 := ((tab +:+ "Mean samples per timestep:%f")%string,
                 PyFloat (np_average (map float_of_int counts))) in
      match np_amax sample_timestep_indices with
      | inl e => ([l1; l2; l3], Some e)
      | inr largest =>
          let last_sample_time := S largest in
          let l4 := ((tab +:+ "Last sample time:%fms")%string,
                     PyInt (Z.of_nat last_sample_time)) in
          match for_each add_at (zip times.2 sample_timestep_indices)
                  (replicate last_sample_time float_zero) with
          | inl e => ([l1; l2; l3; l4], Some e)
          | inr total =>
              ([l1; l2; l3; l4;
                ((tab +:+ "Mean time per timestep:%fms")%string,
                 PyFloat (np_average total))],
               None)
          end
      end
  end.

(** The loop over the tags: it stops at the first exception. *)
Fixpoint summaries (ms_time_bins : list float) (data : profiling_data)
  : list line * option exn :=
  match data with
  | [] => ([], None)
  | (tag_name, times) :: rest =>
      match tag_summary ms_time_bins tag_name times with
      | (printed, Some e) => (printed, Some e)
      | (printed, None) =>
          let '(more, err) := summaries ms_time_bins rest in
          (printed ++ more, err)
      end
  end.

(** [print_summary(profiling_data, duration)]: what it prints, and the
    exception it raises, if any. *)
Definition print_summary (data : profiling_data) (duration : float)
  : list line * option exn :=
  let ms_time_bins := np_arange (float_mul duration (float_of_int 1000)) in
  summaries ms_time_bins data.

(** A CSV writer, by the rows written to it. *)
Definition csv_writer : Type := list (list pyvalue).

Definition writerow (w : csv_writer) (row : list pyvalue) : csv_writer :=
  w ++ [row].

(** [write_csv_header(profiling_data, csv_writer, extra_column_headers)]. *)
Definition write_csv_header (data : profiling_data) (w : csv_writer)
    (extra_column_headers : list pyvalue) : csv_writer :=
  writerow w (extra_column_headers ++ map (fun kv => PyStr kv.1) data).

(** [write_csv_row(profiling_data, csv_writer, extra_column_values)]. *)
Definition write_csv_row (data : profiling_data) (w : csv_writer)
    (extra_column_values : list pyvalue) : csv_writer :=
  let mean_times := map (fun kv => PyFloat (np_average kv.2.2)) data in
  writerow w (extra_column_values ++ mean_times).

(** The durations of the samples of one time step, in the order of the
    samples. *)
Definition durations_at (i : nat) (samples : list (float * nat)) : list float :=
  map fst (filter (fun s => s.2 = i) samples).

End Profiling.
End Profiling.

(** The numpy routines over the rationals of [Examples.rational]: the mean
    of an empty array is taken to be 0, [np.arange(x)] counts from 0 up to
    [x], [np.digitize] counts the bin edges that do not exceed the sample,
    and [np.bincount] of an empty array is the empty array. *)
Module Samples.
Import Examples Profiling.

Definition average (xs : list Q) : Q :=
  (fold_right Qplus 0 xs / inject_Z (len xs))%Q.

Definition arange (x : Q) : list Q :=
  map (fun n => inject_Z (Z.of_nat n)) (seq 0 (Z.to_nat (Qceiling x))).

Definition digitize (xs bins : list Q) : list nat :=
  map (fun x => length (List.filter (fun b => Qle_bool b x) bins)) xs.

Definition bincount (ns : list nat) : result (list Z) :=
  match ns with
  | [] => ok []
  | _ => ok (map (fun i => Z.of_nat (count_occ Nat.eq_dec ns i))
                 (seq 0 (S (max_list ns))))
  end.

#[export] Instance rational_numpy : @Numpy rational := {|
  float_add := Qplus;
  float_mul := Qmult;
  float_of_int := inject_Z;
  np_average := average;
  np_arange := arange;
  np_digitize := digitize;
  np_bincount := bincount;
|}.

(** Three samples of the tag [timer] in a run of two milliseconds: two in
    the first millisecond and one in the second. *)
Definition timer : list Q * list Q :=
  ([1 # 4; 1 # 2; 3 # 2]%Q, [1 # 10; 2 # 10; 3 # 10]%Q).

Definition two_tags : profiling_data :=
  [("timer"%string, timer); ("idle"%string, ([1 # 4]%Q, [1 # 2]%Q))].

End Samples.

(* ===================================================================== *)
(** * Facts about the runtime fragment                                    *)
(* ===================================================================== *)

Section PyFacts.

Lemma len_app {A : Type} (l1 l2 : list A) : len (l1 ++ l2) = len l1 + len l2.
Proof. unfold len. rewrite length_app. lia. Qed.

Lemma len_nonneg {A : Type} (l : list A) : 0 <= len l.
Proof. unfold len. lia. Qed.

Lemma len_replicate {A : Type} (n : nat) (x : A) : len (replicate n x) = Z.of_nat n.
Proof. unfold len. by rewrite length_replicate. Qed.

Lemma len_drop {A : Type} (n : nat) (l : list A) :
  len (drop n l) = Z.max 0 (len l - Z.of_nat n).
Proof. unfold len. rewrite length_drop. lia. Qed.

Lemma len_le32 (v : Z) : len (le32 v) = 4.
Proof. reflexivity. Qed.

Lemma len_words (vs : list Z) : len (words vs) = 4 * len vs.
Proof.
  unfold words. induction vs as [|v vs IH]; [reflexivity|].
  cbn [map concat]. rewrite len_app, IH, len_le32.
  unfold len. cbn [length]. lia.
Qed.

Lemma words_app (us vs : list Z) : words (us ++ vs) = words us ++ words vs.
Proof. unfold words. by rewrite map_app, concat_app. Qed.

Lemma words_cons (v : Z) (vs : list Z) : words (v :: vs) = le32 v ++ words vs.
Proof. reflexivity. Qed.

(** A word reads back as the low 32 bits of the value written. *)
Lemma decode_le32 (v : Z) : decode_le (le32 v) = v mod 2 ^ 32.
Proof.
  unfold decode_le, le32. cbn [foldr].
  change 255 with (Z.ones 8).
  rewrite !Z.land_ones, !Z.shiftr_div_pow2 by lia.
  change (2 ^ 8) with 256. change (2 ^ 16) with 65536.
  change (2 ^ 24) with 16777216. change (2 ^ 32) with 4294967296.
  Z.div_mod_to_equations. lia.
Qed.

Lemma decode_le32_uint32 (v : Z) : is_uint32 v = true -> decode_le (le32 v) = v.
Proof.
  unfold is_uint32. intros Hv. rewrite decode_le32.
  apply Z.mod_small. lia.
Qed.

Lemma take_len_app {A : Type} (P R : list A) : take (Z.to_nat (len P)) (P ++ R) = P.
Proof. unfold len. rewrite Nat2Z.id. by rewrite take_app_length. Qed.

Lemma drop_len_app {A : Type} (P R : list A) (n : Z) :
  0 <= n -> drop (Z.to_nat (len P + n)) (P ++ R) = drop (Z.to_nat n) R.
Proof.
  intros Hn. unfold len.
  replace (Z.to_nat (Z.of_nat (length P) + n)) with (length P + Z.to_nat n)%nat by lia.
  by rewrite drop_app_add.
Qed.

(** Packing with room at a non-negative offset succeeds and overwrites in
    place. *)
Lemma pack_into_ok (buffer : bytearray) (off : Z) (vs : list Z) :
  0 <= off -> off + 4 * len vs <= len buffer ->
  forallb is_uint32 vs = true ->
  pack_into buffer off vs =
    ok (take (Z.to_nat off) buffer ++ words vs
          ++ drop (Z.to_nat (off + 4 * len vs)) buffer).
Proof.
  intros Hoff Hroom Hvs. unfold pack_into. cbv zeta.
  assert ((off <? 0) = false) as E by lia.
  rewrite E. cbn [andb]. rewrite E.
  assert ((len buffer - off <? 4 * len vs) = false) as -> by lia.
  by rewrite Hvs.
Qed.

Lemma pack_into_at_end (P R : bytearray) (vs : list Z) :
  4 * len vs <= len R ->
  forallb is_uint32 vs = true ->
  pack_into (P ++ R) (len P) vs =
    ok ((P ++ words vs) ++ drop (Z.to_nat (4 * len vs)) R).
Proof.
  intros Hroom Hvs.
  pose proof (len_nonneg P). pose proof (len_nonneg vs).
  rewrite pack_into_ok; [|lia|rewrite len_app; lia|done].
  rewrite take_len_app, drop_len_app by lia. by rewrite <-app_assoc.
Qed.

Lemma pack_into_length (buffer buffer' : bytearray) (off : Z) (vs : list Z) :
  pack_into buffer off vs = ok buffer' -> len buffer' = len buffer.
Proof.
  unfold pack_into. cbv zeta.
  pose proof (len_nonneg vs). pose proof (len_nonneg buffer).
  destruct ((off <? 0) && _) eqn:E1; [done|].
  set (o := if off <? 0 then _ else _).
  destruct (o <? 0) eqn:E2; [done|].
  destruct (len buffer - o <? 4 * len vs) eqn:E3; [done|].
  destruct (forallb is_uint32 vs); [|done].
  intros [= <-]. rewrite !len_app, len_words.
  unfold len in *. rewrite length_take, length_drop. lia.
Qed.

Lemma adjust_index_inside (n i : Z) : 0 <= i <= n -> adjust_index n i = i.
Proof. intros Hi. unfold adjust_index. destruct (i <? 0) eqn:E; lia. Qed.

(** Assigning to a slice that starts where [P] ends keeps [P], places the
    data right after it, and drops from the rest only what lies inside the
    slice. *)
Lemma setslice_at_end (P R data : bytearray) (j : Z) :
  setslice (P ++ R) (len P) j data =
    (P ++ data)
      ++ drop (Z.to_nat (Z.max (len P) (adjust_index (len (P ++ R)) j) - len P)) R.
Proof.
  unfold setslice.
  pose proof (len_nonneg P). pose proof (len_nonneg R).
  rewrite adjust_index_inside by (rewrite len_app; lia).
  rewrite take_len_app.
  set (hi := Z.max _ _).
  replace hi with (len P + (hi - len P)) at 1 by lia.
  rewrite drop_len_app by lia. by rewrite <-app_assoc.
Qed.

End PyFacts.

(* ===================================================================== *)
(** * Facts about the filter regions                                      *)
(* ===================================================================== *)

Section FilterFacts.
Context `{Numeric} `{BitField}.
Import Filters Layout.

Lemma bind_ok {A B : Type} (a : A) (k : A -> result B) : (ok a ≫= k) = k a.
Proof. reflexivity. Qed.

Lemma is_uint32_spec (v : Z) : is_uint32 v = true <-> 0 <= v < 2 ^ 32.
Proof. unfold is_uint32. lia. Qed.

(** Interleaving the negated tail of [a] with the tail of [b], as the code
    does with [vstack] and [flatten], lists the coefficient pairs. *)
Lemma interleave_pairs (xs ys : list float) :
  length xs = length ys ->
  concat (zip_with (fun x y => [x; y]) (map float_neg xs) ys) =
  concat (map (fun k => [float_neg (nth k xs float_zero); nth k ys float_zero])
              (seq 0 (length xs))).
Proof.
  revert ys. induction xs as [|x xs IH]; intros [|y ys] Hlen;
    cbn in Hlen; try lia; [reflexivity|].
  cbn [map zip_with concat length seq nth]. f_equal.
  rewrite IH by lia. by rewrite <-seq_shift, map_map.
Qed.

Lemma vstack_coefficient_pairs (a0 b0 : float) (a b : list float) :
  len (a0 :: a) = len (b0 :: b) ->
  vstack_T_flatten (map float_neg (drop 1 (a0 :: a))) (drop 1 (b0 :: b)) =
    ok (coefficient_pairs (a0 :: a) (b0 :: b) (length a)).
Proof.
  unfold len. cbn [length drop]. intros Hlen. rewrite !drop_0.
  unfold vstack_T_flatten, len. rewrite length_map.
  assert ((Z.of_nat (length a) =? Z.of_nat (length b)) = true) as -> by lia.
  f_equal. rewrite interleave_pairs by lia.
  unfold coefficient_pairs. by rewrite <-seq_shift, map_map.
Qed.

Lemma len_coefficient_pairs (a b : list float) (n : nat) :
  len (coefficient_pairs a b n) = 2 * Z.of_nat n.
Proof.
  unfold coefficient_pairs.
  generalize 1%nat. induction n as [|n IH]; intros s; [reflexivity|].
  cbn [seq map concat]. rewrite len_app, IH. unfold len. cbn [length]. lia.
Qed.

(** The bytes a linear filter's data occupy. *)
Lemma len_linear_payload (a b : list float) (n : nat) :
  len (tostring (np_to_fix (coefficient_pairs a b n))) = 4 * (2 * Z.of_nat n).
Proof.
  unfold tostring, np_to_fix. rewrite len_words.
  unfold len at 1. rewrite length_map. fold (len (coefficient_pairs a b n)).
  by rewrite len_coefficient_pairs.
Qed.

(** [LinearFilter.pack_data] at the end of a prefix [P]: the order word and
    the coefficient pairs follow [P]; of what was there before, the first
    [k] bytes are gone, where [k] is 4 plus the length of the slice the
    assignment replaces. *)
Lemma pack_data_linear (w : Z) (l : bool) (num den b a : list float)
    (b0 : float) (dt : float) (P R : bytearray) :
  cont2discrete num den dt = (b0 :: b, a) ->
  float_eqb b0 float_zero = true ->
  len a = len den -> len (b0 :: b) = len den ->
  is_uint32 (order den) = true ->
  4 <= len R ->
  let n := order den in
  let k := 4 + Z.max 0 (Z.min (4 + n * 8) (len P + len R) - (len P + 4)) in
  pack_data (LinearFilter w l num den) dt (P ++ R) (len P) =
    ok ((P ++ le32 n
           ++ tostring (np_to_fix (coefficient_pairs a (b0 :: b) (Z.to_nat n))))
          ++ drop (Z.to_nat k) R).
Proof.
  intros Hc2d Hb0 Ha Hb Hn HR. cbv zeta.
  pose proof (len_nonneg P) as HP.
  apply is_uint32_spec in Hn.
  unfold pack_data. rewrite Hc2d. rewrite bind_ok, Hb0. cbn [negb].
  destruct a as [|a0 a]; [unfold order, len in *; cbn in *; lia|].
  rewrite vstack_coefficient_pairs by congruence. rewrite bind_ok.
  replace (length a) with (Z.to_nat (order den))
    by (unfold order, len in *; cbn [length] in *; lia).
  rewrite pack_into_at_end;
    [|change (len [order den]) with 1; lia
     |cbn; apply andb_true_iff; split; [by apply is_uint32_spec|done]].
  rewrite bind_ok. rewrite words_cons. unfold words at 1.
  cbn [map concat]. rewrite app_nil_r.
  replace (len P + 4) with (len (P ++ le32 (order den)))
    by (rewrite len_app; done).
  rewrite setslice_at_end. f_equal.
  rewrite <-(app_assoc P). f_equal.
  rewrite drop_drop. f_equal.
  rewrite !len_app, len_le32, len_drop.
  change (len [order den]) with 1.
  pose proof (len_nonneg R).
  unfold adjust_index.
  assert ((4 + order den * 8 <? 0) = false) as -> by lia.
  lia.
Qed.

Lemma forallb_uint32_cons (v : Z) (vs : list Z) :
  is_uint32 v = true -> forallb is_uint32 vs = true ->
  forallb is_uint32 (v :: vs) = true.
Proof. intros Hv Hvs. cbn. by rewrite Hv, Hvs. Qed.

Lemma consumed_bounds (f : Filter) (p r : Z) :
  is_uint32 (size_words f) = true -> 0 <= p ->
  16 <= consumed f p r <= 16 + 4 * size_words f.
Proof.
  intros Hs Hp. apply is_uint32_spec in Hs.
  unfold consumed. destruct f; cbn [size_words] in *; lia.
Qed.

(** Packing one encodable filter at the end of a prefix [P], with room for
    it in what follows. *)
Lemma Filter_pack_into_at_end (dt : float) (f : Filter) (P R : bytearray) :
  encodable dt f = true ->
  16 + 4 * size_words f <= len R ->
  Filter_pack_into f dt (P ++ R) (len P) =
    ok ((P ++ header f ++ payload dt f)
          ++ drop (Z.to_nat (consumed f (len P) (len R))) R).
Proof.
  intros Henc Hroom.
  pose proof (len_nonneg P) as HP. pose proof (len_nonneg R) as HR.
  unfold encodable in Henc.
  apply andb_true_iff in Henc as [Hws Hf].
  apply andb_true_iff in Hws as [Hw Hs].
  pose proof Hs as Hs'. apply is_uint32_spec in Hs'.
  unfold Filter_pack_into.
  rewrite pack_into_at_end; cycle 1.
  { change (len [_; _; _; _]) with 4. lia. }
  { repeat apply forallb_uint32_cons;
      [done | by destruct f | done | by destruct (latching f) | done]. }
  rewrite bind_ok. fold (header f).
  change (len [size_words f; method_index f; width f;
               if latching f then 1 else 0]) with 4.
  replace (len P + 16) with (len (P ++ header f))
    by (rewrite len_app; unfold header; rewrite len_words; done).
  assert (len (P ++ header f) = len P + 16) as HPh
    by (rewrite len_app; unfold header; rewrite len_words; done).
  destruct f as [w l|w l tau|w l num den]; cbn [size_words] in *.
  - cbn [pack_data payload consumed]. by rewrite app_nil_r.
  - apply andb_true_iff in Hf as [Hf Hb]. apply andb_true_iff in Hf as [Ht Ha].
    apply negb_true_iff in Ht.
    cbn [pack_data payload consumed]. rewrite Ht.
    rewrite pack_into_at_end; cycle 1.
    { rewrite len_drop. change (len [_; _]) with 2. lia. }
    { by repeat apply forallb_uint32_cons. }
    rewrite drop_drop, <-!app_assoc. by repeat f_equal.
  - cbn [payload consumed].
    destruct (cont2discrete num den dt) as [b a] eqn:Hc2d.
    apply andb_true_iff in Hf as [Hf Hb0]. apply andb_true_iff in Hf as [Ha Hb].
    destruct b as [|b0 b]; [done|].
    rewrite (pack_data_linear w l num den b a b0 dt); try done; try lia; cycle 1.
    { apply is_uint32_spec. unfold order in *. pose proof (len_nonneg den). lia. }
    { rewrite len_drop. lia. }
    rewrite drop_drop, <-!app_assoc. do 4 f_equal.
    rewrite HPh, len_drop. unfold consumed, tostring, np_to_fix.
    f_equal. apply (f_equal (fun n => drop n R)). lia.
Qed.

Lemma len_header (f : Filter) : len (header f) = 16.
Proof. reflexivity. Qed.

Lemma len_payload (dt : float) (f : Filter) :
  is_uint32 (size_words f) = true -> len (payload dt f) = 4 * size_words f.
Proof.
  intros Hs. apply is_uint32_spec in Hs.
  destruct f as [w l|w l tau|w l num den]; cbn [payload size_words] in *;
    [reflexivity..|].
  destruct (cont2discrete num den dt) as [b a].
  rewrite len_app, len_le32.
  pose proof (len_linear_payload a b (Z.to_nat (order den))) as Hl.
  unfold tostring, np_to_fix in Hl. rewrite Hl. lia.
Qed.

Lemma encodable_size (dt : float) (f : Filter) :
  encodable dt f = true -> is_uint32 (size_words f) = true.
Proof.
  unfold encodable. intros Henc.
  apply andb_true_iff in Henc as [Hws _].
  by apply andb_true_iff in Hws as [_ Hs].
Qed.

Lemma size_words_sum_nonneg (dt : float) (fs : list Filter) :
  forallb (encodable dt) fs = true ->
  0 <= foldr Z.add 0 (map size_words fs).
Proof.
  induction fs as [|f fs IH]; cbn [forallb map foldr]; [lia|].
  intros Hfs. apply andb_true_iff in Hfs as [Hf Hfs].
  apply encodable_size, is_uint32_spec in Hf. specialize (IH Hfs). lia.
Qed.

(** The loop of [FilterRegion.write_subregion_to_file], started after a
    prefix [P] of [off] words that is followed by [r] zero bytes, at least
    as many as the filters take. *)
Lemma write_loop (dt : float) (fs : list Filter) :
  forall (P : bytearray) (r : nat) (off : Z),
    len P = off * 4 ->
    forallb (encodable dt) fs = true ->
    4 * (4 * len fs + foldr Z.add 0 (map size_words fs)) <= Z.of_nat r ->
    0 <= remaining fs (len P) (Z.of_nat r) /\
    exists off',
      for_each
        (fun (st : bytearray * Z) f =>
           data ← Filter_pack_into f dt st.1 (st.2 * 4);
           ok (data, st.2 + (size_words f + 4)))
        fs (P ++ replicate r 0, off) =
      ok ((P ++ concat (map (fun f => header f ++ payload dt f) fs))
            ++ replicate (Z.to_nat (remaining fs (len P) (Z.of_nat r))) 0,
          off').
Proof.
  induction fs as [|f fs IH]; intros P r off HP Hfs Hroom.
  - cbn [remaining for_each map concat]. split; [lia|].
    exists off. by rewrite app_nil_r, Nat2Z.id.
  - cbn [forallb] in Hfs. apply andb_true_iff in Hfs as [Hf Hfs].
    pose proof (encodable_size dt f Hf) as Hs.
    pose proof Hs as Hs'. apply is_uint32_spec in Hs'.
    pose proof (len_nonneg P) as HP0. pose proof (len_nonneg fs) as Hfs0.
    cbn [map foldr] in Hroom.
    replace (len (f :: fs)) with (1 + len fs) in Hroom
      by (unfold len; cbn [length]; lia).
    pose proof (consumed_bounds f (len P) (Z.of_nat r) Hs HP0) as Hc.
    cbn [for_each remaining]. unfold Py.bind at 1. cbn [fst snd].
    rewrite <-HP.
    pose proof (size_words_sum_nonneg dt fs Hfs) as Hsum.
    rewrite Filter_pack_into_at_end by (rewrite ?len_replicate; done || lia).
    rewrite bind_ok. rewrite len_replicate, drop_replicate.
    set (r' := (r - Z.to_nat (consumed f (len P) (Z.of_nat r)))%nat).
    set (P' := P ++ header f ++ payload dt f).
    assert (len P' = len P + 16 + 4 * size_words f) as HP'.
    { unfold P'. rewrite !len_app, len_header, len_payload by done. lia. }
    assert (Z.of_nat r' = Z.of_nat r - consumed f (len P) (Z.of_nat r)) as Hr'
      by (unfold r'; lia).
    destruct (IH P' r' (off + (size_words f + 4))) as [Hrem [off' Hloop]];
      [lia|done|lia|].
    rewrite HP', Hr' in Hrem, Hloop.
    split; [done|]. exists off'.
    etrans; [exact Hloop|].
    unfold P'. cbn [map concat]. by rewrite <-!app_assoc.
Qed.

(** The block the filter region writes: the layout, followed by as many
    zero bytes as the filters left unused. *)
Lemma region_written (fs : list Filter) (dt : float) :
  len fs < 2 ^ 32 ->
  forallb (encodable dt) fs = true ->
  0 <= padding fs /\
  FilterRegion_write_subregion_to_file {| filters := fs; dt := dt |} =
    ok (filter_region_layout fs dt ++ replicate (Z.to_nat (padding fs)) 0).
Proof.
  intros Hlen Hfs.
  pose proof (size_words_sum_nonneg dt fs Hfs) as Hsum.
  pose proof (len_nonneg fs) as Hfs0.
  unfold FilterRegion_write_subregion_to_file, padding, FilterRegion_sizeof.
  cbn [filters Filters.dt].
  set (size := (1 + 4 * len fs + foldr Z.add 0 (map size_words fs)) * 4).
  unfold bytearray_new. assert ((size <? 0) = false) as -> by lia.
  rewrite bind_ok.
  change (replicate (Z.to_nat size) 0) with ([] ++ replicate (Z.to_nat size) 0).
  change 0 with (len (@nil Z)) at 2.
  rewrite pack_into_at_end; cycle 1.
  { rewrite len_replicate. change (len [len fs]) with 1. lia. }
  { apply forallb_uint32_cons; [apply is_uint32_spec; lia|done]. }
  rewrite bind_ok, drop_replicate.
  change (len [len fs]) with 1.
  set (r := (Z.to_nat size - Z.to_nat (4 * 1))%nat).
  assert (Z.of_nat r = size - 4) as Hr by (unfold r; lia).
  destruct (write_loop dt fs ([] ++ words [len fs]) r 1) as [Hrem [off' Hloop]];
    [reflexivity|done|lia|].
  change (len ([] ++ words [len fs])) with 4 in Hrem, Hloop.
  rewrite Hr in Hrem, Hloop. split; [done|].
  etrans; [apply (f_equal (fun m => m ≫= _) Hloop)|].
  rewrite bind_ok. cbn [fst]. unfold filter_region_layout.
  cbn [app words map concat]. by rewrite app_nil_r.
Qed.

(** [LinearFilter.pack_data] at a non-negative offset of any buffer with
    room for the order word. *)
Lemma pack_data_linear_at (w : Z) (l : bool) (num den b a : list float)
    (b0 : float) (dt : float) (buffer : bytearray) (offset : Z) :
  cont2discrete num den dt = (b0 :: b, a) ->
  float_eqb b0 float_zero = true ->
  len a = len den -> len (b0 :: b) = len den ->
  is_uint32 (order den) = true ->
  0 <= offset -> offset + 4 <= len buffer ->
  exists rest,
    pack_data (LinearFilter w l num den) dt buffer offset =
      ok (take (Z.to_nat offset) buffer ++ le32 (order den)
            ++ tostring (np_to_fix
                           (coefficient_pairs a (b0 :: b) (Z.to_nat (order den))))
            ++ rest).
Proof.
  intros Hc2d Hb0 Ha Hb Hn Hoff Hroom.
  set (P := take (Z.to_nat offset) buffer).
  set (R := drop (Z.to_nat offset) buffer).
  assert (len P = offset) as HP
    by (unfold P, len in *; rewrite length_take; lia).
  assert (4 <= len R) as HR by (unfold R; rewrite len_drop; lia).
  pose proof (pack_data_linear w l num den b a b0 dt P R Hc2d Hb0 Ha Hb Hn HR)
    as Hpack.
  cbv zeta in Hpack.
  assert (P ++ R = buffer) as HPR by apply take_drop.
  rewrite HPR, HP in Hpack. rewrite Hpack.
  eexists. by rewrite <-!app_assoc.
Qed.

(** C1: a LinearFilter whose denominator has order [n] is [1 + 2n] words
    long, and packing it at any offset of any buffer with room for the order
    word leaves, in the buffer it returns, everything before the offset as
    it was, the order word at the offset, and right after it the [n]
    interleaved (negated denominator, numerator) fixed-point pairs, which
    take [2n] words. *)
Theorem linear_filter_encoding (w : Z) (l : bool) (num den b a : list float)
    (b0 : float) (dt : float) (buffer : bytearray) (offset : Z) :
  cont2discrete num den dt = (b0 :: b, a) ->
  float_eqb b0 float_zero = true ->
  len a = len den -> len (b0 :: b) = len den ->
  is_uint32 (order den) = true ->
  0 <= offset -> offset + 4 <= len buffer ->
  let n := order den in
  let pairs := tostring (np_to_fix (coefficient_pairs a (b0 :: b) (Z.to_nat n))) in
  size_words (LinearFilter w l num den) = 1 + 2 * n /\
  len pairs = 4 * (2 * n) /\
  exists rest,
    pack_data (LinearFilter w l num den) dt buffer offset =
      ok (take (Z.to_nat offset) buffer ++ le32 n ++ pairs ++ rest).
Proof.
  intros Hc2d Hb0 Ha Hb Hn Hoff Hroom n pairs.
  pose proof Hn as Hn'. apply is_uint32_spec in Hn'.
  split; [cbn [size_words]; unfold n; lia|].
  split; [unfold pairs; rewrite len_linear_payload; unfold n; lia|].
  by apply pack_data_linear_at.
Qed.

(** C9: the assertion of [LinearFilter.pack_data].  When the leading
    coefficient of the discrete numerator is not zero, packing raises
    [AssertionError], whatever the buffer; when it is zero the assertion
    never fires, and packing succeeds as soon as the discrete coefficient
    arrays have the length of the denominator and the buffer has room for
    the order word. *)
Theorem linear_filter_assertion (w : Z) (l : bool) (num den b a : list float)
    (b0 : float) (dt : float) (buffer : bytearray) (offset : Z) :
  cont2discrete num den dt = (b0 :: b, a) ->
  (float_eqb b0 float_zero = false ->
     pack_data (LinearFilter w l num den) dt buffer offset
       = raise AssertionError) /\
  (float_eqb b0 float_zero = true ->
     pack_data (LinearFilter w l num den) dt buffer offset
       <> raise AssertionError) /\
  (float_eqb b0 float_zero = true ->
     len a = len den -> len (b0 :: b) = len den ->
     is_uint32 (order den) = true ->
     0 <= offset -> offset + 4 <= len buffer ->
     exists buffer',
       pack_data (LinearFilter w l num den) dt buffer offset = ok buffer').
Proof.
  intros Hc2d. split; [|split].
  - intros Hb0. unfold pack_data. by rewrite Hc2d, bind_ok, Hb0.
  - intros Hb0. unfold pack_data. rewrite Hc2d, bind_ok, Hb0. cbn [negb].
    unfold vstack_T_flatten. destruct (_ =? _); [|done].
    rewrite bind_ok.
    destruct (pack_into buffer offset [order den]) as [e|buffer'] eqn:Hpack;
      [|done].
    unfold pack_into in Hpack. cbv zeta in Hpack.
    repeat (destruct (_ : bool) in Hpack; try discriminate).
    all: by injection Hpack as <-.
  - intros Hb0 Ha Hb Hn Hoff Hroom.
    destruct (pack_data_linear_at w l num den b a b0 dt buffer offset)
      as (rest & Hpack); try done.
    rewrite Hpack. by eexists.
Qed.

(** C2: for encodable filters, the block written for a filter region is the
    count, then for each filter in table order the four header words and
    its payload, followed only by zero bytes.  For a None filter of width 4
    that does not latch and a Lowpass filter of width 4 that does, the
    words written are the count 2, the header [0, 0, 4, 0], the header
    [2, 1, 4, 1] and the two low-pass coefficients. *)
Theorem filter_region_layout_written :
  (forall (fs : list Filter) (dt : float),
     len fs < 2 ^ 32 ->
     forallb (encodable dt) fs = true ->
     exists pad : nat,
       FilterRegion_write_subregion_to_file {| filters := fs; dt := dt |} =
         ok (filter_region_layout fs dt ++ replicate pad 0)) /\
  (forall (tau dt : float),
     encodable dt (LowpassFilter 4 true tau) = true ->
     FilterRegion_write_subregion_to_file
       {| filters := [NoneFilter 4 false; LowpassFilter 4 true tau];
          dt := dt |} =
       ok (words [2;
                  0; 0; 4; 0;
                  2; 1; 4; 1;
                  value_to_fix (lowpass_a dt tau);
                  value_to_fix (lowpass_b dt tau)])).
Proof.
  split.
  - intros fs dt Hlen Hfs.
    destruct (region_written fs dt Hlen Hfs) as [_ Hw]. eauto.
  - intros tau dt Hlow.
    destruct (region_written [NoneFilter 4 false; LowpassFilter 4 true tau] dt)
      as [_ Hw]; [done|by cbn [forallb]; rewrite Hlow|].
    rewrite Hw.
    change (Z.to_nat (padding _)) with 0%nat.
    cbn [replicate]. rewrite app_nil_r. reflexivity.
Qed.

(** C10, at a filter region that holds one LinearFilter of order 1: the
    region announces 32 bytes and the block it writes is 40 bytes long. *)
Theorem linear_filter_region_grows (w : Z) (l : bool) (n0 d0 d1 b0 b1 a0 a1 : float)
    (dt : float) :
  cont2discrete [n0] [d0; d1] dt = ([b0; b1], [a0; a1]) ->
  float_eqb b0 float_zero = true ->
  is_uint32 w = true ->
  let r := {| filters := [LinearFilter w l [n0] [d0; d1]]; dt := dt |} in
  FilterRegion_sizeof r = 32 /\
  exists data,
    FilterRegion_write_subregion_to_file r = ok data /\ len data = 40.
Proof.
  intros Hc2d Hb0 Hw r. split; [reflexivity|].
  destruct (region_written (filters r) dt) as [_ Hwr]; [done| |].
  { cbn [filters r forallb]. unfold encodable. cbn [width size_words].
    by rewrite Hw, Hc2d, Hb0. }
  eexists. split; [exact Hwr|].
  rewrite len_app, len_replicate.
  unfold filter_region_layout. rewrite len_app, len_le32.
  cbn [filters r map concat]. rewrite app_nil_r, len_app, len_header.
  rewrite len_payload by done.
  reflexivity.
Qed.

End FilterFacts.

(* ===================================================================== *)
(** * Facts about the filter routing region                               *)
(* ===================================================================== *)

Section RoutingFacts.
Context `{Numeric} `{BitField}.
Import Filters Layout.

(** Reading the [j]-th of the words [vs] laid out after a prefix [P]. *)
Lemma word_at_words (P rest : bytearray) (vs : list Z) (j : nat) (v : Z) :
  vs !! j = Some v -> is_uint32 v = true ->
  word_at (P ++ words vs ++ rest) (len P + 4 * Z.of_nat j) = v.
Proof.
  revert P j. induction vs as [|u vs IH]; intros P j Hj Hv; [done|].
  destruct j as [|j].
  - injection Hj as ->. unfold word_at, bytes_at.
    rewrite Z.mul_0_r, Z.add_0_r.
    replace (Z.to_nat (len P)) with (length P) by (unfold len; lia).
    rewrite drop_app_length. rewrite words_cons.
    change (take (Z.to_nat 4) ((le32 v ++ words vs) ++ rest)) with (le32 v).
    by apply decode_le32_uint32.
  - cbn [lookup list_lookup] in Hj.
    specialize (IH (P ++ le32 u) j Hj Hv).
    rewrite len_app, len_le32 in IH.
    rewrite words_cons, <-!app_assoc.
    rewrite <-!app_assoc in IH.
    replace (len P + 4 * Z.of_nat (S j)) with (len P + 4 + 4 * Z.of_nat j) by lia.
    exact IH.
Qed.

Lemma forallb_take {A : Type} (p : A -> bool) (l : list A) (i : nat) :
  forallb p l = true -> forallb p (take i l) = true.
Proof.
  revert i. induction l as [|x l IH]; intros [|i] Hl; try done.
  cbn [forallb take] in *. apply andb_true_iff in Hl as [Hx Hl].
  by rewrite Hx, IH.
Qed.

(** The words of a routable route. *)
Lemma routable_words (tag field : string) (ks : keyspace) (index : Z) :
  routable tag field (ks, index) = true ->
  exists v m mi,
    get_value ks tag = ok v /\ get_mask_tag ks tag = ok m /\
    get_mask_field ks field = ok mi /\
    route_words tag field (ks, index) = ok [v; m; mi; index] /\
    forallb is_uint32 [v; m; mi; index] = true.
Proof.
  unfold routable, route_words. cbn [fst snd].
  destruct (get_value ks tag) as [e|v]; [done|].
  destruct (get_mask_tag ks tag) as [e|m]; [done|].
  destruct (get_mask_field ks field) as [e|mi]; [done|].
  intros Hws. by exists v, m, mi.
Qed.

Lemma len_route_block (tag field : string) (route : keyspace * Z) :
  routable tag field route = true -> len (route_block tag field route) = 16.
Proof.
  destruct route as [ks index]. intros Hr.
  destruct (routable_words tag field ks index Hr) as (v & m & mi & _ & _ & _ & Hw & _).
  unfold route_block. by rewrite Hw.
Qed.

(** The loop of [FilterRoutingRegion.write_subregion_to_file], from entry
    [i] on, after a prefix [P] that is followed by [r] zero bytes. *)
Lemma routing_loop (tag field : string) (routes : list (keyspace * Z)) :
  forall (P : bytearray) (r : nat) (i : Z),
    len P = 4 + 16 * i ->
    forallb (routable tag field) routes = true ->
    16 * len routes <= Z.of_nat r ->
    for_each
      (fun data (entry : Z * (keyspace * Z)) =>
         let '(i, (ks, index)) := entry in
         v ← get_value ks tag;
         m ← get_mask_tag ks tag;
         mi ← get_mask_field ks field;
         pack_into data (4 + 16 * i) [v; m; mi; index])
      (enumerate i routes) (P ++ replicate r 0) =
    ok ((P ++ concat (map (route_block tag field) routes))
          ++ replicate (r - Z.to_nat (16 * len routes)) 0).
Proof.
  induction routes as [|[ks index] routes IH]; intros P r i HP Hrs Hroom.
  - cbn. by rewrite app_nil_r, Nat.sub_0_r.
  - cbn [forallb] in Hrs. apply andb_true_iff in Hrs as [Hr Hrs].
    pose proof (len_nonneg routes) as Hn.
    replace (len ((ks, index) :: routes)) with (1 + len routes) in *
      by (unfold len; cbn [length]; lia).
    destruct (routable_words tag field ks index Hr)
      as (v & m & mi & Hv & Hm & Hmi & Hw & Hu).
    cbn [enumerate for_each]. unfold Py.bind at 1.
    rewrite Hv, Hm, Hmi, !bind_ok. rewrite <-HP.
    rewrite pack_into_at_end;
      [|rewrite len_replicate; change (len [v; m; mi; index]) with 4; lia|done].
    rewrite drop_replicate. change (len [v; m; mi; index]) with 4.
    specialize (IH (P ++ words [v; m; mi; index]) (r - Z.to_nat (4 * 4))%nat (i + 1)).
    etrans; [apply IH|].
    { rewrite len_app, len_words. change (len [v; m; mi; index]) with 4. lia. }
    { done. }
    { lia. }
    cbn [map concat]. unfold route_block at 2. rewrite Hw.
    rewrite <-!app_assoc. do 4 f_equal.
    apply (f_equal (fun n => replicate n 0)). lia.
Qed.

(** C8: for routable routes, the block written for a filter routing region
    is as long as [sizeof] says, four bytes for the count and sixteen per
    route; it starts with the number of routes, and the entry of the [i]-th
    route starts at byte [4 + 16 i] and holds the key value for the
    filter-routing tag, the key mask for that tag, the key mask for the
    index field and the filter index, in this order. *)
Theorem routing_region_written (r : FilterRoutingRegion) :
  len (keyspace_routes r) < 2 ^ 32 ->
  forallb (routable (filter_routing_tag r) (index_field r)) (keyspace_routes r)
    = true ->
  exists data,
    FilterRoutingRegion_write_subregion_to_file r = ok data /\
    len data = 4 * (1 + 4 * len (keyspace_routes r)) /\
    len data = FilterRoutingRegion_sizeof r /\
    word_at data 0 = len (keyspace_routes r) /\
    forall (i : nat) (ks : keyspace) (index : Z),
      keyspace_routes r !! i = Some (ks, index) ->
      exists v m mi,
        get_value ks (filter_routing_tag r) = ok v /\
        get_mask_tag ks (filter_routing_tag r) = ok m /\
        get_mask_field ks (index_field r) = ok mi /\
        word_at data (4 + 16 * Z.of_nat i) = v /\
        word_at data (4 + 16 * Z.of_nat i + 4) = m /\
        word_at data (4 + 16 * Z.of_nat i + 8) = mi /\
        word_at data (4 + 16 * Z.of_nat i + 12) = index.
Proof.
  destruct r as [routes tag field]. cbn [keyspace_routes filter_routing_tag index_field].
  intros Hlen Hrs.
  pose proof (len_nonneg routes) as Hn.
  exists (le32 (len routes) ++ concat (map (route_block tag field) routes)).
  assert (len (concat (map (route_block tag field) routes)) = 16 * len routes)
    as Hblocks.
  { clear Hlen Hn. induction routes as [|rt routes IH]; [reflexivity|].
    cbn [forallb] in Hrs. apply andb_true_iff in Hrs as [Hr Hrs].
    cbn [map concat]. rewrite len_app, len_route_block, IH by done.
    unfold len. cbn [length]. lia. }
  split; [|split; [|split; [|split]]].
  - unfold FilterRoutingRegion_write_subregion_to_file, FilterRoutingRegion_sizeof.
    cbn [keyspace_routes filter_routing_tag index_field].
    set (size := 4 * (1 + 4 * len routes)).
    unfold bytearray_new. assert ((size <? 0) = false) as -> by lia.
    rewrite bind_ok.
    change (replicate (Z.to_nat size) 0) with ([] ++ replicate (Z.to_nat size) 0).
    change 0 with (len (@nil Z)) at 2.
    rewrite pack_into_at_end; cycle 1.
    { rewrite len_replicate. change (len [len routes]) with 1. lia. }
    { apply forallb_uint32_cons; [apply is_uint32_spec; lia|done]. }
    rewrite bind_ok, drop_replicate. change (len [len routes]) with 1.
    rewrite routing_loop; [|reflexivity|done|lia].
    replace (Z.to_nat size - Z.to_nat (4 * 1) - Z.to_nat (16 * len routes))%nat
      with 0%nat by lia.
    cbn [replicate app words map concat]. by rewrite !app_nil_r.
  - rewrite len_app, len_le32, Hblocks. lia.
  - rewrite len_app, len_le32, Hblocks. unfold FilterRoutingRegion_sizeof.
    cbn [keyspace_routes]. lia.
  - pose proof (word_at_words [] (concat (map (route_block tag field) routes))
                  [len routes] 0 (len routes) eq_refl) as Hw.
    rewrite words_cons in Hw. cbn [words map concat] in Hw.
    rewrite app_nil_r in Hw. apply Hw. apply is_uint32_spec. lia.
  - intros i ks index Hi.
    assert (routable tag field (ks, index) = true) as Hr.
    { rewrite forallb_forall in Hrs. apply Hrs. apply list_elem_of_In.
      by eapply list_elem_of_lookup_2. }
    destruct (routable_words tag field ks index Hr)
      as (v & m & mi & Hv & Hm & Hmi & Hw & Hu).
    exists v, m, mi. do 3 (split; [done|]).
    assert (concat (map (route_block tag field) routes) =
            concat (map (route_block tag field) (take i routes))
              ++ words [v; m; mi; index]
              ++ concat (map (route_block tag field) (drop (S i) routes)))
      as Hsplit.
    { rewrite <-(take_drop_middle routes i (ks, index) Hi) at 1.
      rewrite map_app, concat_app. cbn [map concat].
      unfold route_block at 2. by rewrite Hw. }
    rewrite Hsplit, app_assoc.
    set (P := le32 (len routes) ++ concat (map (route_block tag field) (take i routes))).
    assert (len P = 4 + 16 * Z.of_nat i) as HP.
    { unfold P. rewrite len_app, len_le32. f_equal.
      assert (forallb (routable tag field) (take i routes) = true) as Ht
        by by apply forallb_take.
      assert (length (take i routes) = i) as Hti.
      { rewrite length_take. apply lookup_lt_Some in Hi. lia. }
      revert Ht Hti. generalize (take i routes). clear.
      intros l. revert i. induction l as [|rt l IH]; intros i Hl Hi.
      - cbn in Hi. subst i. reflexivity.
      - cbn [forallb] in Hl. apply andb_true_iff in Hl as [Hr Hl].
        cbn [length] in Hi. cbn [map concat].
        rewrite len_app, len_route_block by done.
        rewrite (IH (length l)) by done. lia. }
    rewrite <-HP.
    apply andb_true_iff in Hu as [Hu1 Hu]. apply andb_true_iff in Hu as [Hu2 Hu].
    apply andb_true_iff in Hu as [Hu3 Hu]. apply andb_true_iff in Hu as [Hu4 _].
    repeat split.
    + rewrite <-(Z.add_0_r (len P)).
      by apply (word_at_words P _ [v; m; mi; index] 0).
    + by apply (word_at_words P _ [v; m; mi; index] 1).
    + by apply (word_at_words P _ [v; m; mi; index] 2).
    + by apply (word_at_words P _ [v; m; mi; index] 3).
Qed.

End RoutingFacts.

(* ===================================================================== *)
(** * Facts about make_filter_regions                                     *)
(* ===================================================================== *)

Section DedupFacts.
Context `{Numeric} `{BitField}.
Import Filters Layout.

Lemma np_all_eq_Forall2 (xs ys : list float) :
  len xs = len ys ->
  np_all_eq xs ys = true <-> Forall2 (fun x y => float_eqb x y = true) xs ys.
Proof.
  unfold np_all_eq, len. revert ys.
  induction xs as [|x xs IH]; intros [|y ys] Hlen; cbn in Hlen; try lia.
  - split; [constructor|done].
  - cbn [zip zip_with forallb fst snd]. rewrite andb_true_iff, IH by lia.
    split.
    + intros [Hx Hxs]. by constructor.
    + intros Hf. by inversion Hf; subst.
Qed.

(** [f == g] holds exactly for filters that are exactly equal. *)
Lemma Filter_eq_exact (f g : Filter) :
  Filter_eq f g = true <-> exactly_equal f g.
Proof.
  unfold exactly_equal, Filter_eq, base_eq.
  destruct f as [w l|w l tau|w l num den], g as [w' l'|w' l' tau'|w' l' num' den'];
    cbn [same_type width latching andb];
    rewrite ?andb_true_iff, ?Z.eqb_eq, ?eqb_true_iff;
    try (split; [intros ?; intuition discriminate | by intros (_ & _ & [])]).
  - tauto.
  - tauto.
  - split.
    + intros [[Hw Hl] [[[Hn Hd] Hnum] Hden]].
      apply np_all_eq_Forall2 in Hnum; [|done].
      apply np_all_eq_Forall2 in Hden; [|done]. done.
    + intros (Hw & Hl & Hnum & Hden).
      assert (len num = len num') as Hn
        by (unfold len; by rewrite (Forall2_length Hnum)).
      assert (len den = len den') as Hd
        by (unfold len; by rewrite (Forall2_length Hden)).
      repeat split; try done; by apply np_all_eq_Forall2.
Qed.

(** The search breaks at the first table entry that passes the test. *)
Lemma find_equal_Some (f : Filter) (minimise : bool) (fs : list Filter) :
  forall (start index : Z),
    find_equal f minimise start fs = Some index ->
    exists (k : nat) (g : Filter),
      index = start + Z.of_nat k /\ fs !! k = Some g /\
      Filter_eq f g = true /\ minimise = true /\
      forall (j : nat) (g' : Filter),
        (j < k)%nat -> fs !! j = Some g' -> Filter_eq f g' && minimise = false.
Proof.
  induction fs as [|g fs IH]; intros start index Hfind; [done|].
  cbn [find_equal] in Hfind.
  destruct (Filter_eq f g && minimise) eqn:Htest.
  - injection Hfind as <-. apply andb_true_iff in Htest as [Heq Hmin].
    exists 0%nat, g. repeat split; try done; [lia|]. intros j g' Hj. lia.
  - destruct (IH _ _ Hfind) as (k & g0 & -> & Hk & Heq & Hmin & Hfirst).
    exists (S k), g0. repeat split; try done; [lia|].
    intros [|j] g' Hj Hg'.
    + by injection Hg' as <-.
    + apply (Hfirst j); [lia|done].
Qed.

Lemma find_equal_None (f : Filter) (minimise : bool) (fs : list Filter) :
  forall (start : Z),
    find_equal f minimise start fs = None ->
    forall (j : nat) (g : Filter),
      fs !! j = Some g -> Filter_eq f g && minimise = false.
Proof.
  induction fs as [|g fs IH]; intros start Hfind j g' Hj; [done|].
  cbn [find_equal] in Hfind.
  destruct (Filter_eq f g && minimise) eqn:Htest; [done|].
  destruct j as [|j]; [by injection Hj as <-|].
  by apply (IH _ Hfind j).
Qed.

Lemma find_equal_disabled (f : Filter) (fs : list Filter) (start : Z) :
  find_equal f false start fs = None.
Proof.
  revert start. induction fs as [|g fs IH]; intros start; [done|].
  cbn [find_equal]. by rewrite andb_false_r.
Qed.

Lemma route_chosen_grow (minimise : bool) (width : option Z)
    (table : list Filter) (x : Filter) (spec : Signal * ReceptionParams)
    (route : keyspace * Z) :
  route_chosen minimise width table spec route ->
  route_chosen minimise width (table ++ [x]) spec route.
Proof.
  intros (Hkey & Hidx & (g & Hg & Heq) & Hfirst).
  pose proof (lookup_lt_Some _ _ _ Hg) as Hlt.
  repeat split; try done.
  - exists g. split; [|done]. by rewrite lookup_app_l.
  - intros j g' Hj Hg'. apply (Hfirst j); [done|].
    rewrite lookup_app_l in Hg' by lia. done.
Qed.

(** The loop of [make_filter_regions] keeps one route per input pair, each
    chosen as the specification says; with deduplication disabled the table
    holds the filter of every pair, and the indices count up from 0. *)
Lemma add_spec_invariant (minimise : bool) (width : option Z)
    (specs : list (Signal * ReceptionParams)) :
  let st := fold_left (add_spec minimise width) specs ([], []) in
  Forall2 (route_chosen minimise width st.1) specs st.2 /\
  (minimise = false ->
   st.1 = map (fun spec => from_parameters spec.1 spec.2 width) specs /\
   map snd st.2 = map Z.of_nat (seq 0 (length specs))).
Proof.
  cbv zeta. induction specs as [|[signal rp] specs IH] using rev_ind.
  - cbn. split; [constructor|done].
  - rewrite fold_left_app. cbn [fold_left].
    destruct (fold_left (add_spec minimise width) specs ([], []))
      as [table routes].
    cbn [fst snd] in IH. destruct IH as [Hroutes Hoff].
    unfold add_spec.
    set (f := from_parameters signal rp width).
    destruct (find_equal f minimise 0 table) as [index|] eqn:Hfind.
    + cbn [fst snd].
      destruct (find_equal_Some _ _ _ _ _ Hfind)
        as (k & g & -> & Hk & Heq & Hmin & Hfirst).
      split.
      * apply Forall2_app; [done|]. constructor; [|constructor].
        rewrite Z.add_0_l.
        repeat split; cbn [fst snd]; try done; [lia| |].
        -- exists g. rewrite Nat2Z.id. split; [done|]. by right.
        -- rewrite Nat2Z.id. exact Hfirst.
      * intros ->. done.
    + cbn [fst snd]. split.
      * apply Forall2_app.
        -- eapply Forall2_impl; [|exact Hroutes].
           intros spec route. apply route_chosen_grow.
        -- constructor; [|constructor].
           pose proof (len_nonneg table).
           assert (Z.to_nat (len table) = length table) as Hlen
             by (unfold len; lia).
           repeat split; cbn [fst snd]; try done.
           ++ exists f. rewrite Hlen. split; [|by left].
              by rewrite lookup_app_r, Nat.sub_diag.
           ++ rewrite Hlen. intros j g' Hj Hg'.
              rewrite lookup_app_l in Hg' by done.
              by apply (find_equal_None _ _ _ _ Hfind j).
      * intros Hmin. destruct (Hoff Hmin) as [Htable Hidx].
        rewrite !map_app, length_app, seq_app, map_app. cbn [map length seq].
        rewrite Hidx. split; [by rewrite Htable|].
        do 2 f_equal. rewrite Htable. unfold len. by rewrite length_map.
Qed.

(** What the loop of [make_filter_regions] keeps true of the table: it is a
    subsequence of the filters built for the input pairs; every entry is
    the filter built for some pair whose route carries the index of the
    entry; and with deduplication no entry compares equal to an earlier
    one. *)
Lemma table_invariant (minimise : bool) (width : option Z)
    (specs : list (Signal * ReceptionParams)) :
  let st := fold_left (add_spec minimise width) specs ([], []) in
  length st.2 = length specs /\
  st.1 `sublist_of` map (fun spec => from_parameters spec.1 spec.2 width) specs /\
  (forall (i : nat) (g : Filter),
     st.1 !! i = Some g ->
     exists (k : nat) signal rp,
       specs !! k = Some (signal, rp) /\
       g = from_parameters signal rp width /\
       st.2 !! k = Some (signal_keyspace signal, Z.of_nat i)) /\
  (minimise = true ->
   forall (i j : nat) (gi gj : Filter),
     (i < j)%nat -> st.1 !! i = Some gi -> st.1 !! j = Some gj ->
     Filter_eq gj gi = false).
Proof.
  cbv zeta. induction specs as [|[signal rp] specs IH] using rev_ind.
  - cbn. split; [done|]. split; [constructor|]. split; [done|]. intros _ i j gi gj _ Hi.
    done.
  - rewrite fold_left_app. cbn [fold_left].
    destruct (fold_left (add_spec minimise width) specs ([], []))
      as [table routes].
    cbn [fst snd] in IH. destruct IH as (Hlen & Hsub & Hrouted & Hdistinct).
    unfold add_spec.
    set (f := from_parameters signal rp width).
    rewrite map_app. cbn [map fst snd]. fold f.
    destruct (find_equal f minimise 0 table) as [index|] eqn:Hfind; cbn [fst snd].
    + split; [rewrite !length_app; cbn [length]; lia|].
      split; [by apply sublist_inserts_r|].
      split; [|done].
      intros i g Hi. destruct (Hrouted i g Hi) as (k & sg & r & Hk & Hg & Hr).
      exists k, sg, r.
      pose proof (lookup_lt_Some _ _ _ Hk). pose proof (lookup_lt_Some _ _ _ Hr).
      by rewrite !lookup_app_l by done.
    + split; [rewrite !length_app; cbn [length]; lia|].
      split; [by apply sublist_app|].
      split.
      * intros i g Hi.
        destruct (decide (i < length table)%nat) as [Hlt|Hge].
        -- rewrite lookup_app_l in Hi by done.
           destruct (Hrouted i g Hi) as (k & sg & r & Hk & Hg & Hr).
           exists k, sg, r.
           pose proof (lookup_lt_Some _ _ _ Hk). pose proof (lookup_lt_Some _ _ _ Hr).
           by rewrite !lookup_app_l by done.
        -- pose proof (lookup_lt_Some _ _ _ Hi) as Hb.
           rewrite length_app in Hb. cbn [length] in Hb.
           assert (i = length table) as -> by lia.
           rewrite lookup_app_r, Nat.sub_diag in Hi by done.
           injection Hi as <-.
           exists (length specs), signal, rp.
           rewrite lookup_app_r, Nat.sub_diag by done.
           split; [done|]. split; [done|].
           rewrite <-Hlen, lookup_app_r, Nat.sub_diag by done. done.
      * intros Hmin i j gi gj Hij Hi Hj.
        pose proof (lookup_lt_Some _ _ _ Hj) as Hb.
        rewrite length_app in Hb. cbn [length] in Hb.
        rewrite lookup_app_l in Hi by lia.
        destruct (decide (j < length table)%nat) as [Hlt|Hge].
        -- rewrite lookup_app_l in Hj by done. by apply (Hdistinct Hmin i j).
        -- assert (j = length table) as -> by lia.
           rewrite lookup_app_r, Nat.sub_diag in Hj by done.
           injection Hj as <-.
           pose proof (find_equal_None _ _ _ _ Hfind i gi Hi) as Hne.
           rewrite Hmin, andb_true_r in Hne. done.
Qed.

(** The search finds nothing exactly when deduplication is disabled or no
    entry of the table compares equal to the filter. *)
Lemma find_equal_existsb (f : Filter) (minimise : bool) (fs : list Filter) :
  forall start : Z,
    find_equal f minimise start fs = None <->
    minimise && existsb (Filter_eq f) fs = false.
Proof.
  induction fs as [|g fs IH]; intros start.
  - cbn. by rewrite andb_false_r.
  - cbn [find_equal existsb].
    destruct (Filter_eq f g), minimise; cbn [andb orb].
    + by split.
    + split; [done|]. intros _. apply find_equal_disabled.
    + apply IH.
    + split; [done|]. intros _. apply find_equal_disabled.
Qed.

(** The loop only appends: to the table and to the routes. *)
Lemma add_spec_extends (minimise : bool) (width : option Z)
    (specs : list (Signal * ReceptionParams)) :
  forall st : list Filter * list (keyspace * Z),
    exists (fs : list Filter) (rs : list (keyspace * Z)),
      fold_left (add_spec minimise width) specs st = (st.1 ++ fs, st.2 ++ rs).
Proof.
  induction specs as [|[signal rp] specs IH]; intros [table routes].
  - exists [], []. cbn. by rewrite !app_nil_r.
  - cbn [fold_left]. unfold add_spec at 2.
    destruct (find_equal _ minimise 0 table) as [index|].
    + destruct (IH (table, routes ++ [(signal_keyspace signal, index)]))
        as (fs & rs & ->).
      exists fs, ((signal_keyspace signal, index) :: rs).
      cbn [fst snd]. by rewrite <-app_assoc.
    + destruct (IH (table ++ [from_parameters signal rp width],
                    routes ++ [(signal_keyspace signal, len table)]))
        as (fs & rs & ->).
      exists (from_parameters signal rp width :: fs),
        ((signal_keyspace signal, len table) :: rs).
      cbn [fst snd]. by rewrite <-!app_assoc.
Qed.

(** One iteration of the loop, on the pair of index [k]: when
    deduplication is enabled and an entry of the table built so far
    compares equal to the filter of the pair, the table is left as it is
    and the route gets the index of an entry; otherwise the filter is
    appended and the route gets its index, the length of the table so
    far. *)
Lemma add_spec_step (minimise : bool) (width : option Z)
    (specs : list (Signal * ReceptionParams)) (k : nat)
    (signal : Signal) (rp : ReceptionParams) :
  specs !! k = Some (signal, rp) ->
  let f := from_parameters signal rp width in
  let before := fold_left (add_spec minimise width) (take k specs) ([], []) in
  let after := fold_left (add_spec minimise width) (take (S k) specs) ([], []) in
  let st := fold_left (add_spec minimise width) specs ([], []) in
  exists index : Z,
    st.2 !! k = Some (signal_keyspace signal, index) /\
    if minimise && existsb (Filter_eq f) before.1
    then after.1 = before.1 /\ 0 <= index < len before.1
    else after.1 = before.1 ++ [f] /\ index = len before.1.
Proof.
  intros Hk. cbv zeta.
  pose proof (lookup_lt_Some _ _ _ Hk) as Hlt.
  pose proof (table_invariant minimise width (take k specs)) as Hinv.
  cbv zeta in Hinv. destruct Hinv as (Hlen & _).
  rewrite length_take, Nat.min_l in Hlen by lia.
  assert (fold_left (add_spec minimise width) specs ([], [])
          = fold_left (add_spec minimise width) (drop (S k) specs)
              (fold_left (add_spec minimise width) (take (S k) specs) ([], [])))
    as -> by (by rewrite <-fold_left_app, take_drop).
  destruct (add_spec_extends minimise width (drop (S k) specs)
              (fold_left (add_spec minimise width) (take (S k) specs) ([], [])))
    as (fs & rs & ->).
  cbn [snd].
  rewrite (take_S_r _ _ _ Hk), fold_left_app. cbn [fold_left].
  destruct (fold_left (add_spec minimise width) (take k specs) ([], []))
    as [table routes].
  cbn [fst snd] in *. unfold add_spec.
  destruct (find_equal (from_parameters signal rp width) minimise 0 table)
    as [index|] eqn:Hfind.
  - exists index. cbn [fst snd].
    split; [by rewrite lookup_app_l, lookup_app_r, Hlen, Nat.sub_diag
              by (rewrite ?length_app; cbn [length]; lia)|].
    destruct (minimise && existsb _ table) eqn:Hany;
      [|apply find_equal_existsb with (start := 0) in Hany; congruence].
    split; [done|].
    destruct (find_equal_Some _ _ _ _ _ Hfind) as (j & g & -> & Hj & _).
    apply lookup_lt_Some in Hj. unfold len. lia.
  - exists (len table). cbn [fst snd].
    split; [by rewrite lookup_app_l, lookup_app_r, Hlen, Nat.sub_diag
              by (rewrite ?length_app; cbn [length]; lia)|].
    apply find_equal_existsb in Hfind. by rewrite Hfind.
Qed.

(** The table and the routes of the two regions are those of the loop. *)
Lemma make_filter_regions_loop (specs : list (Signal * ReceptionParams))
    (dt : float) (minimise : bool) (tag field : string) (width : option Z) :
  filters (make_filter_regions specs dt minimise tag field width).1
    = (fold_left (add_spec minimise width) specs ([], [])).1 /\
  keyspace_routes (make_filter_regions specs dt minimise tag field width).2
    = (fold_left (add_spec minimise width) specs ([], [])).2.
Proof.
  unfold make_filter_regions.
  by destruct (fold_left (add_spec minimise width) specs ([], [])).
Qed.

(** C3: [make_filter_regions] records one route per input pair, in the
    order of the pairs, each with the routing key of the signal.  The index
    of the route points at a table entry that is the filter built for the
    pair or, only when deduplication is enabled, one that [==] finds equal
    to it, and it is the first such entry of the table.  [==] holds only
    between filters of the same variant, width and latching flag whose
    parameters compare equal one by one.  With deduplication disabled the
    table holds one entry per pair, and the [k]-th route has index [k].
    The table is built pair by pair: with the table of the pairs before the
    [k]-th, the table after the [k]-th is the same table when deduplication
    is enabled and one of its entries compares equal to the filter of the
    pair, and the route then has the index of an entry of it; otherwise it
    is that table with the filter appended, and the route has the index of
    the new entry.  So the table is a subsequence of the filters built for
    the pairs, each of its entries is the filter of a pair whose route
    carries its index, and with deduplication enabled no entry compares
    equal to one before it. *)
Theorem make_filter_regions_routes (specs : list (Signal * ReceptionParams))
    (dt : float) (minimise : bool) (tag field : string) (width : option Z) :
  let regions := make_filter_regions specs dt minimise tag field width in
  let table := filters regions.1 in
  let routes := keyspace_routes regions.2 in
  map fst routes = map (fun spec => signal_keyspace spec.1) specs /\
  (forall (k : nat) (signal : Signal) (rp : ReceptionParams),
     specs !! k = Some (signal, rp) ->
     let f := from_parameters signal rp width in
     exists (index : Z) (g : Filter),
       routes !! k = Some (signal_keyspace signal, index) /\
       0 <= index /\
       table !! Z.to_nat index = Some g /\
       (g = f \/ (minimise = true /\ Filter_eq f g = true)) /\
       (forall (j : nat) (g' : Filter),
          (j < Z.to_nat index)%nat -> table !! j = Some g' ->
          Filter_eq f g' && minimise = false)) /\
  (forall f g : Filter, Filter_eq f g = true <-> exactly_equal f g) /\
  (minimise = false ->
     table = map (fun spec => from_parameters spec.1 spec.2 width) specs /\
     map snd routes = map Z.of_nat (seq 0 (length specs))) /\
  (forall (k : nat) (signal : Signal) (rp : ReceptionParams),
     specs !! k = Some (signal, rp) ->
     let f := from_parameters signal rp width in
     let before :=
       filters (make_filter_regions (take k specs) dt minimise tag field
                  width).1 in
     let after :=
       filters (make_filter_regions (take (S k) specs) dt minimise tag field
                  width).1 in
     exists index : Z,
       routes !! k = Some (signal_keyspace signal, index) /\
       if minimise && existsb (Filter_eq f) before
       then after = before /\ 0 <= index < len before
       else after = before ++ [f] /\ index = len before) /\
  table `sublist_of` map (fun spec => from_parameters spec.1 spec.2 width) specs /\
  (forall (i : nat) (g : Filter),
     table !! i = Some g ->
     exists (k : nat) (signal : Signal) (rp : ReceptionParams),
       specs !! k = Some (signal, rp) /\
       g = from_parameters signal rp width /\
       routes !! k = Some (signal_keyspace signal, Z.of_nat i)) /\
  (minimise = true ->
   forall (i j : nat) (gi gj : Filter),
     (i < j)%nat -> table !! i = Some gi -> table !! j = Some gj ->
     Filter_eq gj gi = false).
Proof.
  cbv zeta.
  destruct (make_filter_regions_loop specs dt minimise tag field width)
    as [-> ->].
  pose proof (add_spec_invariant minimise width specs) as Hinv.
  pose proof (table_invariant minimise width specs) as Htab.
  pose proof (add_spec_step minimise width specs) as Hstep.
  cbv zeta in Hinv, Htab, Hstep.
  destruct Hinv as [Hroutes Hoff].
  destruct Htab as (_ & Hsub & Hrouted & Hdistinct).
  split; [|split; [|split; [apply Filter_eq_exact|split; [exact Hoff|]]]].
  - clear Hoff Hsub Hrouted Hdistinct Hstep.
    induction Hroutes as [|spec route specs' routes Hr _ IH];
      [done|].
    cbn [map]. f_equal; [|done]. by destruct Hr as [-> _].
  - intros k signal rp Hk.
    destruct (Forall2_lookup_l _ _ _ _ _ Hroutes Hk)
      as ([ks index] & Hroute & Hkey & Hidx & (g & Hg & Heq) & Hfirst).
    cbn [fst snd] in *. subst ks.
    by exists index, g.
  - split; [|split; [exact Hsub|split; [exact Hrouted|exact Hdistinct]]].
    intros k signal rp Hk.
    destruct (make_filter_regions_loop (take k specs) dt minimise tag field
                width) as [-> _].
    destruct (make_filter_regions_loop (take (S k) specs) dt minimise tag
                field width) as [-> _].
    by apply Hstep.
Qed.

End DedupFacts.

(* ===================================================================== *)
(** * Facts about the partitioner                                         *)
(* ===================================================================== *)

Section PartitionFacts.
Import Partition.

(** With enough fuel the search ends on a length of the interval that
    passed the test, unless it is the lower end, and whose successor failed
    it, unless it is the upper end. *)
Lemma bsearch_spec (test : Z -> bool) (fuel : nat) :
  forall lo hi : Z,
    lo <= hi -> hi - lo <= Z.of_nat fuel ->
    let r := bsearch fuel test lo hi in
    lo <= r <= hi /\
    (r <> lo -> test r = true) /\
    (r <> hi -> test (r + 1) = false).
Proof.
  induction fuel as [|fuel IH]; intros lo hi Hle Hfuel; cbn [bsearch].
  - cbv zeta. repeat split; lia.
  - destruct (hi <=? lo) eqn:Hcmp; [cbv zeta; repeat split; lia|].
    cbv zeta.
    assert (lo < (lo + hi + 1) / 2 <= hi) as Hmid
      by (Z.div_mod_to_equations; lia).
    set (mid := (lo + hi + 1) / 2) in *.
    destruct (test mid) eqn:Htest.
    + destruct (IH mid hi) as (Hr & Hlo & Hhi); [lia..|].
      cbv zeta in *. set (r := bsearch fuel test mid hi) in *.
      repeat split; try lia; [|done].
      intros _. destruct (decide (r = mid)) as [->|Hne]; [done|by apply Hlo].
    + destruct (IH lo (mid - 1)) as (Hr & Hlo & Hhi); [lia..|].
      cbv zeta in *. set (r := bsearch fuel test lo (mid - 1)) in *.
      repeat split; try lia; [done|].
      intros _. destruct (decide (r = mid - 1)) as [->|Hne].
      * by replace (mid - 1 + 1) with mid by lia.
      * by apply Hhi.
Qed.

(** When no length above the lower end passes, the search stays there. *)
Lemma bsearch_none (test : Z -> bool) (fuel : nat) :
  forall lo hi : Z,
    (forall L, lo < L <= hi -> test L = false) ->
    bsearch fuel test lo hi = lo.
Proof.
  induction fuel as [|fuel IH]; intros lo hi Hnone; cbn [bsearch]; [done|].
  destruct (hi <=? lo) eqn:Hcmp; [done|]. cbv zeta.
  assert (lo < (lo + hi + 1) / 2 <= hi) as Hmid
    by (Z.div_mod_to_equations; lia).
  rewrite Hnone by done. apply IH. intros L HL. apply Hnone. lia.
Qed.

Lemma largest_length_spec (cursor stop : Z) (cf : Constraint * (slice -> Q)) :
  cursor <= stop ->
  let L := largest_length cursor stop cf in
  0 <= L <= stop - cursor /\
  (L <> 0 -> within cf cursor L = true) /\
  (L <> stop - cursor -> within cf cursor (L + 1) = false).
Proof.
  intros Hle. unfold largest_length.
  apply (bsearch_spec (within cf cursor)); lia.
Qed.

Lemma chunk_length_bounds (cs : constraints) (cursor stop : Z) :
  cursor < stop ->
  (forall cf, cf ∈ cs -> 1 <= largest_length cursor stop cf) ->
  1 <= chunk_length cs cursor stop <= stop - cursor.
Proof.
  intros Hlt. unfold chunk_length.
  induction cs as [|cf cs IH]; intros Hall; cbn [map foldr]; [lia|].
  assert (1 <= largest_length cursor stop cf) by (apply Hall; left).
  destruct IH as [IH1 IH2]; [intros cf' Hcf'; apply Hall; by right|]. lia.
Qed.

Lemma find_offending (cs : constraints) (cursor stop : Z) :
  cursor <= stop ->
  match List.find (fun cf => largest_length cursor stop cf <=? 0) cs with
  | Some cf => cf ∈ cs /\ largest_length cursor stop cf = 0
  | None => forall cf, cf ∈ cs -> 1 <= largest_length cursor stop cf
  end.
Proof.
  intros Hle.
  destruct (List.find _ cs) as [cf|] eqn:Hfind.
  - apply find_some in Hfind as [Hin Hz]. split; [by apply list_elem_of_In|].
    pose proof (largest_length_spec cursor stop cf Hle) as [? _]. lia.
  - intros cf Hcf. apply list_elem_of_In in Hcf.
    pose proof (find_none _ _ Hfind cf Hcf) as Hz. cbv beta in Hz. lia.
Qed.

(** Facts about chains of chunks. *)
Lemma chain_bounds (chunks : list slice) :
  forall lo hi, chain lo hi chunks ->
    lo <= hi /\
    Forall (fun c => lo <= start c /\ start c < stop c /\ stop c <= hi) chunks.
Proof.
  induction chunks as [|c chunks IH]; intros lo hi Hchain; cbn [chain] in Hchain.
  - split; [lia|constructor].
  - destruct Hchain as (Hs & Hlt & Hrest).
    destruct (IH _ _ Hrest) as [Hle Hall]. split; [lia|].
    constructor; [lia|].
    eapply Forall_impl; [|exact Hall]. cbv beta. intros c'. lia.
Qed.

Lemma chain_adjacent (chunks : list slice) :
  forall lo hi (i : nat) (c1 c2 : slice),
    chain lo hi chunks ->
    chunks !! i = Some c1 -> chunks !! S i = Some c2 ->
    stop c1 = start c2.
Proof.
  induction chunks as [|c chunks IH]; intros lo hi i c1 c2 Hchain H1 H2; [done|].
  cbn [chain] in Hchain. destruct Hchain as (Hs & Hlt & Hrest).
  destruct i as [|i].
  - injection H1 as <-. cbn [lookup list_lookup] in H2.
    destruct chunks as [|c' chunks]; [done|]. injection H2 as <-.
    cbn [chain] in Hrest. by destruct Hrest as [-> _].
  - by apply (IH _ _ i c1 c2 Hrest).
Qed.

Lemma chain_ordered (chunks : list slice) :
  forall lo hi (i j : nat) (ci cj : slice),
    chain lo hi chunks -> (i < j)%nat ->
    chunks !! i = Some ci -> chunks !! j = Some cj ->
    stop ci <= start cj.
Proof.
  induction chunks as [|c chunks IH]; intros lo hi i j ci cj Hchain Hij Hi Hj;
    [done|].
  cbn [chain] in Hchain. destruct Hchain as (Hs & Hlt & Hrest).
  destruct j as [|j]; [lia|]. cbn [lookup list_lookup] in Hj.
  destruct i as [|i].
  - injection Hi as <-.
    destruct (chain_bounds _ _ _ Hrest) as [_ Hall].
    rewrite Forall_lookup in Hall. specialize (Hall j cj Hj). cbv beta in Hall. lia.
  - apply (IH _ _ i j ci cj Hrest); [lia|done..].
Qed.

Lemma chain_cover (chunks : list slice) :
  forall lo hi, chain lo hi chunks ->
    forall k, (exists c, c ∈ chunks /\ start c <= k < stop c) <-> lo <= k < hi.
Proof.
  induction chunks as [|c chunks IH]; intros lo hi Hchain k; cbn [chain] in Hchain.
  - split; [|lia]. intros (c & Hc & _). by apply elem_of_nil in Hc.
  - destruct Hchain as (Hs & Hlt & Hrest).
    destruct (chain_bounds _ _ _ Hrest) as [Hle _].
    specialize (IH _ _ Hrest k). split.
    + intros (c' & Hc' & Hk). apply elem_of_cons in Hc' as [->|Hc'].
      * lia.
      * assert (stop c <= k < hi) by (apply IH; eauto). lia.
    + intros Hk. destruct (decide (k < stop c)) as [Hin|Hout].
      * exists c. split; [left|lia].
      * destruct IH as [_ IH]. destruct IH as (c' & Hc' & Hk'); [lia|].
        exists c'. split; [by right|done].
Qed.

(** The end of a chain is its start or the end of one of its chunks, and
    every such position before the end is the start of a chunk. *)
Lemma chain_end (chunks : list slice) :
  forall lo hi, chain lo hi chunks -> hi ∈ lo :: map stop chunks.
Proof.
  induction chunks as [|c chunks IH]; intros lo hi Hchain; cbn [chain] in Hchain.
  - subst. left.
  - destruct Hchain as (_ & _ & Hrest). right. cbn [map]. by apply (IH (stop c)).
Qed.

Lemma chain_cursor (chunks : list slice) :
  forall lo hi k, chain lo hi chunks ->
    k ∈ lo :: map stop chunks -> k < hi ->
    exists c, c ∈ chunks /\ start c = k.
Proof.
  induction chunks as [|c chunks IH]; intros lo hi k Hchain Hk Hlt;
    cbn [chain] in Hchain.
  - cbn [map] in Hk. apply list_elem_of_singleton in Hk. lia.
  - destruct Hchain as (Hs & Hpos & Hrest).
    apply elem_of_cons in Hk as [->|Hk].
    + exists c. split; [left|done].
    + cbn [map] in Hk. destruct (IH _ _ k Hrest Hk Hlt) as (c' & Hc' & Hst).
      exists c'. split; [by right|done].
Qed.

(** [L*] is 0 exactly when some constraint allows no positive length, which
    is the test the model makes before it emits a chunk. *)
Lemma chunk_length_zero (cs : constraints) (cursor stop : Z) :
  cursor < stop ->
  chunk_length cs cursor stop = 0 <->
  exists cf, cf ∈ cs /\ largest_length cursor stop cf = 0.
Proof.
  intros Hlt. unfold chunk_length.
  induction cs as [|cf cs IH]; cbn [map foldr].
  - split; [lia|]. intros (cf & Hcf & _). by apply elem_of_nil in Hcf.
  - pose proof (largest_length_spec cursor stop cf ltac:(lia)) as [Hcf _].
    assert (0 <= foldr Z.min (stop - cursor) (map (largest_length cursor stop) cs))
      as Hrest.
    { clear IH. induction cs as [|cf' cs IH']; cbn [map foldr]; [lia|].
      pose proof (largest_length_spec cursor stop cf' ltac:(lia)) as [? _]. lia. }
    split.
    + intros Hmin.
      destruct (decide (largest_length cursor stop cf = 0)) as [Hz|Hnz].
      * exists cf. split; [left|done].
      * destruct IH as [IH _]. destruct IH as (cf' & Hin & Hz); [lia|].
        exists cf'. split; [by right|done].
    + intros (cf' & Hin & Hz). apply elem_of_cons in Hin as [->|Hin]; [lia|].
      destruct IH as [_ IH]. rewrite IH by eauto. lia.
Qed.

(** The partitioner never runs out of the fuel [partition] gives it. *)
Lemma partition_from_total (cs : constraints) (stop : Z) (fuel : nat) :
  forall cursor : Z,
    stop - cursor <= Z.of_nat fuel ->
    exists res, partition_from fuel cs cursor stop = Some res.
Proof.
  induction fuel as [|fuel IH]; intros cursor Hfuel.
  - cbn [partition_from]. destruct (stop <=? cursor) eqn:Hcmp; [eauto|lia].
  - cbn [partition_from]. destruct (stop <=? cursor) eqn:Hcmp; [eauto|].
    pose proof (find_offending cs cursor stop ltac:(lia)) as Hfind.
    destruct (List.find _ cs) as [cf|]; [eauto|].
    pose proof (chunk_length_bounds cs cursor stop ltac:(lia) Hfind) as HL.
    destruct (IH (cursor + chunk_length cs cursor stop)) as [[chunks err] ->];
      [lia|eauto].
Qed.

(** What the partitioner returns: on success a chain of chunks from the
    cursor to the end of the range; on failure a chain up to the cursor of
    the error, which lies before the end of the range and at which the
    constraint of the error allows no positive length.  Every chunk starts
    where every constraint allowed a positive length. *)
Lemma partition_from_spec (cs : constraints) (stop : Z) (fuel : nat) :
  forall (cursor : Z) (chunks : list slice) (err : option UnpartitionableError),
    partition_from fuel cs cursor stop = Some (chunks, err) ->
    match err with
    | None => (stop <= cursor /\ chunks = []) \/ chain cursor stop chunks
    | Some (Unpartitionable c k) =>
        chain cursor k chunks /\ k < stop /\
        exists cf, cf ∈ cs /\ cf.1 = c /\ largest_length k stop cf = 0
    end /\
    Forall (fun ch => forall cf, cf ∈ cs ->
                        1 <= largest_length (Partition.start ch) stop cf)
           chunks.
Proof.
  induction fuel as [|fuel IH]; intros cursor chunks err Hpart;
    cbn [partition_from] in Hpart;
    (destruct (stop <=? cursor) eqn:Hcmp;
       [injection Hpart as <- <-; split; [left; split; [lia|done]|constructor]|]);
    [done|].
  pose proof (find_offending cs cursor stop ltac:(lia)) as Hfind.
  destruct (List.find _ cs) as [cf|].
  - injection Hpart as <- <-. destruct Hfind as [Hin Hz].
    split; [|constructor].
    split; [reflexivity|]. split; [lia|]. by exists cf.
  - pose proof (chunk_length_bounds cs cursor stop ltac:(lia) Hfind) as HL.
    set (L := chunk_length cs cursor stop) in *.
    destruct (partition_from fuel cs (cursor + L) stop) as [[chunks' err']|] eqn:Hrec;
      [|done].
    injection Hpart as <- <-.
    destruct (IH _ _ _ Hrec) as [Herr Hall].
    split; [|by constructor].
    destruct err' as [[c k]|].
    + destruct Herr as (Hchain & Hk & Hcf).
      split; [|done]. cbn [chain Partition.start Partition.stop].
      split; [done|]. split; [lia|done].
    + right. cbn [chain Partition.start Partition.stop].
      split; [done|]. split; [lia|].
      destruct Herr as [[Hend ->]|Hchain]; [cbn [chain]; lia|done].
Qed.

(** C4: when partitioning succeeds, every chunk emitted has positive length
    and lies inside the input range, every chunk starts where the chunk
    before it ends, a chunk that comes later lies to the right of one that
    comes earlier, and an index belongs to some chunk exactly when it
    belongs to the input range. *)
Theorem partition_coverage (r : slice) (cs : constraints) (chunks : list slice) :
  partition r cs = Some (chunks, None) ->
  Forall (fun c => Partition.start c < Partition.stop c) chunks /\
  Forall (fun c => Partition.start r <= Partition.start c /\
                   Partition.stop c <= Partition.stop r) chunks /\
  (forall (i : nat) (c1 c2 : slice),
     chunks !! i = Some c1 -> chunks !! S i = Some c2 ->
     Partition.stop c1 = Partition.start c2) /\
  (forall (i j : nat) (ci cj : slice),
     (i < j)%nat -> chunks !! i = Some ci -> chunks !! j = Some cj ->
     Partition.stop ci <= Partition.start cj) /\
  (forall k : Z,
     (exists c, c ∈ chunks /\ Partition.start c <= k < Partition.stop c) <->
     Partition.start r <= k < Partition.stop r).
Proof.
  unfold partition. intros Hpart.
  apply partition_from_spec in Hpart as [Herr _].
  cbv iota beta in Herr.
  destruct Herr as [[Hempty Hnil]|Hchain]; [subst chunks|].
  - split; [constructor|]. split; [constructor|].
    split; [done|]. split; [done|].
    intros k. split; [|lia].
    intros (c & Hc & _). by apply elem_of_nil in Hc.
  - destruct (chain_bounds _ _ _ Hchain) as [_ Hall].
    split; [|split; [|split; [|split]]].
    + eapply Forall_impl; [|exact Hall]. cbv beta. intros c. lia.
    + eapply Forall_impl; [|exact Hall]. cbv beta. intros c. lia.
    + intros i c1 c2. by apply (chain_adjacent chunks _ _ i c1 c2 Hchain).
    + intros i j ci cj. by apply (chain_ordered chunks _ _ i j ci cj Hchain).
    + by apply chain_cover.
Qed.

Lemma within_one_true (cs : constraints) (cf : Constraint * (slice -> Q))
    (cursor stop : Z) :
  monotone cs -> cf ∈ cs -> cursor <= stop ->
  1 <= largest_length cursor stop cf ->
  within cf cursor 1 = true.
Proof.
  intros Hmono Hcf Hle HL.
  destruct (largest_length_spec cursor stop cf Hle) as (Hrange & Hpass & _).
  specialize (Hpass ltac:(lia)).
  unfold within in *. apply Qle_bool_iff. apply Qle_bool_iff in Hpass.
  eapply Qle_trans; [|exact Hpass].
  apply (Hmono cf cursor 1 (largest_length cursor stop cf) Hcf). lia.
Qed.

Lemma within_one_false (cf : Constraint * (slice -> Q)) (cursor stop : Z) :
  cursor < stop -> largest_length cursor stop cf = 0 ->
  within cf cursor 1 = false.
Proof.
  intros Hlt HL.
  destruct (largest_length_spec cursor stop cf ltac:(lia)) as (_ & _ & Hfail).
  rewrite HL in Hfail. apply Hfail. lia.
Qed.

(** C5: the partitioner always returns, and under monotone estimators it
    ends with an Unpartitionable error exactly when, at one of the cursors
    it searches from, a chunk of length 1 exceeds the budget of some
    constraint; the error names such a constraint and such a cursor.  With
    the single constraint of maximum 50 and target 1 and the estimator
    [length + 100], every non-empty range fails at its start, before any
    chunk is emitted. *)
Theorem partition_unpartitionable :
  (forall (r : slice) (cs : constraints),
     monotone cs ->
     exists chunks err,
       partition r cs = Some (chunks, err) /\
       ((exists c k, err = Some (Unpartitionable c k)) <->
        (exists k cf, k ∈ cursors r chunks /\ cf ∈ cs /\
                      within cf k 1 = false)) /\
       (forall c k, err = Some (Unpartitionable c k) ->
          k ∈ cursors r chunks /\
          exists f, (c, f) ∈ cs /\ within (c, f) k 1 = false)) /\
  (forall lo hi : Z,
     lo < hi ->
     let c := {| maximum := 50; target := 1 |} in
     partition {| Partition.start := lo; Partition.stop := hi |}
       [(c, fun s => inject_Z (Partition.stop s - Partition.start s + 100))]
     = Some ([], Some (Unpartitionable c lo))).
Proof.
  split.
  - intros r cs Hmono.
    destruct (partition_from_total cs (Partition.stop r)
                (Z.to_nat (Partition.stop r - Partition.start r))
                (Partition.start r) ltac:(lia)) as [[chunks err] Hpart].
    exists chunks, err. split; [exact Hpart|].
    destruct (partition_from_spec _ _ _ _ _ _ Hpart) as [Herr Hall].
    assert (forall c k, err = Some (Unpartitionable c k) ->
              k ∈ cursors r chunks /\
              exists f, (c, f) ∈ cs /\ within (c, f) k 1 = false) as Hcarried.
    { intros c k ->. destruct Herr as (Hchain & Hk & [c' f] & Hcf & Hc & HL).
      cbn [fst] in Hc. subst c'. split.
      - apply list_elem_of_filter. split; [done|]. by apply chain_end.
      - exists f. split; [done|]. by apply (within_one_false _ k (Partition.stop r)). }
    split; [|exact Hcarried]. split.
    + intros (c & k & Herror).
      destruct (Hcarried c k Herror) as (Hk & f & Hcf & Hone).
      by exists k, (c, f).
    + intros (k & cf & Hk & Hcf & Hone).
      destruct err as [[c k']|]; [eauto|]. exfalso.
      apply list_elem_of_filter in Hk as [Hlt Hk].
      destruct Herr as [[Hempty ->]|Hchain].
      * cbn [map] in Hk. apply list_elem_of_singleton in Hk. lia.
      * destruct (chain_cursor _ _ _ k Hchain Hk Hlt) as (ch & Hch & <-).
        pose proof Hch as Hin. apply list_elem_of_In in Hin.
        rewrite Forall_forall in Hall.
        pose proof (Hall ch Hin cf Hcf) as HL.
        destruct (chain_bounds _ _ _ Hchain) as [_ Hb].
        rewrite Forall_forall in Hb. specialize (Hb ch Hin). cbv beta in Hb.
        rewrite (within_one_true cs cf _ (Partition.stop r)) in Hone;
          [done|done|done|lia|done].
  - intros lo hi Hlt c. unfold partition.
    cbn [Partition.start Partition.stop].
    destruct (Z.to_nat (hi - lo)) as [|fuel] eqn:Hfuel; [lia|].
    cbn [partition_from].
    assert ((hi <=? lo) = false) as -> by lia.
    unfold largest_length at 1. cbn [List.find].
    rewrite bsearch_none; [reflexivity|].
    intros L HL. unfold within, max_usage.
    cbn [fst snd maximum target Partition.start Partition.stop].
    destruct (Qle_bool _ _) eqn:Hq; [|done].
    apply Qle_bool_iff in Hq. unfold Qle in Hq.
    cbn in Hq. lia.
Qed.

End PartitionFacts.

(* ===================================================================== *)
(** * Facts about cluster assignment                                      *)
(* ===================================================================== *)

Section ClusterFacts.
Context {location : Type} `{Countable location}.
Import Cluster.

Implicit Types (placements : gmap vertex location) (g seen : list vertex)
  (clusters : gmap vertex nat) (groups : list (list vertex)).

Lemma elem_of_locations placements g (loc : location) :
  loc ∈ locations placements g <-> exists v, v ∈ g /\ placements !! v = Some loc.
Proof. unfold locations. by rewrite elem_of_list_to_set, list_elem_of_omap. Qed.

Lemma locations_snoc placements seen (v : vertex) (loc : location) :
  placements !! v = Some loc ->
  locations placements (seen ++ [v]) = locations placements seen ∪ {[loc]}.
Proof.
  intros Hv. unfold locations. rewrite omap_app, list_to_set_app_L.
  cbn [omap list_omap]. rewrite Hv. cbn. f_equal. apply (right_id_L ∅ (∪)).
Qed.

Lemma group_inv_init placements clusters :
  group_inv placements clusters [] (∅, clusters).
Proof.
  unfold group_inv. cbn [fst snd].
  split; [by rewrite dom_empty_L|].
  split; [intros loc c Hc; by rewrite lookup_empty in Hc|].
  split; [intros c Hc; rewrite map_size_empty in Hc; lia|].
  split; [intros l1 l2 c Hc; by rewrite lookup_empty in Hc|].
  split; [intros i v loc Hi; by rewrite lookup_nil in Hi|].
  split; [intros v Hv; by apply elem_of_nil in Hv|done].
Qed.

(** One member more: the step of the loop keeps the invariant. *)
Lemma assign_slice_inv placements clusters0 seen
    (st : gmap location nat * gmap vertex nat) (v : vertex) (loc : location) :
  placements !! v = Some loc ->
  group_inv placements clusters0 seen st ->
  exists st', assign_slice placements st v = ok st' /\
              group_inv placements clusters0 (seen ++ [v]) st'.
Proof.
  intros Hv (Hdom & Hbound & Hsurj & Hinj & Hfirst & Hseen & Hframe).
  destruct st as [ids clusters]. cbn [fst snd] in *.
  unfold assign_slice. rewrite Hv. cbn [fst snd].
  assert (forall i, (i < length seen)%nat ->
            take i (seen ++ [v]) = take i seen) as Htake
    by (intros i Hi; by rewrite take_app_le by lia).
  destruct (ids !! loc) as [c|] eqn:Hloc.
  - eexists. split; [reflexivity|]. unfold group_inv. cbn [fst snd].
    assert (loc ∈ dom ids) as Hin by (apply elem_of_dom; eauto).
    split.
    { rewrite (locations_snoc _ _ _ _ Hv), <-Hdom, (comm_L (∪)).
      symmetry. apply subseteq_union_1_L. by apply singleton_subseteq_l. }
    do 3 (split; [done|]).
    split; [|split].
    + intros i v' loc' Hi Hv' Hnew.
      destruct (decide (i < length seen)%nat) as [Hlt|Hge].
      * rewrite Htake in Hnew |- * by done.
        rewrite lookup_app_l in Hi by done. by apply (Hfirst i v').
      * pose proof (lookup_lt_Some _ _ _ Hi) as Hlen.
        rewrite length_app in Hlen. cbn [length] in Hlen.
        assert (i = length seen) as -> by lia.
        rewrite lookup_app_r, Nat.sub_diag in Hi by done.
        injection Hi as <-. rewrite Hv in Hv'. injection Hv' as <-.
        rewrite take_app_length in Hnew. rewrite <-Hdom in Hnew. done.
    + intros v' Hv'. apply elem_of_app in Hv' as [Hv'|Hv'].
      * destruct (Hseen v' Hv') as (loc' & c' & Hp & Hids & Hcl).
        exists loc', c'. split; [done|]. split; [done|].
        destruct (decide (v = v')) as [->|Hne].
        -- rewrite lookup_insert_eq. rewrite Hv in Hp. injection Hp as <-.
           congruence.
        -- by rewrite lookup_insert_ne.
      * apply list_elem_of_singleton in Hv' as ->.
        exists loc, c. by rewrite lookup_insert_eq.
    + intros v' Hv'. apply not_elem_of_app in Hv' as [Hv1 Hv2].
      rewrite lookup_insert_ne by (intros ->; apply Hv2; left).
      by apply Hframe.
  - eexists. split; [reflexivity|]. unfold group_inv. cbn [fst snd].
    assert (loc ∉ dom ids) as Hnotin by by apply not_elem_of_dom.
    rewrite map_size_insert_None by done.
    split.
    { rewrite (locations_snoc _ _ _ _ Hv), dom_insert_L, Hdom.
      apply (comm_L (∪)). }
    split; [|split; [|split; [|split; [|split]]]].
    + intros loc' c'. destruct (decide (loc = loc')) as [<-|Hne].
      * rewrite lookup_insert_eq. intros [= <-]. lia.
      * rewrite lookup_insert_ne by done. intros Hc'.
        specialize (Hbound _ _ Hc'). lia.
    + intros c Hc. destruct (decide (c = size ids)) as [->|Hne].
      * exists loc. by rewrite lookup_insert_eq.
      * destruct (Hsurj c ltac:(lia)) as [loc' Hloc'].
        exists loc'. rewrite lookup_insert_ne; [done|]. congruence.
    + intros l1 l2 c.
      destruct (decide (loc = l1)) as [<-|Hne1], (decide (loc = l2)) as [<-|Hne2];
        rewrite ?lookup_insert_eq, ?lookup_insert_ne by done; try done.
      * intros [= <-] Hl2. specialize (Hbound _ _ Hl2). lia.
      * intros Hl1 [= <-]. specialize (Hbound _ _ Hl1). lia.
      * apply Hinj.
    + intros i v' loc' Hi Hv' Hnew.
      destruct (decide (i < length seen)%nat) as [Hlt|Hge].
      * rewrite Htake in Hnew |- * by done.
        rewrite lookup_app_l in Hi by done.
        pose proof (Hfirst i v' loc' Hi Hv' Hnew) as Hids.
        rewrite lookup_insert_ne; [done|]. congruence.
      * pose proof (lookup_lt_Some _ _ _ Hi) as Hlen.
        rewrite length_app in Hlen. cbn [length] in Hlen.
        assert (i = length seen) as -> by lia.
        rewrite lookup_app_r, Nat.sub_diag in Hi by done.
        injection Hi as <-. rewrite Hv in Hv'. injection Hv' as <-.
        rewrite take_app_length, <-Hdom, size_dom.
        by rewrite lookup_insert_eq.
    + intros v' Hv'. apply elem_of_app in Hv' as [Hv'|Hv'].
      * destruct (Hseen v' Hv') as (loc' & c' & Hp & Hids & Hcl).
        assert (loc <> loc') as Hne by congruence.
        assert (v <> v') as Hnev by congruence.
        exists loc', c'. by rewrite !lookup_insert_ne.
      * apply list_elem_of_singleton in Hv' as ->.
        exists loc, (size ids). by rewrite !lookup_insert_eq.
    + intros v' Hv'. apply not_elem_of_app in Hv' as [Hv1 Hv2].
      rewrite lookup_insert_ne by (intros ->; apply Hv2; left).
      by apply Hframe.
Qed.

(** The loop over the members of a group, from the members [seen]. *)
Lemma assign_members placements clusters0 (rest : list vertex) :
  forall seen (st : gmap location nat * gmap vertex nat),
    (forall v, v ∈ rest -> is_Some (placements !! v)) ->
    group_inv placements clusters0 seen st ->
    exists st', for_each (assign_slice placements) rest st = ok st' /\
                group_inv placements clusters0 (seen ++ rest) st'.
Proof.
  induction rest as [|v rest IH]; intros seen st Hplaced Hinv.
  - exists st. by rewrite app_nil_r.
  - destruct (Hplaced v ltac:(left)) as [loc Hv].
    destruct (assign_slice_inv _ _ _ _ _ _ Hv Hinv) as (st1 & Hstep & Hinv1).
    destruct (IH (seen ++ [v]) st1) as (st' & Hloop & Hinv');
      [intros v' Hv'; apply Hplaced; by right|done|].
    exists st'. cbn [for_each]. rewrite Hstep.
    split; [exact Hloop|]. by rewrite <-app_assoc in Hinv'.
Qed.

(** A group whose members are all placed is labelled as promised, and no
    slice outside it is written. *)
Lemma assign_group_labelled placements clusters g :
  (forall v, v ∈ g -> is_Some (placements !! v)) ->
  exists clusters',
    assign_group placements clusters g = ok clusters' /\
    labelled placements clusters' g /\
    (forall v, v ∉ g -> clusters' !! v = clusters !! v).
Proof.
  intros Hplaced.
  destruct (assign_members placements clusters g [] (∅, clusters) Hplaced
              (group_inv_init _ _)) as ([ids clusters'] & Hloop & Hinv).
  cbn [app] in Hinv.
  destruct Hinv as (Hdom & Hbound & Hsurj & Hinj & Hfirst & Hseen & Hframe).
  cbn [fst snd] in *.
  exists clusters'. unfold assign_group. rewrite Hloop.
  split; [reflexivity|]. split; [|exact Hframe].
  assert (forall v loc, v ∈ g -> placements !! v = Some loc ->
            ids !! loc = Some (cluster clusters' v)) as Hid.
  { intros v loc Hv Hloc.
    destruct (Hseen v Hv) as (loc' & c & Hp & Hids & Hcl).
    unfold cluster. rewrite Hcl. cbn. congruence. }
  split; [|split].
  - intros v1 v2 Hv1 Hv2.
    destruct (Hplaced v1 Hv1) as [l1 Hl1]. destruct (Hplaced v2 Hv2) as [l2 Hl2].
    pose proof (Hid _ _ Hv1 Hl1) as Hc1. pose proof (Hid _ _ Hv2 Hl2) as Hc2.
    rewrite Hl1, Hl2. split.
    + intros Heq. f_equal. rewrite Heq in Hc1. by apply (Hinj l1 l2 _ Hc1).
    + intros [= ->]. congruence.
  - intros i v loc Hi Hloc Hnew.
    pose proof (Hid v loc (list_elem_of_lookup_2 _ _ _ Hi) Hloc) as Hc.
    rewrite (Hfirst i v loc Hi Hloc Hnew) in Hc. by injection Hc.
  - intros c. rewrite <-Hdom, size_dom. split.
    + intros (v & Hv & <-). destruct (Hplaced v Hv) as [loc Hloc].
      by apply (Hbound loc), Hid.
    + intros Hc. destruct (Hsurj c Hc) as [loc Hloc].
      assert (loc ∈ locations placements g) as Hin
        by (rewrite <-Hdom; apply elem_of_dom; eauto).
      apply elem_of_locations in Hin as (v & Hv & Hp).
      exists v. split; [done|]. pose proof (Hid v loc Hv Hp). congruence.
Qed.

(** Labelling only reads the ids of the members. *)
Lemma labelled_ext placements clusters clusters' g :
  (forall v, v ∈ g -> clusters' !! v = clusters !! v) ->
  labelled placements clusters g -> labelled placements clusters' g.
Proof.
  intros Hsame (Hiff & Hfirst & Hrange).
  assert (forall v, v ∈ g -> cluster clusters' v = cluster clusters v) as Hcl
    by (intros v Hv; unfold cluster; by rewrite Hsame).
  split; [|split].
  - intros v1 v2 Hv1 Hv2. rewrite !Hcl by done. by apply Hiff.
  - intros i v loc Hi Hloc Hnew.
    rewrite Hcl by (by eapply list_elem_of_lookup_2).
    by apply (Hfirst i v loc).
  - intros c. rewrite <-Hrange. split.
    + intros (v & Hv & <-). exists v. by rewrite Hcl.
    + intros (v & Hv & <-). exists v. by rewrite Hcl.
Qed.

(** A slice in no group is not written, whether or not labelling
    succeeds on the groups. *)
Lemma assign_slice_frame placements
    (st st' : gmap location nat * gmap vertex nat) (v v' : vertex) :
  assign_slice placements st v = ok st' -> v' <> v -> st'.2 !! v' = st.2 !! v'.
Proof.
  unfold assign_slice. intros Hstep Hne.
  destruct (placements !! v); [|done].
  destruct (st.1 !! l); injection Hstep as <-; cbn [snd];
    by rewrite lookup_insert_ne.
Qed.

Lemma assign_group_frame placements clusters clusters' g (v' : vertex) :
  assign_group placements clusters g = ok clusters' -> v' ∉ g ->
  clusters' !! v' = clusters !! v'.
Proof.
  unfold assign_group.
  assert (forall st st', for_each (assign_slice placements) g st = ok st' ->
            v' ∉ g -> st'.2 !! v' = st.2 !! v') as Hloop.
  { induction g as [|v g IH]; intros st st' Hl Hv'.
    - by injection Hl as <-.
    - cbn [for_each] in Hl.
      destruct (assign_slice placements st v) as [e|st1] eqn:Hstep; [done|].
      apply not_elem_of_cons in Hv' as [Hne Hv'].
      rewrite (IH st1 st' Hl Hv'). by apply (assign_slice_frame placements _ _ v). }
  destruct (for_each (assign_slice placements) g (∅, clusters)) as [e|st'] eqn:Hl;
    [done|].
  intros [= <-] Hv'. by apply (Hloop _ _ Hl).
Qed.

Lemma in_some_group_false groups (v : vertex) :
  in_some_group groups v = false <-> forall g, g ∈ groups -> v ∉ g.
Proof.
  unfold in_some_group. induction groups as [|g groups IH]; cbn [existsb].
  - split; [|done]. intros _ g Hg. by apply elem_of_nil in Hg.
  - rewrite orb_false_iff, bool_decide_eq_false, IH. split.
    + intros [Hv Hrest] g' Hg'. apply elem_of_cons in Hg' as [->|Hg']; auto.
    + intros Hall. split; [apply Hall; left|].
      intros g' Hg'. apply Hall. by right.
Qed.

Lemma assign_groups_frame placements groups :
  forall clusters clusters' (v : vertex),
    for_each (assign_group placements) groups clusters = ok clusters' ->
    in_some_group groups v = false ->
    clusters' !! v = clusters !! v.
Proof.
  induction groups as [|g groups IH]; intros clusters clusters' v Hl Hv.
  - by injection Hl as <-.
  - cbn [for_each] in Hl.
    destruct (assign_group placements clusters g) as [e|c1] eqn:Hg; [done|].
    rewrite in_some_group_false in Hv.
    rewrite (IH c1 clusters' v Hl).
    + apply (assign_group_frame placements _ _ g); [done|]. apply Hv. left.
    + apply in_some_group_false. intros g' Hg'. apply Hv. by right.
Qed.

(** All the groups: each of them ends up labelled as promised. *)
Lemma assign_groups_labelled placements groups :
  forall clusters,
    all_placed placements groups -> disjoint_groups groups ->
    exists clusters',
      for_each (assign_group placements) groups clusters = ok clusters' /\
      forall g, g ∈ groups -> labelled placements clusters' g.
Proof.
  induction groups as [|g groups IH]; intros clusters Hplaced Hdisj.
  - exists clusters. split; [done|]. intros g Hg. by apply elem_of_nil in Hg.
  - destruct (assign_group_labelled placements clusters g) as (c1 & Hg & Hlab & _);
      [intros v Hv; apply (Hplaced g); [left|done]|].
    destruct (IH c1) as (clusters' & Hloop & Hall).
    { intros g' v Hg' Hv. apply (Hplaced g'); [by right|done]. }
    { intros i j g1 g2 v Hi Hj Hne. apply (Hdisj (S i) (S j)); [done|done|lia]. }
    exists clusters'. cbn [for_each]. rewrite Hg. split; [exact Hloop|].
    intros g' Hg'. apply elem_of_cons in Hg' as [->|Hg']; [|by apply Hall].
    apply (labelled_ext _ c1); [|done].
    intros v Hv. apply (assign_groups_frame placements groups c1); [done|].
    apply in_some_group_false. intros g' Hg'.
    apply list_elem_of_lookup_1 in Hg' as [j Hj].
    by apply (Hdisj 0%nat (S j) g g' v).
Qed.

(** C6: when every member of every group has a place and no slice belongs
    to two groups, cluster assignment succeeds and, in every group, two
    members have the same cluster id exactly when the placement map sends
    them to the same location; a member at a location met for the first
    time gets the number of locations met before it; the ids of the group
    are the numbers below the number of its locations, so that the largest
    is that number minus 1; and a slice in no group is not written, and
    reads 0 if it was never written before. *)
Theorem identify_clusters_groups
    (placements : gmap vertex location) (nets : list Net)
    (groups : list (list vertex)) (clusters : gmap vertex nat) :
  all_placed placements groups -> disjoint_groups groups ->
  exists clusters' nets',
    identify_clusters placements nets groups clusters = ok (clusters', nets') /\
    (forall g, g ∈ groups ->
       (forall v1 v2, v1 ∈ g -> v2 ∈ g ->
          cluster clusters' v1 = cluster clusters' v2 <->
          placements !! v1 = placements !! v2) /\
       (forall (i : nat) v loc,
          g !! i = Some v -> placements !! v = Some loc ->
          loc ∉ locations placements (take i g) ->
          cluster clusters' v = size (locations placements (take i g))) /\
       (forall c, (exists v, v ∈ g /\ cluster clusters' v = c) <->
                  (c < size (locations placements g))%nat) /\
       max_list (cluster clusters' <$> g)
         = (size (locations placements g) - 1)%nat) /\
    (forall v, in_some_group groups v = false ->
       clusters' !! v = clusters !! v /\
       (clusters !! v = None -> cluster clusters' v = 0%nat)).
Proof.
  intros Hplaced Hdisj.
  destruct (assign_groups_labelled placements groups clusters Hplaced Hdisj)
    as (clusters' & Hloop & Hall).
  exists clusters', (map (write_back groups clusters') nets).
  unfold identify_clusters. rewrite Hloop. split; [reflexivity|]. split.
  - intros g Hg. destruct (Hall g Hg) as (Hiff & Hfirst & Hrange).
    do 3 (split; [done|]).
    destruct g as [|v0 g0] eqn:Heq; [reflexivity|]. rewrite <-Heq in *.
    assert (g <> []) as Hne by (by rewrite Heq).
    set (d := size (locations placements g)) in *.
    assert (forall c, c ∈ cluster clusters' <$> g <-> (c < d)%nat) as Hids.
    { intros c. rewrite <-Hrange, list_elem_of_fmap. split.
      - intros (v & -> & Hv). eauto.
      - intros (v & Hv & <-). eauto. }
    assert (max_list (cluster clusters' <$> g) < d)%nat as Hlt.
    { apply Hids, max_list_elem_of. by destruct g. }
    assert (d - 1 <= max_list (cluster clusters' <$> g))%nat as Hge
      by (apply max_list_elem_of_le, Hids; lia).
    lia.
  - intros v Hv.
    pose proof (assign_groups_frame placements groups _ _ v Hloop Hv) as Hsame.
    split; [done|]. intros Hnone. unfold cluster. by rewrite Hsame, Hnone.
Qed.

(** C7: after cluster assignment, a net whose source belongs to a group and
    whose key declares [cluster] reads the cluster id of its source there; a
    net whose key does not declare the field is left as it was, and reading
    the field raises the unavailable-field error; a net whose source is in
    no group is left as it was, its source keeps its cluster id, and a key
    that read 0 still reads 0. *)
Theorem identify_clusters_nets
    (placements : gmap vertex location) (nets nets' : list Net)
    (groups : list (list vertex)) (clusters clusters' : gmap vertex nat) :
  identify_clusters placements nets groups clusters = ok (clusters', nets') ->
  length nets' = length nets /\
  forall (i : nat) (net : Net),
    nets !! i = Some net ->
    exists net',
      nets' !! i = Some net' /\ source net' = source net /\
      (in_some_group groups (source net) = true ->
       declares (net_keyspace net) "cluster" = true ->
       get_field (net_keyspace net') "cluster"
         = ok (cluster clusters' (source net))) /\
      (declares (net_keyspace net) "cluster" = false ->
       net' = net /\
       get_field (net_keyspace net') "cluster" = raise UnavailableFieldError) /\
      (in_some_group groups (source net) = false ->
       net' = net /\
       cluster clusters' (source net) = cluster clusters (source net) /\
       (get_field (net_keyspace net) "cluster" = ok 0%nat ->
        get_field (net_keyspace net') "cluster" = ok 0%nat)).
Proof.
  unfold identify_clusters. intros Hrun.
  destruct (for_each (assign_group placements) groups clusters)
    as [e|c1] eqn:Hloop; [done|].
  injection Hrun as <- <-.
  split; [by rewrite length_map|].
  intros i net Hi. exists (write_back groups c1 net).
  split; [by rewrite list_lookup_fmap, Hi|].
  unfold write_back.
  split; [by destruct (_ && _)|].
  split; [|split].
  - intros -> ->. cbn [andb net_keyspace]. unfold get_field, set_field.
    cbn [fields]. by rewrite lookup_insert_eq.
  - intros Hdecl. rewrite Hdecl, andb_false_r. split; [done|].
    unfold get_field. unfold declares in Hdecl.
    apply bool_decide_eq_false in Hdecl.
    destruct (fields (net_keyspace net) !! "cluster") eqn:Hf; [|done].
    exfalso. apply Hdecl. eauto.
  - intros Hgrp. rewrite Hgrp. cbn [andb]. split; [done|]. split; [|done].
    unfold cluster.
    by rewrite (assign_groups_frame placements groups _ _ _ Hloop Hgrp).
Qed.

End ClusterFacts.

(* ===================================================================== *)
(** * The theorems at concrete inputs                                     *)
(* ===================================================================== *)

Section Instances.
Import Filters Layout Examples.

(** A first-order filter packed at byte 20 of a 32-byte buffer. *)
Lemma linear_filter_encoding_at_20 :
  exists rest,
    pack_data first_order millisecond (replicate 32 0) 20 =
      ok (replicate 20 0 ++ [1; 0; 0; 0]
            ++ [0; 128; 255; 255; 32; 0; 0; 0] ++ rest).
Proof.
  destruct (linear_filter_encoding (H:=rational) 1 false [1%Q] [1%Q; 1%Q]
              [(1 * millisecond)%Q] [1%Q; 1%Q] (0 * millisecond)%Q millisecond
              (replicate 32 0) 20)
    as (_ & _ & rest & Hpack);
    [reflexivity | reflexivity | reflexivity | reflexivity | reflexivity
    | lia | vm_compute; discriminate |].
  exists rest. exact Hpack.
Defined.

(** With direct feed-through the assertion fires; without it packing
    succeeds. *)
Lemma linear_filter_assertion_both :
  pack_data feed_through millisecond (replicate 32 0) 20
    = raise AssertionError /\
  exists buffer',
    pack_data first_order millisecond (replicate 32 0) 20 = ok buffer'.
Proof.
  split.
  - apply (proj1 (linear_filter_assertion (H:=rational) 1 false [1%Q; 1%Q] [1%Q; 1%Q]
                    [(1 * millisecond)%Q] [1%Q; 1%Q] (1 * millisecond)%Q
                    millisecond (replicate 32 0) 20 eq_refl)).
    reflexivity.
  - apply (proj2 (proj2 (linear_filter_assertion (H:=rational) 1 false [1%Q] [1%Q; 1%Q]
                    [(1 * millisecond)%Q] [1%Q; 1%Q] (0 * millisecond)%Q
                    millisecond (replicate 32 0) 20 eq_refl)));
      [reflexivity | reflexivity | reflexivity | reflexivity
      | lia | vm_compute; discriminate].
Defined.

(** A region of one filter of each kind. *)
Lemma filter_region_of_three :
  exists pad : nat,
    FilterRegion_write_subregion_to_file
      {| filters := [NoneFilter 4 false; LowpassFilter 4 true (1 # 100)%Q;
                     first_order];
         dt := millisecond |} =
      ok (filter_region_layout
            [NoneFilter 4 false; LowpassFilter 4 true (1 # 100)%Q; first_order]
            millisecond
          ++ replicate pad 0).
Proof.
  apply (proj1 filter_region_layout_written);
    [vm_compute; reflexivity | reflexivity].
Defined.

(** The region of one first-order filter: 32 bytes announced, 40 written. *)
Lemma first_order_region_grows :
  FilterRegion_sizeof {| filters := [first_order]; dt := millisecond |} = 32 /\
  exists data,
    FilterRegion_write_subregion_to_file
      {| filters := [first_order]; dt := millisecond |} = ok data /\
    len data = 40.
Proof.
  apply (linear_filter_region_grows (H:=rational) 1 false 1%Q 1%Q 1%Q (0 * millisecond)%Q
           (1 * millisecond)%Q 1%Q 1%Q millisecond);
    reflexivity.
Defined.

(** The block written for that region, byte for byte: the count, the
    header, the order, the two coefficients, and eight bytes more. *)
Example first_order_region_bytes :
  FilterRegion_write_subregion_to_file
    {| filters := [first_order]; dt := millisecond |} =
    ok (words [1; 3; 2; 1; 0; 1]
          ++ [0; 128; 255; 255; 32; 0; 0; 0]
          ++ replicate 8 0).
Proof. vm_compute. reflexivity. Qed.

(** With deduplication the four receptions share two table entries. *)
Example four_specs_deduplicated :
  let regions := make_filter_regions four_specs millisecond true
                   "filter_routing" "index" None in
  filters regions.1 = [NoneFilter 4 false; LowpassFilter 4 false (1 # 100)%Q] /\
  map snd (keyspace_routes regions.2) = [0; 1; 0; 1].
Proof. vm_compute. split; reflexivity. Qed.

(** A routing region of two routes is 36 bytes long. *)
Lemma two_routes_written :
  exists data,
    FilterRoutingRegion_write_subregion_to_file two_routes = ok data /\
    len data = 36.
Proof.
  destruct (routing_region_written two_routes)
    as (data & Hwrite & Hlen & _); [vm_compute; reflexivity | reflexivity |].
  exists data. split; [exact Hwrite | exact Hlen].
Defined.

(** Four receptions with deduplication: one route per reception, keys in
    the order of the receptions; the third and the fourth reception reuse
    entries, so the table is that of the first two receptions. *)
Lemma four_specs_routes :
  map fst (keyspace_routes
             (make_filter_regions four_specs millisecond true
                "filter_routing" "index" None).2)
  = [key 1; key 2; key 3; key 4] /\
  filters (make_filter_regions four_specs millisecond true
             "filter_routing" "index" None).1
  = filters (make_filter_regions (take 2 four_specs) millisecond true
               "filter_routing" "index" None).1.
Proof.
  pose proof (make_filter_regions_routes four_specs millisecond true
                "filter_routing" "index" None) as Hroutes.
  cbv zeta in Hroutes.
  destruct Hroutes as (Hkeys & _ & _ & _ & Hstep & _).
  split; [exact Hkeys|].
  destruct (Hstep 2%nat _ _ eq_refl) as (index2 & _ & Hthird).
  destruct (Hstep 3%nat _ _ eq_refl) as (index3 & _ & Hfourth).
  cbv zeta in Hthird, Hfourth.
  exact (eq_trans (proj1 Hfourth) (proj1 Hthird)).
Defined.

End Instances.

Section PartitionInstances.
Import Partition Examples.

(** The model on the inputs of [TestPartition]. *)
Example test_no_partitioning :
  partition {| start := 0; stop := 80 |} (one_constraint 100 (9 # 10) 10)
  = Some ([{| start := 0; stop := 80 |}], None).
Proof. vm_compute. reflexivity. Qed.

Example test_single_partition_step :
  partition hundred two_constraints
  = Some ([{| start := 0; stop := 50 |}; {| start := 50; stop := 100 |}], None).
Proof. vm_compute. reflexivity. Qed.

Example test_just_partitionable :
  partition hundred (one_constraint 50 1 49)
  = Some (map (fun n => {| start := Z.of_nat n; stop := Z.of_nat n + 1 |})
              (seq 0 100),
          None).
Proof. vm_compute. reflexivity. Qed.

Example test_unpartitionable :
  partition hundred (one_constraint 50 1 100)
  = Some ([], Some (Unpartitionable
                      {| maximum := 50; target := 1 |} 0)).
Proof. vm_compute. reflexivity. Qed.

(** The two chunks of [test_single_partition_step]. *)
Lemma hundred_in_two_chunks :
  Forall (fun c => start c < stop c)
    [{| start := 0; stop := 50 |}; {| start := 50; stop := 100 |}].
Proof.
  exact (proj1 (partition_coverage hundred two_constraints
                  [{| start := 0; stop := 50 |}; {| start := 50; stop := 100 |}]
                  eq_refl)).
Defined.

Lemma two_constraints_monotone : monotone two_constraints.
Proof.
  intros cf cursor L1 L2 Hcf HL.
  unfold two_constraints in Hcf.
  apply elem_of_cons in Hcf as [->|Hcf];
    [|apply elem_of_cons in Hcf as [->|Hcf]; [|by apply elem_of_nil in Hcf]];
    unfold length_plus, Qle; cbn; lia.
Defined.

(** Under the two constraints partitioning returns. *)
Lemma hundred_partitioned :
  exists chunks err, partition hundred two_constraints = Some (chunks, err).
Proof.
  destruct (proj1 partition_unpartitionable hundred two_constraints
              two_constraints_monotone) as (chunks & err & Hpart & _).
  exists chunks, err. exact Hpart.
Defined.

End PartitionInstances.

Section ClusterInstances.
Import Cluster Examples.

(** The model on the input of [test_identify_clusters]: the cluster ids of
    the slices of [v1] and of [v2], and what reading [cluster] from the key
    of every net gives afterwards. *)
Example test_identify_clusters :
  match identify_clusters chips test_nets two_groups ∅ with
  | inr (clusters', nets') =>
      cluster clusters' <$> v1s = [0; 0; 1; 1; 2]%nat /\
      cluster clusters' <$> v2s = [0; 1; 1; 1; 1; 1]%nat /\
      cluster clusters' v3 = 0%nat /\
      (fun n => get_field (net_keyspace n) "cluster") <$> nets' =
        (ok <$> [0; 0; 1; 1; 2]%nat)
          ++ replicate 6 (raise UnavailableFieldError)
          ++ [ok 0%nat]
  | inl _ => False
  end.
Proof. vm_compute. repeat split; reflexivity. Qed.

Lemma two_groups_placed : all_placed chips two_groups.
Proof.
  intros g v Hg Hv. unfold two_groups, v1s, v2s in Hg.
  repeat (apply elem_of_cons in Hg as [->|Hg]);
    [| |by apply elem_of_nil in Hg];
    repeat (apply elem_of_cons in Hv as [->|Hv]);
    try (by apply elem_of_nil in Hv); by eexists.
Defined.

Lemma two_groups_disjoint : disjoint_groups two_groups.
Proof.
  intros i j g1 g2 v Hi Hj Hne Hv1 Hv2.
  destruct i as [|[|i]], j as [|[|j]]; try done;
    injection Hi as <-; injection Hj as <-; unfold v1s, v2s in *;
    repeat (apply elem_of_cons in Hv1 as [->|Hv1]);
    try (by apply elem_of_nil in Hv1);
    repeat (apply elem_of_cons in Hv2 as [Heq|Hv2]; [discriminate Heq|]);
    by apply elem_of_nil in Hv2.
Defined.

(** Cluster assignment succeeds on the two groups. *)
Lemma two_groups_clustered :
  exists clusters' nets',
    identify_clusters chips test_nets two_groups ∅ = ok (clusters', nets').
Proof.
  destruct (identify_clusters_groups chips test_nets two_groups ∅
              two_groups_placed two_groups_disjoint)
    as (clusters' & nets' & Hrun & _).
  exists clusters', nets'. exact Hrun.
Defined.

(** The twelve nets stay twelve nets. *)
Lemma twelve_nets_kept :
  exists clusters' nets',
    identify_clusters chips test_nets two_groups ∅ = ok (clusters', nets') /\
    length nets' = 12%nat.
Proof.
  destruct (identify_clusters chips test_nets two_groups ∅)
    as [e|[clusters' nets']] eqn:Hrun; [vm_compute in Hrun; discriminate|].
  exists clusters', nets'. split; [reflexivity|].
  exact (proj1 (identify_clusters_nets chips test_nets nets' two_groups ∅
                  clusters' Hrun)).
Defined.

End ClusterInstances.

(* ===================================================================== *)
(** * More about the filter region                                        *)
(* ===================================================================== *)

Section RegionExtent.
Context `{Numeric} `{BitField}.
Import Filters Layout Extent.

Lemma filters_bytes_cons (f : Filter) (fs : list Filter) :
  filters_bytes (f :: fs) = 16 + 4 * size_words f + filters_bytes fs.
Proof.
  unfold filters_bytes. cbn [map foldr].
  replace (len (f :: fs)) with (1 + len fs) by (unfold len; cbn [length]; lia).
  lia.
Qed.

Lemma len_filter_region_layout (fs : list Filter) (dt : float) :
  forallb (encodable dt) fs = true ->
  len (filter_region_layout fs dt) = FilterRegion_sizeof {| filters := fs; dt := dt |}.
Proof.
  intros Hfs. unfold filter_region_layout, FilterRegion_sizeof.
  cbn [filters]. rewrite len_app, len_le32.
  assert (len (concat (map (fun f => header f ++ payload dt f) fs))
          = filters_bytes fs) as ->.
  { induction fs as [|f fs IH]; [reflexivity|].
    cbn [forallb] in Hfs. apply andb_true_iff in Hfs as [Hf Hfs].
    cbn [map concat]. rewrite !len_app, len_header, filters_bytes_cons.
    rewrite len_payload by (by eapply encodable_size). rewrite IH by done. lia. }
  unfold filters_bytes. lia.
Qed.

(** What is left of the zero bytes after the loop: at least what the
    region had beyond its filters; exactly that when every filter packs in
    place; more when some filter does not. *)
Lemma remaining_bounds (dt : float) (fs : list Filter) :
  forall p r : Z,
    0 <= p -> forallb (encodable dt) fs = true -> filters_bytes fs <= r ->
    r - filters_bytes fs <= remaining fs p r /\
    (forallb packs_in_place fs = true ->
     remaining fs p r = r - filters_bytes fs) /\
    (forallb packs_in_place fs = false ->
     r - filters_bytes fs < remaining fs p r).
Proof.
  induction fs as [|f fs IH]; intros p r Hp Hfs Hr.
  - cbn [remaining forallb]. unfold filters_bytes.
    change (len (@nil Filter)) with 0. cbn [map foldr].
    split; [lia|]. split; [intros _; lia|done].
  - cbn [forallb] in Hfs. apply andb_true_iff in Hfs as [Hf Hfs].
    pose proof (encodable_size dt f Hf) as Hs.
    pose proof (consumed_bounds f p r Hs Hp) as Hc.
    pose proof (size_words_sum_nonneg dt fs Hfs) as Hsum.
    pose proof (len_nonneg fs) as Hlen.
    apply is_uint32_spec in Hs.
    rewrite filters_bytes_cons in *.
    assert (0 <= filters_bytes fs) as Hfb by (unfold filters_bytes; lia).
    cbn [remaining forallb].
    destruct (IH (p + 16 + 4 * size_words f) (r - consumed f p r))
      as (Hlow & Heq & Hgt); [lia|done|lia|].
    split; [lia|]. split.
    + intros Hall. apply andb_true_iff in Hall as [Hin Hall].
      rewrite (Heq Hall).
      assert (consumed f p r = 16 + 4 * size_words f) as ->; [|lia].
      unfold consumed. destruct f as [w l|w l tau|w l num den];
        cbn [size_words packs_in_place] in *; lia.
    + intros Hsome. apply andb_false_iff in Hsome as [Hout|Hsome].
      * assert (consumed f p r < 16 + 4 * size_words f); [|lia].
        unfold consumed. destruct f as [w l|w l tau|w l num den];
          cbn [size_words packs_in_place] in *; try done. lia.
      * specialize (Hgt Hsome). lia.
Qed.

(** The block of a region whose filters all pack in place is the layout and
    nothing more: [sizeof] bytes. *)
Theorem filter_region_in_place (fs : list Filter) (dt : float) :
  len fs < 2 ^ 32 ->
  forallb (encodable dt) fs = true ->
  forallb packs_in_place fs = true ->
  FilterRegion_write_subregion_to_file {| filters := fs; dt := dt |} =
    ok (filter_region_layout fs dt) /\
  len (filter_region_layout fs dt) =
    FilterRegion_sizeof {| filters := fs; dt := dt |}.
Proof.
  intros Hlen Hfs Hin.
  destruct (region_written fs dt Hlen Hfs) as [_ Hw].
  split; [|by apply len_filter_region_layout].
  rewrite Hw. f_equal.
  pose proof (len_nonneg fs) as Hn.
  pose proof (size_words_sum_nonneg dt fs Hfs) as Hsum.
  destruct (remaining_bounds dt fs 4
              (FilterRegion_sizeof {| filters := fs; dt := float_zero |} - 4))
    as (_ & Heq & _);
    [lia|done|unfold FilterRegion_sizeof, filters_bytes; cbn [filters]; lia|].
  unfold padding. rewrite (Heq Hin).
  replace (Z.to_nat _) with 0%nat
    by (unfold FilterRegion_sizeof, filters_bytes; cbn [filters]; lia).
  cbn [replicate]. by rewrite app_nil_r.
Qed.

(** The block of a region with a filter that does not pack in place is the
    layout followed by zero bytes, and longer than [sizeof] says. *)
Theorem filter_region_overlong (fs : list Filter) (dt : float) :
  len fs < 2 ^ 32 ->
  forallb (encodable dt) fs = true ->
  forallb packs_in_place fs = false ->
  exists pad : nat,
    (0 < pad)%nat /\
    FilterRegion_write_subregion_to_file {| filters := fs; dt := dt |} =
      ok (filter_region_layout fs dt ++ replicate pad 0) /\
    len (filter_region_layout fs dt ++ replicate pad 0) =
      FilterRegion_sizeof {| filters := fs; dt := dt |} + Z.of_nat pad.
Proof.
  intros Hlen Hfs Hout.
  destruct (region_written fs dt Hlen Hfs) as [_ Hw].
  pose proof (len_nonneg fs) as Hn.
  pose proof (size_words_sum_nonneg dt fs Hfs) as Hsum.
  destruct (remaining_bounds dt fs 4
              (FilterRegion_sizeof {| filters := fs; dt := float_zero |} - 4))
    as (_ & _ & Hgt);
    [lia|done|unfold FilterRegion_sizeof, filters_bytes; cbn [filters]; lia|].
  specialize (Hgt Hout).
  exists (Z.to_nat (padding fs)). split; [|split; [exact Hw|]].
  - unfold padding. unfold FilterRegion_sizeof, filters_bytes in *.
    cbn [filters] in *. lia.
  - rewrite len_app, len_replicate. by rewrite len_filter_region_layout.
Qed.

Lemma encodable_header_words (dt : float) (f : Filter) :
  encodable dt f = true ->
  forallb is_uint32
    [size_words f; method_index f; width f; if latching f then 1 else 0] = true.
Proof.
  unfold encodable. intros Henc.
  apply andb_true_iff in Henc as [Hws _].
  apply andb_true_iff in Hws as [Hw Hs].
  repeat apply forallb_uint32_cons;
    [done | by destruct f | done | by destruct (latching f) | done].
Qed.

(** The blocks of the filters before index [i] end where the loop's
    [offset], counted in words, stands when it reaches index [i]. *)
Lemma len_blocks_before (dt : float) (fs : list Filter) (i : nat) (count : Z) :
  forallb (encodable dt) fs = true ->
  len (le32 count
         ++ concat (map (fun f => header f ++ payload dt f) (take i fs)))
    = 4 * loop_offset fs i.
Proof.
  intros Hfs. unfold loop_offset. rewrite len_app, len_le32.
  assert (forallb (encodable dt) (take i fs) = true) as Ht
    by by apply forallb_take.
  clear Hfs. change 4 with (4 * 1) at 1. generalize 1 as acc.
  induction (take i fs) as [|f l IH]; intros acc; [cbn; unfold len; cbn; lia|].
  cbn [forallb] in Ht. apply andb_true_iff in Ht as [Hf Hl].
  cbn [map concat fold_left]. rewrite <-(IH Hl).
  rewrite !len_app, len_header, len_payload by (by eapply encodable_size). lia.
Qed.

Lemma loop_offset_S (fs : list Filter) (i : nat) (f : Filter) :
  fs !! i = Some f ->
  loop_offset fs (S i) = loop_offset fs i + (size_words f + 4).
Proof.
  intros Hi. unfold loop_offset.
  rewrite (take_S_r _ _ _ Hi), fold_left_app. reflexivity.
Qed.

(** Reading the block back: the header of the filter of index [i] stands at
    the byte the loop packed it at, [offset * 4]; its four words are the
    size of the data in words, the method index, the width and the latching
    flag; the data follow it; and the first word of the header is what the
    loop adds, with 4, to reach the next filter. *)
Theorem filter_header_at (fs : list Filter) (dt : float) (i : nat) (f : Filter) :
  len fs < 2 ^ 32 ->
  forallb (encodable dt) fs = true ->
  fs !! i = Some f ->
  exists data,
    FilterRegion_write_subregion_to_file {| filters := fs; dt := dt |} = ok data /\
    word_at data 0 = len fs /\
    word_at data (4 * loop_offset fs i) = size_words f /\
    word_at data (4 * loop_offset fs i + 4) = method_index f /\
    word_at data (4 * loop_offset fs i + 8) = width f /\
    word_at data (4 * loop_offset fs i + 12) = (if latching f then 1 else 0) /\
    bytes_at data (4 * loop_offset fs i + 16) (4 * size_words f) = payload dt f /\
    loop_offset fs (S i) =
      loop_offset fs i + (word_at data (4 * loop_offset fs i) + 4).
Proof.
  intros Hlen Hfs Hi.
  destruct (region_written fs dt Hlen Hfs) as [_ Hw].
  eexists. split; [exact Hw|].
  pose proof (len_nonneg fs) as Hn.
  assert (encodable dt f = true) as Hf.
  { rewrite forallb_forall in Hfs. apply Hfs, list_elem_of_In.
    by eapply list_elem_of_lookup_2. }
  pose proof (encodable_header_words dt f Hf) as Hu.
  pose proof (encodable_size dt f Hf) as Hs.
  set (pad := replicate (Z.to_nat (padding fs)) 0).
  set (block := fun f => header f ++ payload dt f).
  set (P := le32 (len fs) ++ concat (map block (take i fs))).
  set (rest := concat (map block (drop (S i) fs)) ++ pad).
  assert (filter_region_layout fs dt ++ pad
          = P ++ words [size_words f; method_index f; width f;
                        if latching f then 1 else 0]
              ++ payload dt f ++ rest) as Hsplit.
  { unfold filter_region_layout, P, rest. fold block.
    rewrite <-(take_drop_middle fs i f Hi) at 2.
    rewrite map_app, concat_app. cbn [map concat]. unfold block at 2, header.
    by rewrite <-!app_assoc. }
  assert (len P = 4 * loop_offset fs i) as HP by by apply len_blocks_before.
  assert (word_at (filter_region_layout fs dt ++ pad) (4 * loop_offset fs i)
          = size_words f) as Hfirst.
  { rewrite Hsplit, <-HP, <-(Z.add_0_r (len P)).
    apply (word_at_words P _ _ 0); [done|].
    cbn [forallb] in Hu. by apply andb_true_iff in Hu as [? _]. }
  cbn [forallb] in Hu.
  apply andb_true_iff in Hu as [Hu1 Hu]. apply andb_true_iff in Hu as [Hu2 Hu].
  apply andb_true_iff in Hu as [Hu3 Hu]. apply andb_true_iff in Hu as [Hu4 _].
  split; [|split; [exact Hfirst|split; [|split; [|split; [|split]]]]].
  - unfold filter_region_layout. rewrite <-app_assoc.
    pose proof (word_at_words [] (concat (map block fs) ++ pad)
                  [len fs] 0 (len fs) eq_refl) as Hcount.
    rewrite words_cons in Hcount. cbn [words map concat] in Hcount.
    rewrite app_nil_r in Hcount. apply Hcount. apply is_uint32_spec. lia.
  - rewrite Hsplit, <-HP. by apply (word_at_words P _ _ 1).
  - rewrite Hsplit, <-HP. by apply (word_at_words P _ _ 2).
  - rewrite Hsplit, <-HP. by apply (word_at_words P _ _ 3).
  - rewrite Hsplit, <-HP. unfold bytes_at.
    rewrite (app_assoc P).
    replace (Z.to_nat (len P + 16))
      with (length (P ++ words [size_words f; method_index f; width f;
                                if latching f then 1 else 0]))
      by (rewrite length_app; unfold len; cbn [length words map concat le32 app]; lia).
    rewrite drop_app_length.
    replace (Z.to_nat (4 * size_words f)) with (length (payload dt f))
      by (pose proof (len_payload dt f Hs) as Hl; unfold len in Hl; lia).
    by rewrite take_app_length.
  - rewrite Hfirst. by apply loop_offset_S.
Qed.

End RegionExtent.

(* ===================================================================== *)
(** * Failures of the filter region                                       *)
(* ===================================================================== *)

Section RegionFailures.
Context `{Numeric} `{BitField}.
Import Filters Layout Extent.

Lemma for_each_app {A S : Type} (body : S -> A -> result S) (xs ys : list A) (s : S) :
  for_each body (xs ++ ys) s = Py.bind (for_each body xs s) (for_each body ys).
Proof.
  revert s. induction xs as [|x xs IH]; intros s; [reflexivity|].
  cbn [app for_each]. destruct (body s x) as [e|s']; [reflexivity|].
  cbn [Py.bind]. apply IH.
Qed.

(** A value outside the range of [I] is a [struct.error], wherever and
    into whatever it is packed. *)
Lemma pack_into_bad_value (buffer : bytearray) (offset : Z) (vs : list Z) :
  forallb is_uint32 vs = false -> pack_into buffer offset vs = raise StructError.
Proof.
  intros Hvs. unfold pack_into. cbv zeta. rewrite Hvs.
  destruct ((offset <? 0) && _); [done|].
  destruct (_ <? 0); [done|]. by destruct (_ <? _).
Qed.

Lemma size_words_lower (f : Filter) : -1 <= size_words f.
Proof.
  destruct f as [w l|w l tau|w l num den]; cbn [size_words]; try lia.
  unfold order. pose proof (len_nonneg den). lia.
Qed.

Lemma filters_bytes_nonneg (fs : list Filter) : 0 <= filters_bytes fs.
Proof.
  induction fs as [|f fs IH]; [by vm_compute|].
  rewrite filters_bytes_cons. pose proof (size_words_lower f). lia.
Qed.

Lemma filters_bytes_app (fs gs : list Filter) :
  filters_bytes (fs ++ gs) = filters_bytes fs + filters_bytes gs.
Proof.
  induction fs as [|f fs IH].
  - cbn [app]. change (filters_bytes []) with 0. lia.
  - cbn [app]. rewrite !filters_bytes_cons, IH. lia.
Qed.

(** The offset the loop ends with, and the bytes of the blocks it wrote. *)
Lemma loop_final_offset (dt : float) (fs : list Filter) :
  forall st st' : bytearray * Z,
    for_each
      (fun (st : bytearray * Z) f =>
         data ← Filter_pack_into f dt st.1 (st.2 * 4);
         ok (data, st.2 + (size_words f + 4)))
      fs st = ok st' ->
    st'.2 = st.2 + foldr Z.add 0 (map (fun f => size_words f + 4) fs).
Proof.
  induction fs as [|g fs IH]; intros st st' Hl.
  - injection Hl as <-. cbn [map foldr]. lia.
  - cbn [for_each] in Hl.
    unfold mbind, result_bind in Hl.
    destruct (Filter_pack_into g dt st.1 (st.2 * 4)) as [e|d]; [done|].
    cbn [Py.bind] in Hl. apply IH in Hl. cbn [snd map foldr] in *. lia.
Qed.

Lemma len_blocks (dt : float) (fs : list Filter) :
  forallb (encodable dt) fs = true ->
  len (concat (map (fun f => header f ++ payload dt f) fs))
    = 4 * foldr Z.add 0 (map (fun f => size_words f + 4) fs).
Proof.
  induction fs as [|g fs IH]; intros Hfs; [reflexivity|].
  cbn [forallb] in Hfs. apply andb_true_iff in Hfs as [Hg Hfs].
  cbn [map concat foldr]. rewrite !len_app, len_header.
  rewrite len_payload by (by eapply encodable_size).
  rewrite (IH Hfs). lia.
Qed.

(** When the filters before [f] are encodable and packing [f] raises
    whatever follows the blocks packed so far, writing the region raises
    the same exception, and nothing reaches [fp.write]. *)
Lemma region_fails_at (pre post : list Filter) (f : Filter) (dt : float)
    (e : exn) :
  len (pre ++ f :: post) < 2 ^ 32 ->
  forallb (encodable dt) pre = true ->
  (forall (P : bytearray) (r : nat),
     16 + 4 * size_words f <= Z.of_nat r ->
     Filter_pack_into f dt (P ++ replicate r 0) (len P) = raise e) ->
  FilterRegion_write_subregion_to_file
    {| filters := pre ++ f :: post; dt := dt |} = raise e.
Proof.
  intros Hlen Hpre Hfail.
  pose proof (len_nonneg (pre ++ f :: post)) as Hn.
  pose proof (filters_bytes_nonneg pre) as Hb1.
  pose proof (filters_bytes_nonneg post) as Hb2.
  pose proof (filters_bytes_app pre (f :: post)) as Happ.
  rewrite filters_bytes_cons in Happ.
  unfold FilterRegion_write_subregion_to_file, FilterRegion_sizeof.
  cbn [filters Filters.dt].
  fold (filters_bytes (pre ++ f :: post)).
  replace ((1 + 4 * len (pre ++ f :: post)
            + foldr Z.add 0 (map size_words (pre ++ f :: post))) * 4)
    with (4 + filters_bytes (pre ++ f :: post))
    by (unfold filters_bytes; lia).
  pose proof (size_words_lower f) as Hsw.
  set (size := 4 + filters_bytes (pre ++ f :: post)).
  assert (size = 4 + filters_bytes (pre ++ f :: post)) as Hsize by done.
  unfold bytearray_new. assert ((size <? 0) = false) as -> by lia.
  rewrite bind_ok.
  change (replicate (Z.to_nat size) 0) with ([] ++ replicate (Z.to_nat size) 0).
  change 0 with (len (@nil Z)) at 2.
  rewrite pack_into_at_end; cycle 1.
  { rewrite len_replicate. change (len [len (pre ++ f :: post)]) with 1. lia. }
  { apply forallb_uint32_cons; [apply is_uint32_spec; lia|done]. }
  rewrite bind_ok, drop_replicate.
  change (len [len (pre ++ f :: post)]) with 1.
  set (r := (Z.to_nat size - Z.to_nat (4 * 1))%nat).
  assert (Z.of_nat r = size - 4) as Hr by (unfold r; lia).
  rewrite for_each_app.
  destruct (write_loop dt pre ([] ++ words [len (pre ++ f :: post)]) r 1)
    as [Hrem [off' Hloop]];
    [reflexivity|done|fold (filters_bytes pre); lia|].
  destruct (remaining_bounds dt pre
              (len ([] ++ words [len (pre ++ f :: post)])) (Z.of_nat r))
    as (Hlow & _); [done|done|lia|].
  etrans; [apply (f_equal (fun m => Py.bind m _ ≫= _) Hloop)|].
  cbn [Py.bind for_each fst snd].
  set (P := ([] ++ words [len (pre ++ f :: post)])
              ++ concat (map (fun f0 => header f0 ++ payload dt f0) pre)).
  assert (len P = off' * 4) as HP.
  { apply loop_final_offset in Hloop. cbn [snd] in Hloop. subst off'.
    unfold P. rewrite len_app, (len_blocks dt pre Hpre).
    change (len ([] ++ words [len (pre ++ f :: post)])) with 4. lia. }
  cbv beta iota delta [Py.bind ok]. cbn [fst snd].
  rewrite <-HP. rewrite Hfail; [reflexivity|]. lia.
Qed.

(** A filter whose width does not fit an unsigned 32-bit word, negative or
    too large, makes the region fail with [struct.error] when the loop
    reaches it; no block is written. *)
Theorem filter_region_rejects_width (pre post : list Filter) (f : Filter)
    (dt : float) :
  len (pre ++ f :: post) < 2 ^ 32 ->
  forallb (encodable dt) pre = true ->
  is_uint32 (width f) = false ->
  FilterRegion_write_subregion_to_file
    {| filters := pre ++ f :: post; dt := dt |} = raise StructError.
Proof.
  intros Hlen Hpre Hw. apply region_fails_at; [done|done|].
  intros P r _. unfold Filter_pack_into.
  rewrite pack_into_bad_value; [reflexivity|].
  cbn [forallb]. rewrite Hw. cbn [andb]. by rewrite !andb_false_r.
Qed.

(** A LinearFilter whose discrete numerator does not start with zero makes
    the region fail with [AssertionError] when the loop reaches it, after
    its header was packed; no block is written. *)
Theorem filter_region_assertion (pre post : list Filter) (w : Z) (l : bool)
    (num den b a : list float) (b0 : float) (dt : float) :
  len (pre ++ LinearFilter w l num den :: post) < 2 ^ 32 ->
  forallb (encodable dt) pre = true ->
  is_uint32 w = true ->
  is_uint32 (size_words (LinearFilter w l num den)) = true ->
  cont2discrete num den dt = (b0 :: b, a) ->
  float_eqb b0 float_zero = false ->
  FilterRegion_write_subregion_to_file
    {| filters := pre ++ LinearFilter w l num den :: post; dt := dt |}
    = raise AssertionError.
Proof.
  intros Hlen Hpre Hw Hs Hc2d Hb0. apply region_fails_at; [done|done|].
  intros P r Hroom. unfold Filter_pack_into.
  pose proof Hs as Hs'. apply is_uint32_spec in Hs'.
  rewrite pack_into_at_end; cycle 1.
  { rewrite len_replicate. change (len [_; _; _; _]) with 4. lia. }
  { repeat apply forallb_uint32_cons; try done; by destruct l. }
  rewrite bind_ok. unfold pack_data. by rewrite Hc2d, bind_ok, Hb0.
Qed.

(** Two filters that [==] finds equal have the same header: the same size
    in words, method index, width and latching flag. *)
Theorem equal_filters_same_header (f g : Filter) :
  Filter_eq f g = true ->
  size_words f = size_words g /\ method_index f = method_index g /\
  header f = header g.
Proof.
  intros Heq. apply Filter_eq_exact in Heq as (Hw & Hl & Hp).
  assert (size_words f = size_words g /\ method_index f = method_index g)
    as [Hs Hm].
  { destruct f as [w l|w l tau|w l num den],
             g as [w' l'|w' l' tau'|w' l' num' den']; try done.
    destruct Hp as [_ Hden]. cbn [size_words method_index]. split; [|done].
    unfold order, len. by rewrite (Forall2_length Hden). }
  split; [done|]. split; [done|].
  unfold header. by rewrite Hs, Hm, Hw, Hl.
Qed.

End RegionFailures.

(* ===================================================================== *)
(** * More about make_filter_regions                                      *)
(* ===================================================================== *)

Section TableFacts.
Context `{Numeric} `{BitField}.
Import Filters Layout.

(** With deduplication enabled no entry of the table compares equal to an
    entry before it. *)
Theorem deduplicated_table_distinct (specs : list (Signal * ReceptionParams))
    (dt : float) (tag field : string) (width : option Z)
    (i j : nat) (gi gj : Filter) :
  let table := filters (make_filter_regions specs dt true tag field width).1 in
  (i < j)%nat -> table !! i = Some gi -> table !! j = Some gj ->
  Filter_eq gj gi = false.
Proof.
  cbv zeta. unfold make_filter_regions.
  pose proof (table_invariant true width specs) as Hinv. cbv zeta in Hinv.
  destruct (fold_left (add_spec true width) specs ([], [])) as [table routes].
  cbn [fst snd filters] in *.
  destruct Hinv as (_ & _ & _ & Hdistinct). by apply Hdistinct.
Qed.

(** No entry of the table is unused: each is the filter built for one of
    the input pairs, and the route of that pair carries its index. *)
Theorem table_entries_routed (specs : list (Signal * ReceptionParams))
    (dt : float) (minimise : bool) (tag field : string) (width : option Z)
    (i : nat) (g : Filter) :
  let regions := make_filter_regions specs dt minimise tag field width in
  filters regions.1 !! i = Some g ->
  exists (k : nat) signal rp,
    specs !! k = Some (signal, rp) /\
    g = from_parameters signal rp width /\
    keyspace_routes regions.2 !! k = Some (signal_keyspace signal, Z.of_nat i).
Proof.
  cbv zeta. unfold make_filter_regions.
  pose proof (table_invariant minimise width specs) as Hinv. cbv zeta in Hinv.
  destruct (fold_left (add_spec minimise width) specs ([], [])) as [table routes].
  cbn [fst snd filters keyspace_routes] in *.
  destruct Hinv as (_ & _ & Hrouted & _). apply Hrouted.
Qed.

(** [width] forces all filters to the given width; without it every filter
    has the width of a reception and the latching flag of its signal. *)
Theorem table_widths (specs : list (Signal * ReceptionParams))
    (dt : float) (minimise : bool) (tag field : string) (width : option Z)
    (g : Filter) :
  g ∈ filters (make_filter_regions specs dt minimise tag field width).1 ->
  exists signal rp,
    (signal, rp) ∈ specs /\
    Filters.width g = match width with Some w => w | None => rp_width rp end /\
    latching g = signal_latching signal.
Proof.
  unfold make_filter_regions.
  pose proof (table_invariant minimise width specs) as Hinv. cbv zeta in Hinv.
  destruct (fold_left (add_spec minimise width) specs ([], [])) as [table routes].
  cbn [fst snd filters] in *.
  destruct Hinv as (_ & _ & Hrouted & _).
  intros Hg. apply list_elem_of_lookup_1 in Hg as [i Hi].
  destruct (Hrouted i g Hi) as (k & signal & rp & Hk & -> & _).
  exists signal, rp. split; [by eapply list_elem_of_lookup_2|].
  unfold from_parameters. by destruct (rp_filter rp), width.
Qed.

(** The table is a subsequence of the filters built for the input pairs, in
    their order, so it never has more entries than there are pairs. *)
Theorem table_subsequence (specs : list (Signal * ReceptionParams))
    (dt : float) (minimise : bool) (tag field : string) (width : option Z) :
  let table := filters (make_filter_regions specs dt minimise tag field width).1 in
  table `sublist_of` map (fun spec => from_parameters spec.1 spec.2 width) specs /\
  len table <= len specs.
Proof.
  cbv zeta. unfold make_filter_regions.
  pose proof (table_invariant minimise width specs) as Hinv. cbv zeta in Hinv.
  destruct (fold_left (add_spec minimise width) specs ([], [])) as [table routes].
  cbn [fst snd filters] in *.
  destruct Hinv as (_ & Hsub & _). split; [done|].
  apply sublist_length in Hsub. rewrite length_map in Hsub. unfold len. lia.
Qed.

End TableFacts.

(* ===================================================================== *)
(** * More about the filter routing region                                *)
(* ===================================================================== *)

Section RoutingMore.
Context `{Numeric} `{BitField}.
Import Filters Layout.

Lemma enumerate_app {A : Type} (xs ys : list A) (start : Z) :
  enumerate start (xs ++ ys) = enumerate start xs ++ enumerate (start + len xs) ys.
Proof.
  revert start. induction xs as [|x xs IH]; intros start.
  - cbn [app enumerate]. change (len (@nil A)) with 0. by rewrite Z.add_0_r.
  - cbn [app enumerate]. rewrite IH. do 3 f_equal.
    unfold len. cbn [length]. lia.
Qed.

Lemma len_route_blocks (tag field : string) (routes : list (keyspace * Z)) :
  forallb (routable tag field) routes = true ->
  len (concat (map (route_block tag field) routes)) = 16 * len routes.
Proof.
  induction routes as [|rt routes IH]; intros Hrs; [reflexivity|].
  cbn [forallb] in Hrs. apply andb_true_iff in Hrs as [Hr Hrs].
  cbn [map concat]. rewrite len_app, len_route_block, IH by done.
  unfold len. cbn [length]. lia.
Qed.

(** The block of a routing region whose routes are all routable. *)
Lemma routing_written_bytes (r : FilterRoutingRegion) :
  len (keyspace_routes r) < 2 ^ 32 ->
  forallb (routable (filter_routing_tag r) (index_field r)) (keyspace_routes r)
    = true ->
  FilterRoutingRegion_write_subregion_to_file r =
    ok (le32 (len (keyspace_routes r))
          ++ concat (map (route_block (filter_routing_tag r) (index_field r))
                         (keyspace_routes r))).
Proof.
  destruct r as [routes tag field].
  cbn [keyspace_routes filter_routing_tag index_field]. intros Hlen Hrs.
  pose proof (len_nonneg routes) as Hn.
  unfold FilterRoutingRegion_write_subregion_to_file, FilterRoutingRegion_sizeof.
  cbn [keyspace_routes filter_routing_tag index_field].
  set (size := 4 * (1 + 4 * len routes)).
  unfold bytearray_new. assert ((size <? 0) = false) as -> by lia.
  rewrite bind_ok.
  change (replicate (Z.to_nat size) 0) with ([] ++ replicate (Z.to_nat size) 0).
  change 0 with (len (@nil Z)) at 2.
  rewrite pack_into_at_end; cycle 1.
  { rewrite len_replicate. change (len [len routes]) with 1. lia. }
  { apply forallb_uint32_cons; [apply is_uint32_spec; lia|done]. }
  rewrite bind_ok, drop_replicate. change (len [len routes]) with 1.
  rewrite routing_loop; [|reflexivity|done|lia].
  replace (Z.to_nat size - Z.to_nat (4 * 1) - Z.to_nat (16 * len routes))%nat
    with 0%nat by lia.
  cbn [replicate app words map concat]. by rewrite !app_nil_r.
Qed.

(** The first route that is not routable ends the write: with the
    exception its key raised, or with [struct.error] when one of its four
    words does not fit; no block is written. *)
Theorem routing_region_fails (pre post : list (keyspace * Z))
    (route : keyspace * Z) (tag field : string) :
  len (pre ++ route :: post) < 2 ^ 32 ->
  forallb (routable tag field) pre = true ->
  (forall e, route_words tag field route = raise e ->
     FilterRoutingRegion_write_subregion_to_file
       {| keyspace_routes := pre ++ route :: post;
          filter_routing_tag := tag; index_field := field |} = raise e) /\
  (forall ws, route_words tag field route = ok ws ->
     forallb is_uint32 ws = false ->
     FilterRoutingRegion_write_subregion_to_file
       {| keyspace_routes := pre ++ route :: post;
          filter_routing_tag := tag; index_field := field |}
       = raise StructError).
Proof.
  intros Hlen Hpre.
  pose proof (len_nonneg (pre ++ route :: post)) as Hn.
  pose proof (len_nonneg pre) as Hn1. pose proof (len_nonneg post) as Hn2.
  assert (len (pre ++ route :: post) = len pre + 1 + len post) as Hsum
    by (unfold len; rewrite length_app; cbn [length]; lia).
  assert (forall e,
            (let '(ks, index) := route in
             v ← get_value ks tag;
             m ← get_mask_tag ks tag;
             mi ← get_mask_field ks field;
             pack_into
               ((le32 (len (pre ++ route :: post))
                   ++ concat (map (route_block tag field) pre))
                  ++ replicate (Z.to_nat (4 * (1 + 4 * len (pre ++ route :: post)))
                                - Z.to_nat (4 * 1) - Z.to_nat (16 * len pre)) 0)
               (4 + 16 * (0 + len pre)) [v; m; mi; index]) = raise e ->
            FilterRoutingRegion_write_subregion_to_file
              {| keyspace_routes := pre ++ route :: post;
                 filter_routing_tag := tag; index_field := field |} = raise e)
    as Hstep.
  { intros e Hfail.
    unfold FilterRoutingRegion_write_subregion_to_file, FilterRoutingRegion_sizeof.
    cbn [keyspace_routes filter_routing_tag index_field].
    set (size := 4 * (1 + 4 * len (pre ++ route :: post))) in *.
    unfold bytearray_new. assert ((size <? 0) = false) as -> by lia.
    rewrite bind_ok.
    change (replicate (Z.to_nat size) 0) with ([] ++ replicate (Z.to_nat size) 0).
    change 0 with (len (@nil Z)) at 2.
    rewrite pack_into_at_end; cycle 1.
    { rewrite len_replicate. change (len [len (pre ++ route :: post)]) with 1. lia. }
    { apply forallb_uint32_cons; [apply is_uint32_spec; lia|done]. }
    rewrite bind_ok, drop_replicate.
    change (len [len (pre ++ route :: post)]) with 1.
    rewrite enumerate_app, for_each_app.
    rewrite routing_loop; [|reflexivity|done|lia].
    cbv beta iota delta [Py.bind ok]. cbn [enumerate for_each].
    destruct route as [ks index]. cbn [app words map concat] in *.
    rewrite app_nil_r in *.
    unfold Py.bind at 1. by rewrite Hfail. }
  split.
  - intros e Hwords. apply Hstep.
    destruct route as [ks index]. unfold route_words in Hwords. cbn [fst snd] in Hwords.
    destruct (get_value ks tag) as [e1|v]; [exact Hwords|].
    destruct (get_mask_tag ks tag) as [e2|m]; [exact Hwords|].
    destruct (get_mask_field ks field) as [e3|mi]; [exact Hwords|].
    done.
  - intros ws Hwords Hbad. apply Hstep.
    destruct route as [ks index]. unfold route_words in Hwords. cbn [fst snd] in Hwords.
    destruct (get_value ks tag) as [e1|v]; [done|].
    destruct (get_mask_tag ks tag) as [e2|m]; [done|].
    destruct (get_mask_field ks field) as [e3|mi]; [done|].
    injection Hwords as <-. rewrite !bind_ok.
    by apply pack_into_bad_value.
Qed.

Lemma routable_index (tag field : string) (ks : keyspace) (index : Z) :
  routable tag field (ks, 0) = true -> is_uint32 index = true ->
  routable tag field (ks, index) = true.
Proof.
  unfold routable, route_words. cbn [fst snd].
  destruct (get_value ks tag) as [e|v]; [done|].
  destruct (get_mask_tag ks tag) as [e|m]; [done|].
  destruct (get_mask_field ks field) as [e|mi]; [done|].
  change (forallb is_uint32 [v; m; mi; 0] = true -> is_uint32 index = true ->
          forallb is_uint32 [v; m; mi; index] = true).
  cbn [forallb]. intros Hws Hidx.
  apply andb_true_iff in Hws as [Hv Hws]. apply andb_true_iff in Hws as [Hm Hws].
  apply andb_true_iff in Hws as [Hmi _]. by rewrite Hv, Hm, Hmi, Hidx.
Qed.

(** The index word of the entry of index [k] in the block of routable
    routes. *)
Lemma route_index_word (tag field : string) (routes : list (keyspace * Z))
    (k : nat) (ks : keyspace) (index : Z) :
  forallb (routable tag field) routes = true ->
  routes !! k = Some (ks, index) ->
  word_at (le32 (len routes) ++ concat (map (route_block tag field) routes))
          (4 + 16 * Z.of_nat k + 12) = index.
Proof.
  intros Hrs Hk.
  assert (routable tag field (ks, index) = true) as Hr.
  { rewrite forallb_forall in Hrs. apply Hrs, list_elem_of_In.
    by eapply list_elem_of_lookup_2. }
  destruct (routable_words tag field ks index Hr)
    as (v & m & mi & _ & _ & _ & Hw & Hu).
  assert (concat (map (route_block tag field) routes) =
            concat (map (route_block tag field) (take k routes))
              ++ words [v; m; mi; index]
              ++ concat (map (route_block tag field) (drop (S k) routes)))
    as Hsplit.
  { rewrite <-(take_drop_middle routes k (ks, index) Hk) at 1.
    rewrite map_app, concat_app. cbn [map concat].
    unfold route_block at 2. by rewrite Hw. }
  rewrite Hsplit, app_assoc.
  set (P := le32 (len routes)
              ++ concat (map (route_block tag field) (take k routes))).
  assert (len P = 4 + 16 * Z.of_nat k) as <-.
  { unfold P. rewrite len_app, len_le32.
    rewrite len_route_blocks by by apply forallb_take.
    unfold len. rewrite length_take. apply lookup_lt_Some in Hk. lia. }
  apply (word_at_words P _ [v; m; mi; index] 3); [done|].
  cbn [forallb] in Hu. apply andb_true_iff in Hu as [_ Hu].
  apply andb_true_iff in Hu as [_ Hu]. apply andb_true_iff in Hu as [_ Hu].
  by apply andb_true_iff in Hu as [? _].
Qed.

(** The routing region [make_filter_regions] returns can be written as soon
    as the key of every signal answers the three queries with values that
    fit a word: the indices it holds always do.  The block is 4 bytes and
    16 more per input pair, and the index word of every entry is an index
    into the table of the filter region returned with it. *)
Theorem make_filter_regions_routing_written
    (specs : list (Signal * ReceptionParams)) (dt : float) (minimise : bool)
    (tag field : string) (width : option Z) :
  len specs < 2 ^ 32 ->
  (forall signal rp, (signal, rp) ∈ specs ->
     routable tag field (signal_keyspace signal, 0) = true) ->
  let regions := make_filter_regions specs dt minimise tag field width in
  exists data,
    FilterRoutingRegion_write_subregion_to_file regions.2 = ok data /\
    len data = 4 * (1 + 4 * len specs) /\
    forall k : nat,
      (k < length specs)%nat ->
      0 <= word_at data (4 + 16 * Z.of_nat k + 12) < len (filters regions.1).
Proof.
  intros Hlen Hkeys. cbv zeta. unfold make_filter_regions.
  pose proof (add_spec_invariant minimise width specs) as [Hroutes _].
  pose proof (table_invariant minimise width specs) as (Hlr & Hsub & _).
  cbv zeta in *.
  destruct (fold_left (add_spec minimise width) specs ([], []))
    as [table routes].
  cbn [fst snd filters keyspace_routes] in *.
  apply sublist_length in Hsub. rewrite length_map in Hsub.
  assert (forall k ks index, routes !! k = Some (ks, index) ->
            0 <= index < len table /\ routable tag field (ks, index) = true)
    as Hroute.
  { intros k ks index Hk.
    destruct (Forall2_lookup_r _ _ _ _ _ Hroutes Hk)
      as ([signal rp] & Hspec & Hkey & Hidx & (g & Hg & _) & _).
    cbn [fst snd] in *. subst ks.
    apply lookup_lt_Some in Hg.
    assert (0 <= index < len table) as Hin by (unfold len; lia).
    split; [done|]. apply routable_index.
    - apply (Hkeys signal rp). by eapply list_elem_of_lookup_2.
    - apply is_uint32_spec. unfold len in *. lia. }
  assert (forallb (routable tag field) routes = true) as Hrs.
  { apply forallb_forall. intros [ks index] Hin.
    apply list_elem_of_In, list_elem_of_lookup_1 in Hin as [k Hk].
    by apply (Hroute k). }
  assert (len routes = len specs) as Hlenr by (unfold len; lia).
  eexists. split.
  { apply routing_written_bytes; cbn [keyspace_routes filter_routing_tag index_field];
      [lia|done]. }
  cbn [keyspace_routes filter_routing_tag index_field].
  split.
  - rewrite len_app, len_le32, len_route_blocks by done. lia.
  - intros k Hk.
    destruct (lookup_lt_is_Some_2 routes k ltac:(lia)) as [[ks index] Hrt].
    rewrite (route_index_word tag field routes k ks index Hrs Hrt).
    by apply (Hroute k ks).
Qed.

End RoutingMore.

(* ===================================================================== *)
(** * More about the partitioner                                          *)
(* ===================================================================== *)

Section PartitionMore.
Import Partition.

Lemma chunk_length_le (cs : constraints) (cursor stop : Z)
    (cf : Constraint * (slice -> Q)) :
  cf ∈ cs -> chunk_length cs cursor stop <= largest_length cursor stop cf.
Proof.
  unfold chunk_length. induction cs as [|cf' cs IH]; intros Hcf.
  - by apply elem_of_nil in Hcf.
  - cbn [map foldr]. apply elem_of_cons in Hcf as [->|Hcf]; [lia|].
    specialize (IH Hcf). lia.
Qed.

Lemma chunk_length_attained (cs : constraints) (cursor stop : Z) :
  chunk_length cs cursor stop = stop - cursor \/
  exists cf, cf ∈ cs /\
             largest_length cursor stop cf = chunk_length cs cursor stop.
Proof.
  unfold chunk_length. induction cs as [|cf cs IH]; [by left|].
  cbn [map foldr].
  destruct (Z.min_spec (largest_length cursor stop cf)
              (foldr Z.min (stop - cursor) (map (largest_length cursor stop) cs)))
    as [[_ ->]|[_ ->]].
  - right. exists cf. split; [left|done].
  - destruct IH as [IH|(cf' & Hcf' & IH)]; [by left|].
    right. exists cf'. split; [by right|done].
Qed.

(** Every chunk the partitioner emits starts before the end of the range,
    where every constraint allows a positive length, and has the length
    [L*] computed at its start. *)
Lemma partition_from_lengths (cs : constraints) (stop : Z) (fuel : nat) :
  forall (cursor : Z) (chunks : list slice) (err : option UnpartitionableError),
    partition_from fuel cs cursor stop = Some (chunks, err) ->
    Forall (fun ch =>
              Partition.start ch < stop /\
              Partition.stop ch
                = Partition.start ch + chunk_length cs (Partition.start ch) stop /\
              forall cf, cf ∈ cs ->
                1 <= largest_length (Partition.start ch) stop cf)
           chunks.
Proof.
  induction fuel as [|fuel IH]; intros cursor chunks err Hpart;
    cbn [partition_from] in Hpart;
    (destruct (stop <=? cursor) eqn:Hcmp;
       [injection Hpart as <- <-; constructor|]);
    [done|].
  pose proof (find_offending cs cursor stop ltac:(lia)) as Hfind.
  destruct (List.find _ cs) as [cf|]; [injection Hpart as <- <-; constructor|].
  destruct (partition_from fuel cs (cursor + chunk_length cs cursor stop) stop)
    as [[chunks' err']|] eqn:Hrec; [|done].
  injection Hpart as <- <-. constructor; [|by eapply IH].
  cbn [Partition.start Partition.stop]. split; [lia|]. split; [done|exact Hfind].
Qed.

(** Under monotone estimators every chunk emitted is within the budget of
    every constraint, and is as long as the budgets allow: a chunk that
    ends before the end of the range would exceed the budget of some
    constraint if it were one longer. *)
Theorem partition_chunks_fit (r : slice) (cs : constraints)
    (chunks : list slice) (err : option UnpartitionableError) (ch : slice) :
  monotone cs ->
  partition r cs = Some (chunks, err) ->
  ch ∈ chunks ->
  (forall cf, cf ∈ cs ->
     within cf (Partition.start ch) (Partition.stop ch - Partition.start ch)
       = true) /\
  (Partition.stop ch < Partition.stop r ->
   exists cf, cf ∈ cs /\
     within cf (Partition.start ch)
       (Partition.stop ch - Partition.start ch + 1) = false).
Proof.
  unfold partition. intros Hmono Hpart Hch.
  pose proof (partition_from_lengths _ _ _ _ _ _ Hpart) as Hall.
  rewrite Forall_forall in Hall.
  destruct (Hall ch (proj1 (list_elem_of_In _ _) Hch)) as (Hlt & Hstop & Hpos).
  set (cursor := Partition.start ch) in *.
  pose proof (chunk_length_bounds cs cursor (Partition.stop r) Hlt Hpos) as HL.
  replace (Partition.stop ch - cursor)
    with (chunk_length cs cursor (Partition.stop r)) by lia.
  split.
  - intros cf Hcf.
    pose proof (chunk_length_le cs cursor (Partition.stop r) cf Hcf) as Hle.
    destruct (largest_length_spec cursor (Partition.stop r) cf ltac:(lia))
      as (_ & Hpass & _).
    specialize (Hpass ltac:(lia)).
    unfold within in *. apply Qle_bool_iff. apply Qle_bool_iff in Hpass.
    eapply Qle_trans; [|exact Hpass].
    apply (Hmono cf cursor _ _ Hcf). lia.
  - intros Hend.
    destruct (chunk_length_attained cs cursor (Partition.stop r))
      as [Hfull|(cf & Hcf & Hcfl)]; [lia|].
    exists cf. split; [done|].
    destruct (largest_length_spec cursor (Partition.stop r) cf ltac:(lia))
      as (_ & _ & Hfail).
    rewrite Hcfl in Hfail. apply Hfail. lia.
Qed.

(** Under monotone estimators a non-empty range that is within the budget
    of every constraint is not partitioned: it is the one chunk emitted. *)
Theorem partition_whole_range (r : slice) (cs : constraints) :
  monotone cs ->
  Partition.start r < Partition.stop r ->
  (forall cf, cf ∈ cs ->
     within cf (Partition.start r) (Partition.stop r - Partition.start r)
       = true) ->
  partition r cs = Some ([r], None).
Proof.
  destruct r as [lo hi]. cbn [Partition.start Partition.stop].
  intros Hmono Hlt Hfit. unfold partition. cbn [Partition.start Partition.stop].
  assert (forall cf, cf ∈ cs -> largest_length lo hi cf = hi - lo) as Hlargest.
  { intros cf Hcf.
    destruct (largest_length_spec lo hi cf ltac:(lia)) as (Hrange & _ & Hfail).
    destruct (decide (largest_length lo hi cf = hi - lo)) as [|Hne]; [done|].
    specialize (Hfail Hne). exfalso.
    pose proof (Hfit cf Hcf) as Hwhole.
    unfold within in *. apply Qle_bool_iff in Hwhole.
    assert (Qle_bool (cf.2 {| Partition.start := lo;
                              Partition.stop := lo + (largest_length lo hi cf + 1) |})
                     (max_usage cf.1) = true) as Hpass; [|congruence].
    apply Qle_bool_iff. eapply Qle_trans; [|exact Hwhole].
    apply (Hmono cf lo _ _ Hcf). lia. }
  assert (chunk_length cs lo hi = hi - lo) as HL.
  { unfold chunk_length. clear Hfit Hmono.
    induction cs as [|cf cs IH]; [done|]. cbn [map foldr].
    rewrite (Hlargest cf) by left.
    rewrite IH by (intros cf' Hcf'; apply Hlargest; by right). lia. }
  destruct (Z.to_nat (hi - lo)) as [|fuel] eqn:Hfuel; [lia|].
  cbn [partition_from]. assert ((hi <=? lo) = false) as -> by lia.
  pose proof (find_offending cs lo hi ltac:(lia)) as Hfind.
  destruct (List.find _ cs) as [cf|].
  - destruct Hfind as [Hcf Hz]. rewrite (Hlargest cf Hcf) in Hz. lia.
  - rewrite HL. replace (lo + (hi - lo)) with hi by lia.
    destruct fuel; cbn [partition_from]; by rewrite Z.leb_refl.
Qed.

End PartitionMore.

(* ===================================================================== *)
(** * Facts about utils/profiling.py                                      *)
(* ===================================================================== *)

Section ProfilingFacts.
Context `{Numpy}.
Import Profiling.

(** The accumulation loop on bins that reach past every index: it never
    raises, keeps the number of bins, and adds to every bin the durations
    of its samples, in their order. *)
Lemma accumulate_spec (samples : list (float * nat)) :
  forall total0 : list float,
    Forall (fun s => (s.2 < length total0)%nat) samples ->
    exists total,
      for_each add_at samples total0 = ok total /\
      length total = length total0 /\
      forall (i : nat) (t0 : float),
        total0 !! i = Some t0 ->
        total !! i = Some (fold_left float_add (durations_at i samples) t0).
Proof.
  induction samples as [|[d index] samples IH]; intros total0 Hin.
  - exists total0. by repeat split.
  - inversion_clear Hin as [|? ? Hidx Hrest]. cbn [snd] in Hidx.
    destruct (lookup_lt_is_Some_2 total0 index Hidx) as [t Ht].
    cbn [for_each]. unfold add_at at 1. cbn [fst snd]. rewrite Ht.
    destruct (IH (<[index := float_add t d]> total0)) as (total & Hloop & Hlen & Hbins).
    { eapply Forall_impl; [|exact Hrest]. cbv beta. intros s Hs.
      by rewrite length_insert. }
    exists total. split; [exact Hloop|]. rewrite length_insert in Hlen.
    split; [done|]. intros i t0 Hi. unfold durations_at.
    destruct (decide (index = i)) as [->|Hne].
    + rewrite filter_cons_True by done. cbn [map fold_left fst].
      apply Hbins. rewrite list_lookup_insert_eq by done. congruence.
    + rewrite filter_cons_False by done.
      apply Hbins. by rewrite list_lookup_insert_ne.
Qed.

Lemma np_amax_bound (ns : list nat) (largest : nat) :
  np_amax ns = ok largest -> Forall (fun n => (n <= largest)%nat) ns.
Proof.
  intros Hmax.
  assert (largest = max_list ns) as ->
    by (unfold np_amax in Hmax; destruct ns; [done|by injection Hmax]).
  apply Forall_forall. intros m Hm. apply max_list_elem_of_le.
  by apply list_elem_of_In.
Qed.

(** A tag with samples, one bin index per sample and a bin count that
    succeeds: the summary prints its five lines and raises nothing.  The
    accumulation never runs past the bins, of which there are one more than
    the largest index, and the last line is the average of the bins, each
    bin the sum of the durations of its samples in their order. *)
Theorem tag_summary_completes (ms_time_bins : list float) (tag_name : string)
    (times : list float * list float) (counts : list Z) :
  times.2 <> [] ->
  length (np_digitize times.1 ms_time_bins) = length times.2 ->
  np_bincount (np_digitize times.1 ms_time_bins) = ok counts ->
  let indices := np_digitize times.1 ms_time_bins in
  exists total,
    length total = S (max_list indices) /\
    (forall i : nat,
       (i <= max_list indices)%nat ->
       total !! i = Some (fold_left float_add
                            (durations_at i (zip times.2 indices)) float_zero)) /\
    tag_summary ms_time_bins tag_name times =
      ([ ("Tag:%s"%string, PyStr tag_name);
         ((tab +:+ "Mean time:%fms")%string, PyFloat (np_average times.2));
         ((tab +:+ "Mean samples per timestep:%f")%string,
          PyFloat (np_average (map float_of_int counts)));
         ((tab +:+ "Last sample time:%fms")%string,
          PyInt (Z.of_nat (S (max_list indices))));
         ((tab +:+ "Mean time per timestep:%fms")%string,
          PyFloat (np_average total)) ],
       None).
Proof.
  intros Hne Hlen Hcount. cbv zeta.
  set (indices := np_digitize times.1 ms_time_bins) in *.
  assert (np_amax indices = ok (max_list indices)) as Hmax.
  { unfold np_amax. destruct indices as [|n ns]; [|done].
    destruct (times.2); [done|discriminate Hlen]. }
  destruct (accumulate_spec (zip times.2 indices)
              (replicate (S (max_list indices)) float_zero))
    as (total & Hloop & Htotal & Hbins).
  { apply Forall_forall. intros [d index] Hs. cbn [snd].
    rewrite length_replicate.
    apply list_elem_of_In, elem_of_zip_r in Hs.
    pose proof (max_list_elem_of_le _ _ Hs). lia. }
  rewrite length_replicate in Htotal.
  exists total. split; [done|]. split.
  - intros i Hi. apply Hbins. apply lookup_replicate_2. lia.
  - unfold tag_summary. fold indices. rewrite Hlen, Nat.eqb_refl. cbn [negb].
    rewrite Hcount, Hmax. unfold ok in *. cbv beta iota zeta.
    by rewrite Hloop.
Qed.

(** A tag without samples never gets to its last two lines: the summary
    ends with the exception of [np.bincount], or else with the
    [ValueError] of [np.amax] on the empty array of indices. *)
Theorem tag_summary_without_samples (ms_time_bins : list float)
    (tag_name : string) (entries : list float) :
  np_digitize entries ms_time_bins = [] ->
  let l1 := ("Tag:%s"%string, PyStr tag_name) in
  let l2 := ((tab +:+ "Mean time:%fms")%string, PyFloat (np_average [])) in
  (forall e, np_bincount [] = raise e ->
     tag_summary ms_time_bins tag_name (entries, []) = ([l1; l2], Some e)) /\
  (forall counts, np_bincount [] = ok counts ->
     tag_summary ms_time_bins tag_name (entries, []) =
       ([l1; l2;
         ((tab +:+ "Mean samples per timestep:%f")%string,
          PyFloat (np_average (map float_of_int counts)))],
        Some ValueError)).
Proof.
  intros Hdig. cbv zeta. split.
  - intros e He. unfold tag_summary. cbn [fst snd]. by rewrite Hdig, He.
  - intros counts Hc. unfold tag_summary. cbn [fst snd]. by rewrite Hdig, Hc.
Qed.

(** The CSV header and a CSV row written with as many extra columns have
    the same number of cells, and the mean of every tag stands under the
    name of the tag. *)
Theorem csv_columns_align (data : profiling_data) (w : csv_writer)
    (extra_column_headers extra_column_values : list pyvalue) :
  length extra_column_headers = length extra_column_values ->
  exists header row,
    write_csv_row data (write_csv_header data w extra_column_headers)
      extra_column_values = w ++ [header; row] /\
    length header = length row /\
    forall (i : nat) (tag_name : string) (times : list float * list float),
      data !! i = Some (tag_name, times) ->
      header !! (length extra_column_headers + i)%nat = Some (PyStr tag_name) /\
      row !! (length extra_column_headers + i)%nat
        = Some (PyFloat (np_average times.2)).
Proof.
  intros Hextra. unfold write_csv_row, write_csv_header, writerow.
  eexists _, _. split; [by rewrite <-app_assoc|].
  split; [rewrite !length_app, !length_map; lia|].
  intros i tag_name times Hi. split.
  - rewrite lookup_app_r by lia.
    rewrite Nat.add_comm, Nat.add_sub.
    change (map ?f data) with (f <$> data). rewrite list_lookup_fmap.
    by etrans; [apply (f_equal (fmap _) Hi)|].
  - rewrite lookup_app_r by lia.
    rewrite Hextra, Nat.add_comm, Nat.add_sub.
    change (map ?f data) with (f <$> data). rewrite list_lookup_fmap.
    by etrans; [apply (f_equal (fmap _) Hi)|].
Qed.

End ProfilingFacts.

(* ===================================================================== *)
(** * The further facts on the example data                               *)
(* ===================================================================== *)

Section RegionInstances.
Import Filters Layout Extent Examples.

(** A region without a linear filter is written at its announced size. *)
Lemma two_filters_in_place :
  FilterRegion_write_subregion_to_file
    {| filters := [NoneFilter 4 false; LowpassFilter 4 true (1 # 100)%Q];
       dt := millisecond |} =
    ok (filter_region_layout
          [NoneFilter 4 false; LowpassFilter 4 true (1 # 100)%Q] millisecond) /\
  len (filter_region_layout
         [NoneFilter 4 false; LowpassFilter 4 true (1 # 100)%Q] millisecond) =
    FilterRegion_sizeof
      {| filters := [NoneFilter 4 false; LowpassFilter 4 true (1 # 100)%Q];
         dt := millisecond |}.
Proof.
  apply (filter_region_in_place (H:=rational));
    [vm_compute; reflexivity | reflexivity | reflexivity].
Defined.

(** A region that ends with a first-order filter is written too long. *)
Lemma first_order_overlong :
  exists pad : nat,
    (0 < pad)%nat /\
    FilterRegion_write_subregion_to_file
      {| filters := [NoneFilter 4 false; first_order]; dt := millisecond |} =
      ok (filter_region_layout [NoneFilter 4 false; first_order] millisecond
            ++ replicate pad 0) /\
    len (filter_region_layout [NoneFilter 4 false; first_order] millisecond
           ++ replicate pad 0) =
      FilterRegion_sizeof
        {| filters := [NoneFilter 4 false; first_order]; dt := millisecond |}
      + Z.of_nat pad.
Proof.
  apply (filter_region_overlong (H:=rational));
    [vm_compute; reflexivity | reflexivity | reflexivity].
Defined.

(** The header of the second of three filters starts at word 5. *)
Lemma second_header_at_word_5 :
  exists data,
    FilterRegion_write_subregion_to_file
      {| filters := [NoneFilter 4 false; LowpassFilter 4 true (1 # 100)%Q;
                     first_order];
         dt := millisecond |} = ok data /\
    word_at data 0 = 3 /\
    word_at data 20 = 2 /\
    word_at data 24 = 1 /\
    word_at data 28 = 4 /\
    word_at data 32 = 1.
Proof.
  destruct (filter_header_at (H:=rational)
              [@NoneFilter rational 4 false;
               @LowpassFilter rational 4 true (1 # 100)%Q; first_order]
              millisecond 1 (@LowpassFilter rational 4 true (1 # 100)%Q))
    as (data & Hwrite & Hcount & Hsize & Hmethod & Hwidth & Hlatch & _);
    [vm_compute; reflexivity | reflexivity | reflexivity |].
  exists data. repeat split; assumption.
Defined.

(** A negative width after a good filter ends the write. *)
Lemma negative_width_rejected :
  FilterRegion_write_subregion_to_file
    {| filters := [NoneFilter 4 false] ++ LowpassFilter (-1) false (1 # 100)%Q
                    :: [first_order];
       dt := millisecond |} = raise StructError.
Proof.
  apply (filter_region_rejects_width (H:=rational));
    [vm_compute; reflexivity | reflexivity | reflexivity].
Defined.

(** A filter with direct feed-through after a good filter ends the
    write. *)
Lemma feed_through_region_fails :
  FilterRegion_write_subregion_to_file
    {| filters := [NoneFilter 4 false]
                    ++ LinearFilter 1 false [1%Q; 1%Q] [1%Q; 1%Q] :: [];
       dt := millisecond |} = raise AssertionError.
Proof.
  apply (filter_region_assertion (H:=rational) [@NoneFilter rational 4 false]
           [] 1 false
           [1%Q; 1%Q] [1%Q; 1%Q] [(1 * millisecond)%Q] [1%Q; 1%Q]
           (1 * millisecond)%Q millisecond);
    [vm_compute; reflexivity | reflexivity | reflexivity | reflexivity
    | reflexivity | reflexivity].
Defined.

(** Two low-pass filters whose time constants are equal fractions written
    differently. *)
Lemma equal_fractions_same_header :
  size_words (LowpassFilter 4 false (1 # 100)%Q)
    = size_words (LowpassFilter 4 false (2 # 200)%Q) /\
  method_index (LowpassFilter 4 false (1 # 100)%Q)
    = method_index (LowpassFilter 4 false (2 # 200)%Q) /\
  header (LowpassFilter 4 false (1 # 100)%Q)
    = header (LowpassFilter 4 false (2 # 200)%Q).
Proof.
  apply (equal_filters_same_header (H:=rational)). reflexivity.
Defined.

(** The two entries of the table of the four receptions differ. *)
Lemma four_specs_table_distinct :
  Filter_eq (LowpassFilter 4 false (1 # 100)%Q) (NoneFilter 4 false) = false.
Proof.
  apply (deduplicated_table_distinct four_specs millisecond
           "filter_routing" "index" None 0 1);
    [lia | reflexivity | reflexivity].
Defined.

(** The low-pass entry of the table is the filter of the second
    reception. *)
Lemma four_specs_second_entry :
  exists (k : nat) signal rp,
    four_specs !! k = Some (signal, rp) /\
    LowpassFilter 4 false (1 # 100)%Q = from_parameters signal rp None /\
    keyspace_routes
      (make_filter_regions four_specs millisecond true
         "filter_routing" "index" None).2 !! k
      = Some (signal_keyspace signal, 1).
Proof.
  apply (table_entries_routed four_specs millisecond true
           "filter_routing" "index" None 1
           (@LowpassFilter rational 4 false (1 # 100)%Q)).
  reflexivity.
Defined.

(** The low-pass entry has the width of a reception. *)
Lemma four_specs_entry_width :
  exists signal rp,
    (signal, rp) ∈ four_specs /\
    width (LowpassFilter 4 false (1 # 100)%Q) = rp_width rp /\
    latching (LowpassFilter 4 false (1 # 100)%Q) = signal_latching signal.
Proof.
  apply (table_widths four_specs millisecond true "filter_routing" "index" None
           (@LowpassFilter rational 4 false (1 # 100)%Q)).
  apply (list_elem_of_lookup_2 _ 1%nat). reflexivity.
Defined.

(** A route whose key lacks a tag field, and one whose index is negative,
    after a good route. *)
Lemma bad_routes_fail :
  FilterRoutingRegion_write_subregion_to_file
    {| keyspace_routes := [(key 5, 0)] ++ (key (-1), 1) :: [];
       filter_routing_tag := "filter_routing"; index_field := "index" |}
    = raise ValueError /\
  FilterRoutingRegion_write_subregion_to_file
    {| keyspace_routes := [(key 5, 0)] ++ (key 6, -1) :: [];
       filter_routing_tag := "filter_routing"; index_field := "index" |}
    = raise StructError.
Proof.
  split.
  - apply (proj1 (routing_region_fails (H0:=simple_keys) [(key 5, 0)] [] (key (-1), 1)
                    "filter_routing" "index" eq_refl eq_refl)).
    reflexivity.
  - apply (proj2 (routing_region_fails (H0:=simple_keys) [(key 5, 0)] [] (key 6, -1)
                    "filter_routing" "index" eq_refl eq_refl) [6; 255; 3; -1]);
      reflexivity.
Defined.

(** The routing region of the four receptions: 68 bytes, every index below
    the size of the table. *)
Lemma four_specs_routing_written :
  exists data,
    FilterRoutingRegion_write_subregion_to_file
      (make_filter_regions four_specs millisecond true
         "filter_routing" "index" None).2 = ok data /\
    len data = 68.
Proof.
  destruct (make_filter_regions_routing_written four_specs millisecond true
              "filter_routing" "index" None) as (data & Hwrite & Hlen & _).
  - vm_compute; reflexivity.
  - intros signal rp Hin. unfold four_specs in Hin.
    repeat (apply elem_of_cons in Hin as [Hin|Hin];
            [injection Hin as -> ->; reflexivity|]).
    by apply elem_of_nil in Hin.
  - exists data. split; [exact Hwrite | exact Hlen].
Defined.

End RegionInstances.

Section ProfilingInstances.
Import Examples Profiling Samples.

(** The summary of the tag [timer]: three bins, the durations of the first
    two samples in the second and that of the third in the last. *)
Lemma timer_summary_completes :
  exists total counts,
    total = [0; (0 + (1 # 10)) + (2 # 10); 0 + (3 # 10)]%Q /\
    tag_summary (arange 2) "timer" timer =
      ([ ("Tag:%s"%string, PyStr "timer");
         ((tab +:+ "Mean time:%fms")%string, PyFloat (average timer.2));
         ((tab +:+ "Mean samples per timestep:%f")%string,
          PyFloat (average (map inject_Z counts)));
         ((tab +:+ "Last sample time:%fms")%string, PyInt 3);
         ((tab +:+ "Mean time per timestep:%fms")%string,
          PyFloat (average total)) ],
       None).
Proof.
  destruct (@tag_summary_completes rational rational_numpy (arange 2) "timer" timer [0; 2; 1])
    as (total & Hlen & Hbins & Hsummary);
    [discriminate | reflexivity | reflexivity |].
  exists total, [0; 2; 1]. split; [|exact Hsummary].
  destruct total as [|t0 [|t1 [|t2 [|t3 total]]]]; try discriminate Hlen.
  pose proof (Hbins 0%nat ltac:(vm_compute; lia)) as H0.
  pose proof (Hbins 1%nat ltac:(vm_compute; lia)) as H1.
  pose proof (Hbins 2%nat ltac:(vm_compute; lia)) as H2.
  vm_compute in H0, H1, H2.
  injection H0 as ->. injection H1 as ->. injection H2 as ->.
  reflexivity.
Defined.

(** A tag without samples ends the summary with [ValueError]. *)
Lemma empty_tag_summary :
  tag_summary (arange 2) "idle" ([], []) =
    ([ ("Tag:%s"%string, PyStr "idle");
       ((tab +:+ "Mean time:%fms")%string, PyFloat (average []));
       ((tab +:+ "Mean samples per timestep:%f")%string,
        PyFloat (average (map inject_Z []))) ],
     Some ValueError).
Proof.
  apply (proj2 (@tag_summary_without_samples rational rational_numpy (arange 2) "idle" [] eq_refl) []).
  reflexivity.
Defined.

(** A header and a row for two tags after one extra column. *)
Lemma two_tags_csv :
  exists header row,
    write_csv_row two_tags (write_csv_header two_tags [] [PyStr "run"])
      [PyInt 1] = [] ++ [header; row] /\
    length header = length row /\
    header !! 2%nat = Some (PyStr "idle") /\
    row !! 2%nat = Some (PyFloat (average [1 # 2]%Q)).
Proof.
  destruct (@csv_columns_align rational rational_numpy two_tags [] [PyStr "run"] [PyInt 1] eq_refl)
    as (header & row & Hwrite & Hlen & Hcells).
  exists header, row. split; [exact Hwrite|]. split; [exact Hlen|].
  exact (Hcells 1%nat "idle"%string ([1 # 4]%Q, [1 # 2]%Q) eq_refl).
Defined.

End ProfilingInstances.
